(** * Glide: a shallow embedding of the compiler/executor pipeline

    The development follows the Go packages of the repository:
    [node], [noderr], [dialect], [step], [jsoncel] and the root package
    [glide] (compiler and executor), together with a model of the parts of
    the graph library (github.com/dominikbraun/graph v0.15.1, the version
    pinned in go.mod) that the executor and the compiler call. *)

From Stdlib Require Import ZArith String Ascii List Bool Lia.
From stdpp Require Import base option list gmap strings pretty fin_maps fin_sets.

Set Warnings "-register-all,-clear-no-such-hyp,-notation-for-abbreviation".

Local Open Scope Z_scope.
Local Open Scope string_scope.
Local Open Scope list_scope.
Local Open Scope stdpp_scope.

(** ** YAML syntax nodes (package ast of goccy/go-yaml)

    The code uses a syntax node in two ways only: as a source-location
    handle ([GetPath]) and as the input of [yaml.NodeToValue] into a Go
    string.  [scalar] is the string the node decodes to, when it does. *)
Module ast.
Record Node := mkNode { GetPath : string; scalar : option string }.
End ast.

(** ** Go error values *)
Module errors.

(** The sentinel errors of the graph library. *)
Inductive Sentinel :=
| ErrVertexNotFound | ErrVertexAlreadyExists
| ErrEdgeNotFound | ErrEdgeAlreadyExists | ErrEdgeCreatesCycle.

(** The dynamic values an [error] of this program holds.
    [NodeError] is a [noderr.NodeError] struct value; [NodeErrorPtr] is a
    pointer to a [noderr.NodeError] variable, identified by its address
    (neither type has an [Unwrap] or an [Is] method).  [withMessage] is
    an error that wraps a cause and has [Unwrap] (errors.Wrap of
    github.com/pkg/errors, fmt.Errorf with the verb w). *)
Inductive error :=
| errorString (msg : string)
| sentinel (s : Sentinel)
| withMessage (cause : error) (msg : string)
| NodeError (Node : option ast.Node) (Err : error)
| NodeErrorPtr (addr : nat).

Definition Sentinel_eqb (a b : Sentinel) : bool :=
  match a, b with
  | ErrVertexNotFound, ErrVertexNotFound
  | ErrVertexAlreadyExists, ErrVertexAlreadyExists
  | ErrEdgeNotFound, ErrEdgeNotFound
  | ErrEdgeAlreadyExists, ErrEdgeAlreadyExists
  | ErrEdgeCreatesCycle, ErrEdgeCreatesCycle => true
  | _, _ => false
  end.

(** [err == graph.ErrX] for a sentinel of the graph library. *)
Definition is_sentinel (err : error) (s : Sentinel) : bool :=
  match err with
  | sentinel s' => Sentinel_eqb s' s
  | _ => false
  end.

(** [Error()] of an error value. A [NodeError] prints the error it
    holds. *)
Fixpoint Error (err : error) : string :=
  match err with
  | errorString msg => msg
  | sentinel _ => "graph error"
  | withMessage cause msg => msg +:+ ": " +:+ Error cause
  | NodeError _ e => Error e
  | NodeErrorPtr _ => "node error"
  end.

(** [errors.Is(err, target)] for a target that is a pointer to a
    [NodeError] variable at address [target].  The standard library
    walks the [Unwrap] chain of [err] and compares each error with the
    target using [==]: an interface value equals the pointer only when
    it is that very pointer. *)
Fixpoint Is (err : error) (target : nat) : bool :=
  match err with
  | NodeErrorPtr a => Nat.eqb a target
  | withMessage cause _ => Is cause target
  | errorString _ | sentinel _ | NodeError _ _ => false
  end.

(** [errors.As(err, &ne)] for [var ne noderr.NodeError]: the first
    error of the [Unwrap] chain whose dynamic type is [NodeError]. *)
Fixpoint As (err : error) : option (option ast.Node * error) :=
  match err with
  | NodeError n e => Some (n, e)
  | withMessage cause _ => As cause
  | errorString _ | sentinel _ | NodeErrorPtr _ => None
  end.

(** The addresses held by an error value. *)
Fixpoint addrs (err : error) : list nat :=
  match err with
  | NodeErrorPtr a => [a]
  | withMessage cause _ => addrs cause
  | NodeError _ e => addrs e
  | errorString _ | sentinel _ => []
  end.

(** The address of a newly declared variable: no live value holds it. *)
Definition fresh (err : error) : nat := S (list_max (addrs err)).

End errors.

Abbreviation error := errors.error.

(** ** Package node *)
Module node.

Inductive Type_ := Unknown | Start | Outcome.

Definition Type_eqb (a b : Type_) : bool :=
  match a, b with
  | Unknown, Unknown | Start, Start | Outcome, Outcome => true
  | _, _ => false
  end.

Definition String (t : Type_) : string :=
  if Type_eqb t Start then "start" else "outcome".

Record Node := mkNode {
  Type' : Type_;
  ID : string;
  Name : string;
  Priority : Z
}.

(** The zero value of the struct. *)
Definition zero : Node := mkNode Unknown "" "" 0.

End node.

(** ** Package noderr *)
Module noderr.

Definition Wrap (err : error) (node : option ast.Node) : error :=
  (* var ne NodeError *)
  let ne := errors.fresh err in
  if errors.Is err ne then
    (* the error was already wrapped in a child node. *)
    err
  else errors.NodeError node err.

End noderr.

(** ** Input values ([any] and [map[string]any])

    A Go map is given by its entries in iteration order. *)
Inductive any :=
| anyNil
| anyBool (b : bool)
| anyNumber (z : Z)
| anyString (s : string)
| anyList (l : list any)
| anyMap (m : list (string * any)).

(** An action value of a dialect ([any]): [nil], or a value that may
    implement [Completer]. *)
Inductive actionValue :=
| nilAction
| action (Complete : option (list (string * any) -> error + bool)).

(** ** Package dialect *)
Module dialect.

Record Dialect := mkDialect {
  (* Nodes, a map of Go: [None] is the nil map, which a Dialect has
     that was built without nodes. *)
  NodesMap : option (gmap string node.Node);
  Actions : option (gmap string actionValue)
}.

(** What a read of [d.Nodes] finds ([range], an index expression): a
    nil map reads as an empty one. *)
Definition Nodes (d : Dialect) : gmap string node.Node :=
  default ∅ (NodesMap d).

(** [Validate] ranges over [d.Nodes]; [ns] is the map in iteration
    order. *)
Fixpoint Validate_loop (ns : list (string * node.Node)) (priorityMap : gset Z)
  : option error :=
  match ns with
  | [] => None
  | (_, n) :: ns' =>
      if node.Type_eqb (node.Type' n) node.Outcome then
        if (node.Priority n <=? 0)%Z then
          Some (errors.errorString
            ("dialect error: all end nodes must have a priority greater than 0: found node with priority "
               +:+ pretty (node.Priority n)))
        else if decide (node.Priority n ∈ priorityMap) then
          Some (errors.errorString
            ("dialect error: each end node must have a unique priority: found two nodes with priority "
               +:+ pretty (node.Priority n)))
        else Validate_loop ns' ({[node.Priority n]} ∪ priorityMap)
      else Validate_loop ns' priorityMap
  end.

Definition Validate (d : Dialect) : option error :=
  Validate_loop (map_to_list (Nodes d)) ∅.

(** [New] creates a new empty dialect: its map of nodes is allocated. *)
Definition New : Dialect := mkDialect (Some ∅) None.

(** The run-time panic of an assignment [m[k] = v] into a nil map. *)
Inductive Panic := AssignmentToEntryInNilMap.

(** The loop of [Start] and of [End]: the name at index [i] of the
    remaining names is set to a node of type [t] and priority [i].  The
    assignment panics when the map is nil; without names there is no
    assignment. *)
Fixpoint setNodes (t : node.Type_) (names : list string) (i : Z)
         (Nodes : option (gmap string node.Node))
  : Panic + option (gmap string node.Node) :=
  match names with
  | [] => inr Nodes
  | n :: names' =>
      match Nodes with
      | None => inl AssignmentToEntryInNilMap
      | Some m => setNodes t names' (i + 1) (Some (<[n := node.mkNode t "" "" i]> m))
      end
  end.

(** [Start] sets start nodes with names. *)
Definition Start (d : Dialect) (names : list string) : Panic + Dialect :=
  match setNodes node.Start names 0 (NodesMap d) with
  | inl p => inl p
  | inr Nodes => inr (mkDialect Nodes (Actions d))
  end.

(** [End] sets end nodes with names. *)
Definition End_ (d : Dialect) (names : list string) : Panic + Dialect :=
  match setNodes node.Outcome names 0 (NodesMap d) with
  | inl p => inl p
  | inr Nodes => inr (mkDialect Nodes (Actions d))
  end.

End dialect.

(** ** Package step *)
Module step.

Inductive Operation := And | Or.

(** The body of a step; [NoBody] is the nil interface value. *)
Inductive Body :=
| NoBody
| Check (Expression : string)
| Boolean (Op : Operation)
| Ref (Node : node.Node)
| Action (Name : string) (Action : actionValue).

Inductive Step := mkStep {
  Position : list Z;
  Name : string;
  body : Body;
  Children : list Step;
  Node : option ast.Node;
  Pass : string
}.

Definition set_Name (e : Step) (name : string) : Step :=
  mkStep (Position e) name (body e) (Children e) (Node e) (Pass e).
Definition set_Body (e : Step) (b : Body) : Step :=
  mkStep (Position e) (Name e) b (Children e) (Node e) (Pass e).
Definition set_Position (e : Step) (p : list Z) : Step :=
  mkStep p (Name e) (body e) (Children e) (Node e) (Pass e).

(** [strings.Join(elems, sep)]. *)
Fixpoint Join (elems : list string) (sep : string) : string :=
  match elems with
  | [] => ""
  | [x] => x
  | x :: rest => x +:+ sep +:+ Join rest sep
  end.

(** [strconv.Itoa]. *)
Definition Itoa (p : Z) : string := pretty p.

Definition Hash (s : Step) : string :=
  (* ref nodes always have a fixed hash, regardless of their position
     in the statements. *)
  match body s with
  | Ref n => node.ID n
  | _ =>
      let posString := map Itoa (Position s) in
      Pass s +:+ "." +:+ Join posString "."
  end.

(** [yaml.NodeToValue(body, &expr)] for [var expr string]. *)
Definition NodeToValue (n : ast.Node) : error + string :=
  match ast.scalar n with
  | Some s => inr s
  | None => inl (errors.errorString "cannot unmarshal node into Go value of type string")
  end.

Definition parseNodeRef (e : Step) (body : ast.Node) (d : dialect.Dialect)
           (nodeType : node.Type_) : error + Step :=
  match NodeToValue body with
  | inl err => inl err
  | inr expr =>
      let n := node.mkNode nodeType expr "" 0 in
      match dialect.Nodes d !! expr with
      | Some def =>
          if negb (node.Type_eqb (node.Type' n) nodeType) then
            inl (errors.errorString
                   (expr +:+ " can only be used as a " +:+ node.String nodeType +:+ " step"))
          else
            (* n = def; n.ID = expr *)
            let n := node.mkNode (node.Type' def) expr (node.Name def) (node.Priority def) in
            (* e.Name = def.Name *)
            let e := set_Name e (node.Name def) in
            inr (set_Body e (Ref n))
      | None => inr (set_Body e (Ref n))
      end
  end.

(** The first two branches of [Step.UnmarshalYAML]: a step map with a
    [start] or an [outcome] key.  [None] stands for the other step
    forms, which are decoded by the rest of the method.  ([setNodePath]
    rewrites the location path of the value of the key, which
    [parseNodeRef] does not read.) *)
Definition UnmarshalYAML_ref (e : Step) (mapNode : gmap string ast.Node)
           (d : dialect.Dialect) : option (error + Step) :=
  match mapNode !! "start" with
  | Some body => Some (parseNodeRef e body d node.Start)
  | None =>
      match mapNode !! "outcome" with
      | Some body => Some (parseNodeRef e body d node.Outcome)
      | None => None
      end
  end.

End step.

(** ** Package jsoncel: the schema type provider *)
Module jsoncel.

(** Modelled from the spec: the declaration of [Schema], of its [Type]
    constants and of [TrueSchema] (schema.go of this package) is not
    among the sources.  The spec gives a schema node a type among null,
    boolean, object, array, number, integer and string, a map of
    properties, and an optional additionalProperties that is false or
    true (TrueSchema).  [Unspecified] is a node without a type, as the
    root schemas of the tests are. *)
Inductive Type_ :=
| Unspecified | Null | Boolean | Object | Array | Number | Integer | String.

(** Modelled from the spec: the value of additionalProperties, which is
    absent ([NoSchema]), true ([TrueSchema]) or false. *)
Inductive AdditionalProperties_ := NoSchema | TrueSchema | FalseSchema.

(** Modelled from the spec: a schema node, with its properties in the
    iteration order of the map. *)
Inductive Schema := mkSchema {
  Type' : Type_;
  Properties : list (string * Schema);
  AdditionalProperties : AdditionalProperties_
}.

Definition AdditionalProperties_eqb (a b : AdditionalProperties_) : bool :=
  match a, b with
  | NoSchema, NoSchema | TrueSchema, TrueSchema | FalseSchema, FalseSchema => true
  | _, _ => false
  end.

(** The types of the expression language (package decls of cel-go) that
    the provider returns. *)
Module decls.
Inductive Type_ :=
| Null | Bool | Any | Double | String | Int
| NewObjectType (name : string)
| NewListType (elem : Type_).
End decls.

Record Provider := mkProvider {
  (* fallback proto-based type provider: its FindType *)
  protos : string -> option decls.Type_;
  schema : Schema;
  typeName : string;
  typeMap : gmap string Schema
}.

(** [mapSchema] registers [s] under [key] and then each property of [s]
    under [key.childKey]. *)
Fixpoint mapSchema (key : string) (s : Schema) (tm : gmap string Schema)
  : gmap string Schema :=
  (fix props (ps : list (string * Schema)) (tm : gmap string Schema) :=
     match ps with
     | [] => tm
     | (childKey, child) :: ps' =>
         props ps' (mapSchema (key +:+ "." +:+ childKey) child tm)
     end) (Properties s) (<[key := s]> tm).

(** [NewProvider]; [registry] is [types.NewEmptyRegistry()], and a nil
    schema is replaced by the empty one. *)
Definition NewProvider (registry : string -> option decls.Type_)
           (typeName : string) (schema : option Schema) : Provider :=
  let schema := match schema with
                | Some s => s
                | None => mkSchema Unspecified [] NoSchema
                end in
  mkProvider registry schema typeName (mapSchema typeName schema ∅).

(** [FindType]: [Some t] is the pair (t, true). *)
Definition FindType (p : Provider) (typeName : string) : option decls.Type_ :=
  let fallback := protos p typeName in
  match typeMap p !! typeName with
  | Some f =>
      match Type' f with
      | Null => Some decls.Null
      | Boolean => Some decls.Bool
      | Object =>
          if AdditionalProperties_eqb (AdditionalProperties f) TrueSchema
          then Some decls.Any
          else Some (decls.NewObjectType typeName)
      | Array => Some (decls.NewListType decls.String)
      | Number => Some decls.Double
      | String => Some decls.String
      | Integer => Some decls.Int
      | Unspecified => fallback
      end
  | None => fallback
  end.

(** [FindFieldType]: [Some t] is the pair of a field type with the type
    [t] and true; [protosField] is [FindFieldType] of the fallback
    provider. *)
Definition FindFieldType (protosField : string -> string -> option decls.Type_)
           (p : Provider) (messageType fieldName : string) : option decls.Type_ :=
  (* fall back to the default *)
  let fallback := protosField messageType fieldName in
  match typeMap p !! fieldName with
  | Some f =>
      match Type' f with
      | Null => Some decls.Null
      | Boolean => Some decls.Bool
      | Object => Some (decls.NewObjectType (messageType +:+ "." +:+ fieldName))
      | Array => Some (decls.NewListType decls.String)
      | Number => Some decls.Double
      | String => Some decls.String
      | Integer => Some decls.Int
      | Unspecified => fallback
      end
  | None => fallback
  end.

End jsoncel.

(** ** The graph library (github.com/dominikbraun/graph v0.15.1)

    A directed graph with the PreventCycles trait, as both graphs of this
    program are created.  The library keeps vertices in a map from hash
    to value and edges in maps keyed by source and target; Go leaves the
    iteration order of a map open, so the edges are a list here and every
    list order is an iteration order the program may see. *)
Module graph.
Section Graph.
Context {T : Type}.

Record Graph := mkGraph {
  hash : T -> string;
  vertices : gmap string T;
  edges : list (string * string)
}.

Definition New (hash : T -> string) : Graph := mkGraph hash ∅ [].

Definition Vertex (g : Graph) (k : string) : error + T :=
  match vertices g !! k with
  | Some v => inr v
  | None => inl (errors.sentinel errors.ErrVertexNotFound)
  end.

Definition AddVertex (g : Graph) (value : T) : error + Graph :=
  let k := hash g value in
  match vertices g !! k with
  | Some _ => inl (errors.sentinel errors.ErrVertexAlreadyExists)
  | None => inr (mkGraph (hash g) (<[k := value]> (vertices g)) (edges g))
  end.

(** [AdjacencyMap()[k]]: the targets of the edges that leave [k]. *)
Definition AdjacencyMap (g : Graph) (k : string) : list string :=
  remove_dups (snd <$> filter (fun e => e.1 = k) (edges g)).

(** [PredecessorMap()[k]]: the sources of the edges that enter [k]. *)
Definition PredecessorMap (g : Graph) (k : string) : list string :=
  remove_dups (fst <$> filter (fun e => e.2 = k) (edges g)).

(** The vertices from which a vertex of [front] is reached in at most
    [n] edges. *)
Fixpoint ancestors (g : Graph) (n : nat) (front : gset string) : gset string :=
  match n with
  | O => front
  | S n' =>
      ancestors g n'
        (front ∪ list_to_set (flat_map (PredecessorMap g) (elements front)))
  end.

(** [CreatesCycle]: the search of the library walks the predecessors
    of [source] and looks for [target]. *)
Definition CreatesCycle (g : Graph) (source target : string) : bool :=
  if decide (source = target) then true
  else bool_decide (target ∈ ancestors g (length (edges g)) {[source]}).

Definition AddEdge (g : Graph) (sourceHash targetHash : string) : error + Graph :=
  match vertices g !! sourceHash with
  | None => inl (errors.withMessage (errors.sentinel errors.ErrVertexNotFound)
                   ("could not find source vertex with hash " +:+ sourceHash))
  | Some _ =>
      match vertices g !! targetHash with
      | None => inl (errors.withMessage (errors.sentinel errors.ErrVertexNotFound)
                       ("could not find target vertex with hash " +:+ targetHash))
      | Some _ =>
          if bool_decide ((sourceHash, targetHash) ∈ edges g) then
            inl (errors.sentinel errors.ErrEdgeAlreadyExists)
          else if CreatesCycle g sourceHash targetHash then
            inl (errors.sentinel errors.ErrEdgeCreatesCycle)
          else inr (mkGraph (hash g) (vertices g)
                            (edges g ++ [(sourceHash, targetHash)]))
      end
  end.

(** The inner loop of [BFS]: every adjacent vertex that is not yet
    marked is marked and appended to the queue. *)
Fixpoint enqueue (adj : list string) (visited : gset string) (queue : list string)
  : gset string * list string :=
  match adj with
  | [] => (visited, queue)
  | adjacency :: adj' =>
      if bool_decide (adjacency ∈ visited) then enqueue adj' visited queue
      else enqueue adj' ({[adjacency]} ∪ visited) (queue ++ [adjacency])
  end.

(** The outer loop of [BFS], for a visitor that threads a state [S]
    (the variables its closure captures).  [None]: the fuel ran out. *)
Fixpoint BFS_loop {S : Type} (fuel : nat) (g : Graph)
         (visit : string -> S -> S * bool)
         (queue : list string) (visited : gset string) (s : S) : option S :=
  match queue with
  | [] => Some s
  | currentHash :: queue =>
      match fuel with
      | O => None
      | Datatypes.S fuel' =>
          let '(s, stop) := visit currentHash s in
          (* Stop traversing the graph if the visit function returns true. *)
          if stop then Some s
          else
            let '(visited, queue) :=
              enqueue (AdjacencyMap g currentHash) visited queue in
            BFS_loop fuel' g visit queue visited s
      end
  end.

(** [BFS]: the error for a start vertex that the graph does not have,
    and the state of the visitor.  Each iteration of the loop takes a
    different vertex from the queue, which is the start vertex or the
    target of an edge, so one more than the number of edges is enough
    fuel (see [BFS_returns]). *)
Definition BFS {S : Type} (g : Graph) (start : string)
           (visit : string -> S -> S * bool) (s : S) : option (option error * S) :=
  match vertices g !! start with
  | None => Some (Some (errors.errorString
                          ("could not find start vertex with hash " +:+ start)), s)
  | Some _ =>
      match BFS_loop (Datatypes.S (length (edges g))) g visit [start] {[start]} s with
      | Some s' => Some (None, s')
      | None => None
      end
  end.

(** *** The traversal, seen from outside the visitor

    [BFS_order] is the sequence of vertices that the loop of [BFS]
    takes from the queue when the visitor never stops it, and
    [visits] runs a visitor over a sequence of vertices until it
    stops; [BFS_loop] is the one after the other
    ([BFS_loop_visits]). *)
Fixpoint BFS_order (fuel : nat) (g : Graph) (queue : list string)
         (visited : gset string) : option (list string) :=
  match queue with
  | [] => Some []
  | currentHash :: queue =>
      match fuel with
      | O => None
      | Datatypes.S fuel' =>
          let '(visited, queue) :=
            enqueue (AdjacencyMap g currentHash) visited queue in
          cons currentHash <$> BFS_order fuel' g queue visited
      end
  end.

Fixpoint visits {S : Type} (visit : string -> S -> S * bool)
         (ks : list string) (s : S) : S :=
  match ks with
  | [] => s
  | k :: ks' =>
      let '(s', stop) := visit k s in
      if stop then s' else visits visit ks' s'
  end.

(** The order in which [BFS] from [start] visits the graph. *)
Definition order (g : Graph) (start : string) : option (list string) :=
  BFS_order (Datatypes.S (length (edges g))) g [start] {[start]}.

(** [edge g x y]: the graph has an edge from [x] to [y];
    [reachable g x y]: a directed path leads from [x] to [y]. *)
Definition edge (g : Graph) (x y : string) : Prop := (x, y) ∈ edges g.

Inductive reachable (g : Graph) (x : string) : string -> Prop :=
  | reachable_refl : reachable g x x
  | reachable_step y z : reachable g x y -> edge g y z -> reachable g x z.

(** [ordered g start seen l]: each vertex of [l] is [start] or has an
    edge from a vertex that is in [seen] or comes before it in [l]. *)
Fixpoint ordered (g : Graph) (start : string) (seen l : list string) : Prop :=
  match l with
  | [] => True
  | k :: l' =>
      (k = start \/ exists p, p ∈ seen /\ edge g p k)
      /\ ordered g start (seen ++ [k]) l'
  end.

(** The targets of the edges. *)
Definition targets (g : Graph) : gset string := list_to_set (snd <$> edges g).

End Graph.
Arguments Graph : clear implicits.
End graph.

(** ** The expression language (cel-go), as far as the program uses it *)
Module cel.

(** The value of an evaluated expression: [val.Value().(bool)] succeeds
    on [valBool] only. *)
Inductive Val := valBool (b : bool) | valOther (s : string).

(** A compiled program: [Eval] on the flattened input. *)
Record Program := mkProgram { Eval : gmap string any -> error + Val }.

(** A checked expression: its output type, and [Env.Program] on it. *)
Record Ast := mkAst {
  OutputType : jsoncel.decls.Type_;
  program : string + Program
}.

(** An environment: [Compile] gives the issues or the checked
    expression. *)
Record Env := mkEnv { Compile : string -> string + Ast }.

Definition is_BoolType (t : jsoncel.decls.Type_) : bool :=
  match t with
  | jsoncel.decls.Bool => true
  | _ => false
  end.

End cel.

(** ** Slices of ints

    The position of a step is a slice of Go: an array in memory and a
    length.  A copy of a step has the same array, and [append] writes
    into the array when it has room, so that a step that was stored
    before may show an index that was appended later.  The capacities
    are those of the runtime on a platform whose [int] has 64 bits
    (amd64, arm64). *)
Module slice.

(** The address of the array and the number of elements; the capacity
    is the length of the array. *)
Record Slice := mkSlice { array : nat; len : nat }.

(** The nil slice: no array is at the address 0. *)
Definition nil : Slice := mkSlice 0 0.

(** The memory: the arrays by their addresses. *)
Notation Memory := (gmap nat (list Z)) (only parsing).

Definition arrayOf (m : Memory) (s : Slice) : list Z := default [] (m !! array s).

(** The elements that a read of the slice finds. *)
Definition ints (m : Memory) (s : Slice) : list Z := take (len s) (arrayOf m s).

(** An address at which the memory has no array. *)
Definition new (m : Memory) : nat := S (foldr Nat.max 0%nat (elements (dom m))).

(** The capacity that [growslice] of the runtime (go.mod: Go 1.19) gives
    a slice that has no room for the new length: the new length when it
    is more than twice the old capacity, else twice the old capacity.
    This is the rule for capacities below 256; the capacities of a slice
    of 64-bit ints that grows from nil by one element at a time, 1, 2,
    4, 8 and so on, are sizes of the allocator and are not rounded
    up. *)
Definition growslice (oldCap newLen : nat) : nat :=
  if (oldCap + oldCap <? newLen)%nat then newLen else (oldCap + oldCap)%nat.

(** [append(s, x)]: in the array of [s] when it has room, else in a new
    array with the elements of [s]. *)
Definition append (m : Memory) (s : Slice) (x : Z) : Memory * Slice :=
  let a := arrayOf m s in
  if (len s <? length a)%nat then
    (<[array s := <[len s := x]> a]> m, mkSlice (array s) (S (len s)))
  else
    let p := new m in
    let newcap := growslice (length a) (S (len s)) in
    (<[p := take (len s) a ++ x :: replicate (newcap - S (len s)) 0%Z]> m,
     mkSlice p (S (len s))).




(** The slice of a step that comes with a position: nil when the
    position is empty, as in a decoded program and in the steps of
    package s; else an array of its own without room, as a slice literal
    has. *)
Definition literal (m : Memory) (l : list Z) : Memory * Slice :=
  match l with
  | [] => (m, nil)
  | _ :: _ => let p := new m in (<[p := l]> m, mkSlice p (length l))
  end.

End slice.

(** ** Package glide: programs, the compiler and the executor *)
Module glide.
Import step.

Record Graph := mkGraph {
  (* G is the underlying graph data structure. *)
  G : graph.Graph Step;
  (* programs is a map of graph vertex hashes to compiled CEL programs. *)
  programs : gmap string cel.Program
}.

Definition NewGraph : Graph := mkGraph (graph.New Hash) ∅.

(** *** Programs (program.go) *)

Record Path := mkPath { id : string; Steps : list Step }.

(** [Workflow] is the map of the paths in iteration order. *)
Record Program := mkProgram { Workflow : list (string * Path) }.

Fixpoint setPass (s : Step) (pass : string) : Step :=
  mkStep (Position s) (Name s) (body s)
         (map (fun child => setPass child pass) (Children s)) (Node s) pass.

Definition NewProgram : Program := mkProgram [].

(** [Pass] sets [p.Workflow[name]]. *)
Definition Pass (p : Program) (name : string) (statements : list Step) : Program :=
  let pass := mkPath name (map (fun s => setPass s name) statements) in
  mkProgram (filter (fun e => e.1 ≠ name) (Workflow p) ++ [(name, pass)]).

Definition SimpleProgram (statements : list Step) : Program :=
  Pass NewProgram "default" statements.

(** *** The compiler (compile.go) *)

Definition DefaultMaxDepth : Z := 10.

Definition assertNode (s : Step) (wantType : node.Type_) : option error :=
  match body s with
  | Ref n =>
      if negb (node.Type_eqb (node.Type' n) wantType) then
        Some (errors.errorString
                ("statement must be a reference to a " +:+ node.String wantType +:+ " node"))
      else None
  | _ =>
      Some (errors.errorString
              ("statement must be a reference to a " +:+ node.String wantType
                 +:+ " node, but wasn't a reference"))
  end.

(** The node-specific compilation steps of [visitStatement]. *)
Definition compileBody (Env : cel.Env) (NumStatements Index Depth : Z)
           (e : Step) (key : string) (g : Graph) : error + Graph :=
  match body e with
  | Check Expression =>
      match cel.Compile Env Expression with
      | inl issues => inl (errors.errorString ("CEL type-check error: " +:+ issues))
      | inr ast =>
          if negb (cel.is_BoolType (cel.OutputType ast)) then
            inl (errors.errorString "CEL expression must return a boolean")
          else
            match cel.program ast with
            | inl err => inl (errors.errorString ("CEL program construction error: " +:+ err))
            | inr prg => inr (mkGraph (G g) (<[key := prg]> (programs g)))
            end
      end
  | Ref n =>
      if node.Type_eqb (node.Type' n) node.Unknown then
        inl (errors.errorString "invalid node: did not match any known start or end nodes")
      else if node.Type_eqb (node.Type' n) node.Start && negb (Index =? 0)%Z then
        inl (errors.errorString
               "invalid node: start nodes can only be referenced at the beginning of a workflow (index)")
      else if node.Type_eqb (node.Type' n) node.Start && negb (Depth =? 0)%Z then
        inl (errors.errorString
               "invalid node: start nodes can only be referenced at the beginning of a workflow (depth)")
      else if node.Type_eqb (node.Type' n) node.Outcome
              && negb (Index =? NumStatements - 1)%Z then
        inl (errors.errorString
               "invalid node: end nodes can only be referenced at the end of a workflow (index)")
      else if node.Type_eqb (node.Type' n) node.Outcome && negb (Depth =? 0)%Z then
        inl (errors.errorString
               "invalid node: end nodes can only be referenced at the end of a workflow (depth)")
      else inr g
  | Boolean _ | Action _ _ | NoBody => inr g
  end.

(** [visitStatement].  [Parent] and [Previous] are the steps as their
    visits left them (with [Position] set).  The position of a step is
    here the list of the indices that the step has while it is visited:
    with it the keys, the edges and the programs are computed.  The
    graph holds each step as it is when it is added; what a later read
    of a stored step finds, whose position is a slice of Go that later
    visits may write, is followed by [placeStatement] below and put
    into the graph by [Compile].  The slice of a step reads the list
    of this definition while the step and its children are visited
    ([visit_place]). *)
Fixpoint visitStatement (Env : cel.Env) (MaxDepth NumStatements : Z)
         (Depth Index : Z) (Parent Previous : option Step)
         (Statement : Step) (g : Graph) {struct Statement} : error + Graph :=
  if (MaxDepth <? Depth)%Z then
    inl (errors.errorString "compiler max depth was exceeded")
  else
    let e := match Parent with
             | Some parent => set_Position Statement (Position parent)
             | None => Statement
             end in
    let e := set_Position e (Position e ++ [Index]) in
    let addVertex :=
      match graph.AddVertex (G g) e with
      | inl err =>
          (* it's okay if we've already inserted the vertex on an
             earlier pass. *)
          if errors.is_sentinel err errors.ErrVertexAlreadyExists
          then inr (G g) else inl err
      | inr G' => inr G'
      end in
    match addVertex with
    | inl err => inl err
    | inr G1 =>
        let key := Hash e in
        (* if there is a parent, link the current node to it *)
        let linkParent :=
          match Parent with
          | Some parent => graph.AddEdge G1 key (Hash parent)
          | None => inr G1
          end in
        match linkParent with
        | inl err => inl err
        | inr G2 =>
            (* if there are no children and we have a node from the
               previous statement, link the previous statement node to
               the entry *)
            let linkPrevious :=
              match Children e, Previous with
              | [], Some previous =>
                  match graph.AddEdge G2 (Hash previous) key with
                  | inl err =>
                      inl (errors.withMessage err
                             ("adding edge to previous node " +:+ key))
                  | inr G3 => inr G3
                  end
              | _, _ => inr G2
              end in
            match linkPrevious with
            | inl err => inl err
            | inr G3 =>
                match compileBody Env NumStatements Index Depth e key
                                  (mkGraph G3 (programs g)) with
                | inl err => inl err
                | inr g1 =>
                    (fix visitChildren (children : list Step) (i : Z) (g : Graph)
                       : error + Graph :=
                       match children with
                       | [] => inr g
                       | child :: rest =>
                           match visitStatement Env MaxDepth NumStatements
                                   (Depth + 1) i (Some e) Previous child g with
                           | inl err => inl (noderr.Wrap err (Node child))
                           | inr g' => visitChildren rest (i + 1)%Z g'
                           end
                       end) (Children Statement) 0%Z g1
                end
            end
        end
    end.

(** The position a root statement has after its visit. *)
Definition visited (s : Step) (i : Z) : Step := set_Position s (Position s ++ [i]).

(** The loop of [compilePass] over the statements. *)
Fixpoint compileStatements (Env : cel.Env) (MaxDepth NumStatements : Z)
         (Statements : list Step) (i : Z) (prev : option Step) (g : Graph)
  : error + Graph :=
  match Statements with
  | [] => inr g
  | s :: rest =>
      match visitStatement Env MaxDepth NumStatements 0 i None prev s g with
      | inl err => inl (noderr.Wrap err (Node s))
      | inr g' =>
          compileStatements Env MaxDepth NumStatements rest (i + 1)%Z
                            (Some (visited s i)) g'
      end
  end.

Definition compilePass (g : Graph) (PassID : string) (Env : cel.Env)
           (Statements : list Step) (MaxDepth : Z) : error + Graph :=
  (* a workflow must always contain at least 2 statements *)
  if (length Statements <? 2)%nat then
    inl (errors.errorString "workflow must contain at least 2 statements")
  else
    (* the first statement must always be a Start node. *)
    match head Statements with
    | None => inl (errors.errorString "workflow must contain at least 2 statements")
    | Some first =>
        match assertNode first node.Start with
        | Some err => inl err
        | None =>
            (* the last statement must always be an End node. *)
            match last Statements with
            | None => inl (errors.errorString "workflow must contain at least 2 statements")
            | Some final =>
                match assertNode final node.Outcome with
                | Some err => inl err
                | None =>
                    compileStatements Env MaxDepth (Z.of_nat (length Statements))
                                      Statements 0%Z None g
                end
            end
        end
    end.

Record Compiler := mkCompiler {
  Program_ : Program;
  InputSchema : option jsoncel.Schema;
  (* MaxDepth is set to 10 by default if not provided. *)
  MaxDepth : Z
}.

Fixpoint compilePasses (Env : cel.Env) (MaxDepth : Z)
         (passes : list (string * Path)) (g : Graph) : error + Graph :=
  match passes with
  | [] => inr g
  | (passID, p) :: rest =>
      match compilePass g passID Env (Steps p) MaxDepth with
      | inl err => inl err
      | inr g' => compilePasses Env MaxDepth rest g'
      end
  end.

(** *** The positions in memory

    The three lines of [visitStatement] that set the position and store
    the step,

      if opts.Parent != nil { e.Position = opts.Parent.Position }
      e.Position = append(e.Position, opts.Index)
      err := g.G.AddVertex(...)    [of the value of e]

    on slices: the step takes the slice of its parent, the index is
    appended, and the copy of the step that the graph stores keeps the
    slice.  A compilation that succeeds visits every statement of every
    path, in order; [placePasses] follows these visits in memory. *)

Record Positions := mkPositions {
  memory : slice.Memory;
  (* the slice that the step stored under a key has as its position *)
  stored : gmap string slice.Slice
}.

(** The visit of [Statement]: [Parent] is the slice of the parent, and
    [own] the slice that the statement comes with, which a step with a
    parent does not keep.  The key is the hash of the step with the
    position that its slice has in memory after the append; [AddVertex]
    stores the step unless the graph has a vertex under its key. *)
Fixpoint placeStatement (Index : Z) (Parent : option slice.Slice)
         (Statement : Step) (own : slice.Slice) (ps : Positions) {struct Statement}
  : Positions :=
  let position := match Parent with
                  | Some parent => parent
                  | None => own
                  end in
  let '(m, position) := slice.append (memory ps) position Index in
  let key := Hash (set_Position Statement (slice.ints m position)) in
  let stored := match stored ps !! key with
                | Some _ => stored ps
                | None => <[key := position]> (stored ps)
                end in
  (fix placeChildren (children : list Step) (i : Z) (ps : Positions) : Positions :=
     match children with
     | [] => ps
     | child :: rest =>
         placeChildren rest (i + 1)%Z
                       (placeStatement i (Some position) child slice.nil ps)
     end) (Children Statement) 0%Z (mkPositions m stored).

(** The loop of [compilePass] over the statements: [s := sd] copies the
    statement with the slice it comes with. *)
Fixpoint placeStatements (Statements : list Step) (i : Z) (ps : Positions)
  : Positions :=
  match Statements with
  | [] => ps
  | s :: rest =>
      let '(m, own) := slice.literal (memory ps) (Position s) in
      placeStatements rest (i + 1)%Z
                      (placeStatement i None s own (mkPositions m (stored ps)))
  end.

Fixpoint placePasses (passes : list (string * Path)) (ps : Positions) : Positions :=
  match passes with
  | [] => ps
  | (_, p) :: rest => placePasses rest (placeStatements (Steps p) 0%Z ps)
  end.

(** The graph as a read finds it: every stored step with the position
    that its slice has in memory. *)
Definition settled (ps : Positions) (g : Graph) : Graph :=
  mkGraph
    (graph.mkGraph (graph.hash (G g))
       (map_imap (fun k v =>
                    Some match stored ps !! k with
                         | Some position =>
                             set_Position v (slice.ints (memory ps) position)
                         | None => v
                         end) (graph.vertices (G g)))
       (graph.edges (G g)))
    (programs g).

(** [Compile].  [NewEnv] is [cel.NewEnv] with the custom type provider
    and the variable [input].  The graph that is returned holds the
    steps with their positions as the memory has them after the last
    visit. *)
Definition Compile (NewEnv : jsoncel.Provider -> error + cel.Env)
           (registry : string -> option jsoncel.decls.Type_)
           (c : Compiler) : error + Graph :=
  let MaxDepth := if (MaxDepth c =? 0)%Z then DefaultMaxDepth else MaxDepth c in
  let p := jsoncel.NewProvider registry "input" (InputSchema c) in
  match NewEnv p with
  | inl err => inl err
  | inr env =>
      match compilePasses env MaxDepth (Workflow (Program_ c)) NewGraph with
      | inl err => inl err
      | inr g =>
          inr (settled (placePasses (Workflow (Program_ c)) (mkPositions ∅ ∅)) g)
      end
  end.

(** *** The executor (execute.go) *)

Inductive State := Inactive | Complete | Active.

#[global] Instance State_eq_dec : EqDecision State.
Proof. solve_decision. Defined.

(** Result of a workflow execution *)
Record Result := mkResult {
  CG : graph.Graph Step;
  State_ : gmap string State;
  Outcome : string
}.

(** [InputMap.build]: each entry of the input is registered under
    [key.k]; an entry that is a map is then built under that key. *)
Fixpoint build_value (key : string) (v : any) (Data : gmap string any)
  : gmap string any :=
  match v with
  | anyMap input =>
      (fix entries (m : list (string * any)) (Data : gmap string any) :=
         match m with
         | [] => Data
         | (k, v') :: rest =>
             let childKey := key +:+ "." +:+ k in
             entries rest (build_value childKey v' (<[childKey := v']> Data))
         end) input Data
  | _ => Data
  end.

Definition build (key : string) (input : list (string * any))
           (Data : gmap string any) : gmap string any :=
  build_value key (anyMap input) Data.

Definition NewInputMap (key : string) (data : list (string * any)) : gmap string any :=
  build key data ∅.

(** The variables that the visitor of [Execute] captures and writes. *)
Record Exec := mkExec {
  state : gmap string State;
  cg : graph.Graph Step;
  outcome : node.Node;
  verr : option error
}.

(** The loop over the predecessors of [k]: counts the completed ones
    and adds their edges to the completion graph. *)
Fixpoint completedLoop (predecessors : list string) (state : gmap string State)
         (cg : graph.Graph Step) (k : string) (completedCount : nat)
  : error + (nat * graph.Graph Step) :=
  match predecessors with
  | [] => inr (completedCount, cg)
  | source :: rest =>
      match state !! source with
      | Some Complete =>
          match graph.AddEdge cg source k with
          | inl err => inl (errors.withMessage err "adding edge to complete graph")
          | inr cg' => completedLoop rest state cg' k (S completedCount)
          end
      | _ => completedLoop rest state cg k completedCount
      end
  end.

(** The switch of the visitor on the body of the vertex. *)
Definition visitBody (g : Graph) (input : list (string * any))
           (inputMap : gmap string any) (k : string) (v : Step)
           (predecessors : list string) (completedCount : nat)
           (state : gmap string State) (cg : graph.Graph Step)
           (outcome : node.Node) (verr : option error) : Exec * bool :=
  match body v with
  | Check _ =>
      if (completedCount =? 0)%nat then
        (* if no vertexes are completed before this one, this vertex
           cannot be complete. *)
        (mkExec state cg outcome verr, false)
      else
        match programs g !! k with
        | None =>
            (mkExec state cg outcome
               (Some (errors.errorString ("could not find CEL program for " +:+ k))), true)
        | Some prg =>
            match cel.Eval prg inputMap with
            | inl err => (mkExec state cg outcome (Some err), true)
            | inr (cel.valOther s) =>
                (mkExec state cg outcome
                   (Some (errors.errorString ("could not convert CEL to bool: " +:+ s))), true)
            | inr (cel.valBool valbool) =>
                let state := if valbool then <[k := Complete]> state else state in
                (mkExec state cg outcome verr, false)
            end
        end
  | Boolean Op =>
      (* for the AND node to be complete, all previous nodes must be
         complete. *)
      let state :=
        match Op with
        | And => if (completedCount =? length predecessors)%nat
                 then <[k := Complete]> state else state
        | Or => state
        end in
      (* for the OR node to be complete, any previous node must be
         complete. *)
      let state :=
        match Op with
        | Or => if (0 <? completedCount)%nat then <[k := Complete]> state else state
        | And => state
        end in
      (mkExec state cg outcome verr, false)
  | Action _ a =>
      (* if any predecessor is complete, the action is activated. *)
      let state := if (0 <? completedCount)%nat then <[k := Active]> state else state in
      match a with
      | action (Some Complete_) =>
          if (0 <? completedCount)%nat then
            match Complete_ input with
            | inl err => (mkExec state cg outcome (Some err), true)
            | inr complete =>
                let state := if complete then <[k := Complete]> state else state in
                (mkExec state cg outcome verr, false)
            end
          else (mkExec state cg outcome verr, false)
      | _ => (mkExec state cg outcome verr, false)
      end
  | Ref n =>
      let isEndNode := node.Type_eqb (node.Type' n) node.Outcome in
      (* if any predecessor is complete, the output is complete. *)
      let isComplete := (0 <? completedCount)%nat in
      let state := if isComplete then <[k := Complete]> state else state in
      (* if it's an End node, set it as the outcome if it's higher
         priority *)
      let outcome :=
        if isComplete && isEndNode && (node.Priority outcome <? node.Priority n)%Z
        then n else outcome in
      (mkExec state cg outcome verr, false)
  | NoBody => (mkExec state cg outcome verr, false)
  end.

(** The visitor that [Execute] hands to [graph.BFS]; the boolean is
    its result (true stops the traversal). *)
Definition visit (g : Graph) (start : string) (input : list (string * any))
           (inputMap : gmap string any) (k : string) (st : Exec) : Exec * bool :=
  (* node is inactive by default *)
  let state := <[k := Inactive]> (state st) in
  (* start nodes are complete by default *)
  let state := if decide (k = start) then <[k := Complete]> state else state in
  match graph.Vertex (G g) k with
  | inl err => (mkExec state (cg st) (outcome st) (Some err), true)
  | inr v =>
      match graph.AddVertex (cg st) v with
      | inl err => (mkExec state (cg st) (outcome st) (Some err), true)
      | inr cg =>
          let predecessors := graph.PredecessorMap (G g) k in
          match completedLoop predecessors state cg k 0 with
          | inl err => (mkExec state cg (outcome st) (Some err), true)
          | inr (completedCount, cg) =>
              visitBody g input inputMap k v predecessors completedCount
                        state cg (outcome st) (verr st)
          end
      end
  end.

(** [Execute]: [None] only if the traversal ran out of fuel, which it
    does not ([Execute_returns]). *)
Definition Execute (g : Graph) (start : string) (input : list (string * any))
  : option (error + Result) :=
  let inputMap := NewInputMap "input" input in
  let cg := graph.New Hash in
  (* the provided 'start' argument must always be a Start node *)
  match graph.Vertex (G g) start with
  | inl err => Some (inl err)
  | inr startVertex =>
      match body startVertex with
      | Ref startNode =>
          if negb (node.Type_eqb (node.Type' startNode) node.Start) then
            Some (inl (errors.errorString
                         ("provided start " +:+ start +:+ " was not a start node (got "
                            +:+ node.String (node.Type' startNode) +:+ ")")))
          else
            match graph.BFS (G g) start (visit g start input inputMap)
                            (mkExec ∅ cg node.zero None) with
            | None => None
            | Some (_, st) =>
                match verr st with
                | Some err => Some (inl err)
                | None => Some (inr (mkResult (glide.cg st) (state st)
                                              (node.ID (outcome st))))
                end
            end
      | _ =>
          Some (inl (errors.errorString
                       ("provided start " +:+ start +:+ " was not a node reference")))
      end
  end.

(** *** An execution, vertex by vertex *)

(** The variables of the visitor before the traversal. *)
Definition initial : Exec := mkExec ∅ (graph.New Hash) node.zero None.

(** The variables of the visitor after the vertices [ks] were
    visited, in this order. *)
Definition after (g : Graph) (start : string) (input : list (string * any))
           (ks : list string) : Exec :=
  graph.visits (visit g start input (NewInputMap "input" input)) ks initial.

(** The number of the given predecessors that are Complete in
    [state]. *)
Definition completed (state : gmap string State) (predecessors : list string) : nat :=
  length (filter (fun p => state !! p = Some Complete) predecessors).

(** [k] is a vertex whose body is a reference to an Outcome node [n]. *)
Definition outcomeVertex (g : Graph) (k : string) (n : node.Node) : Prop :=
  exists v, graph.vertices (G g) !! k = Some v /\ body v = Ref n
            /\ node.Type' n = node.Outcome.

(** [p] comes before [k] in the sequence [ks]. *)
Definition before (ks : list string) (p k : string) : Prop :=
  exists pre post, ks = pre ++ k :: post /\ p ∈ pre.

(** The order of the traversal of [Execute] visits a vertex after
    each of its predecessors. *)
Definition visitedAfterPredecessors (g : Graph) (start : string) : Prop :=
  forall ks, graph.order (G g) start = Some ks ->
    forall k p, k ∈ ks -> graph.edge (G g) p k -> before ks p k.

(** *** The compiler, step by step *)

(** The loop of [visitStatement] over the children of the step [e], by
    its name: [Depth] is the depth of [e], [i] the index of the first
    child of [children]. *)
Fixpoint visitChildren (Env : cel.Env) (MaxDepth NumStatements Depth : Z)
         (e : Step) (Previous : option Step) (children : list Step) (i : Z)
         (g : Graph) : error + Graph :=
  match children with
  | [] => inr g
  | child :: rest =>
      match visitStatement Env MaxDepth NumStatements (Depth + 1) i (Some e)
                           Previous child g with
      | inl err => inl (noderr.Wrap err (Node child))
      | inr g' =>
          visitChildren Env MaxDepth NumStatements Depth e Previous rest (i + 1)%Z g'
      end
  end.

(** The loop of [placeStatement] over the children of a step whose
    slice is [position], by its name. *)
Fixpoint placeChildren (position : slice.Slice) (children : list Step) (i : Z)
         (ps : Positions) : Positions :=
  match children with
  | [] => ps
  | child :: rest =>
      placeChildren position rest (i + 1)%Z
                    (placeStatement i (Some position) child slice.nil ps)
  end.



(** The step as [visitStatement] adds it to the graph: with the position
    of its parent, or its own, followed by its index. *)
Definition positioned (Parent : option Step) (Index : Z) (Statement : Step) : Step :=
  let e := match Parent with
           | Some parent => set_Position Statement (Position parent)
           | None => Statement
           end in
  set_Position e (Position e ++ [Index]).

(** The part of [visitStatement] between the check of the depth and the
    loop over the children: the step as it is added, and the graph with
    its vertex, its edges and its program. *)
Definition visitSelf (Env : cel.Env) (NumStatements Depth Index : Z)
           (Parent Previous : option Step) (Statement : Step) (g : Graph)
  : error + (Step * Graph) :=
  let e := positioned Parent Index Statement in
  let addVertex :=
    match graph.AddVertex (G g) e with
    | inl err =>
        if errors.is_sentinel err errors.ErrVertexAlreadyExists
        then inr (G g) else inl err
    | inr G' => inr G'
    end in
  match addVertex with
  | inl err => inl err
  | inr G1 =>
      let key := Hash e in
      let linkParent :=
        match Parent with
        | Some parent => graph.AddEdge G1 key (Hash parent)
        | None => inr G1
        end in
      match linkParent with
      | inl err => inl err
      | inr G2 =>
          let linkPrevious :=
            match Children e, Previous with
            | [], Some previous =>
                match graph.AddEdge G2 (Hash previous) key with
                | inl err =>
                    inl (errors.withMessage err
                           ("adding edge to previous node " +:+ key))
                | inr G3 => inr G3
                end
            | _, _ => inr G2
            end in
          match linkPrevious with
          | inl err => inl err
          | inr G3 =>
              match compileBody Env NumStatements Index Depth e key
                                (mkGraph G3 (programs g)) with
              | inl err => inl err
              | inr g1 => inr (e, g1)
              end
          end
      end
  end.

(** A graph as the compiler keeps it: every vertex is stored under its
    hash, every check vertex has a program, and every edge joins two
    different vertices of the graph. *)
Definition wellFormed (g : Graph) : Prop :=
  graph.hash (G g) = Hash
  /\ (forall k v, graph.vertices (G g) !! k = Some v -> Hash v = k)
  /\ (forall k v expr, graph.vertices (G g) !! k = Some v ->
        body v = Check expr -> is_Some (programs g !! k))
  /\ (forall x y, graph.edge (G g) x y ->
        is_Some (graph.vertices (G g) !! x)
        /\ is_Some (graph.vertices (G g) !! y) /\ x <> y).

(** How deep the children of a step are nested: 0 for a step without
    children. *)
Fixpoint nesting (s : Step) : Z :=
  (fix children (cs : list Step) : Z :=
     match cs with
     | [] => 0
     | c :: cs' => Z.max (1 + nesting c) (children cs')
     end) (Children s).

(** No step of the tree of [s] is a reference to a node. *)
Fixpoint refFree (s : Step) : bool :=
  match body s with
  | Ref _ => false
  | _ =>
      (fix children (cs : list Step) : bool :=
         match cs with
         | [] => true
         | c :: cs' => refFree c && children cs'
         end) (Children s)
  end.

(** The hashes of the steps of the tree of [s], when [s] has the
    position [position] and each child the position of its parent
    followed by its index. *)
Fixpoint hashes (position : list Z) (s : Step) : list string :=
  Hash (set_Position s position)
  :: (fix children (cs : list Step) (i : Z) : list string :=
        match cs with
        | [] => []
        | c :: cs' => hashes (position ++ [i]) c ++ children cs' (i + 1)%Z
        end) (Children s) 0%Z.

(** The edges that [visitStatement] adds for the tree of [s], when [s]
    has the position [position]: the edge to the parent, the edge from
    the previous statement when [s] has no children, and the edges of
    the children, whose parent is [s]. *)
Fixpoint links (position : list Z) (parent previous : option string) (s : Step)
  : list (string * string) :=
  let key := Hash (set_Position s position) in
  match parent with
  | Some q => [(key, q)]
  | None => []
  end
  ++ match Children s, previous with
     | [], Some p => [(p, key)]
     | _, _ => []
     end
  ++ (fix children (cs : list Step) (i : Z) : list (string * string) :=
        match cs with
        | [] => []
        | c :: cs' =>
            links (position ++ [i]) (Some key) previous c ++ children cs' (i + 1)%Z
        end) (Children s) 0%Z.

(** *** The input, path by path *)

(** The string has no dot. *)
Fixpoint nodot (s : string) : bool :=
  match s with
  | EmptyString => true
  | String c s' => negb (Ascii.eqb c ".") && nodot s'
  end.

(** [m[k]] for a map [m] of the input. *)
Fixpoint index (m : list (string * any)) (k : string) : option any :=
  match m with
  | [] => None
  | (k', v) :: rest => if String.eqb k' k then Some v else index rest k
  end.

(** The value that a path of keys leads to: [v[k1][k2]...]. *)
Fixpoint at_path (v : any) (path : list string) : option any :=
  match path with
  | [] => Some v
  | k :: rest =>
      match v with
      | anyMap m =>
          match index m k with
          | Some v' => at_path v' rest
          | None => None
          end
      | _ => None
      end
  end.

(** Every map of the value has different keys, as a map of Go has, and
    no key has a dot. *)
Fixpoint wellKeyed (v : any) : bool :=
  match v with
  | anyMap m =>
      bool_decide (NoDup (m.*1))
      && (fix entries (m : list (string * any)) : bool :=
            match m with
            | [] => true
            | (k, v') :: rest => nodot k && wellKeyed v' && entries rest
            end) m
  | _ => true
  end.

End glide.

(** ** Package cf: the Common Fate dialect *)
Module cf.

Record Approval := mkApproval { Groups : list string }.

Record ApprovalInput := mkApprovalInput {
  User : string;
  InputGroups : list string
}.

Record Input := mkInput { Approvals : list ApprovalInput }.

(** The three loops of [Complete], from the innermost to the outermost;
    [true]: the method returns true from inside the loop. *)
Fixpoint requiredLoop (g : string) (required : list string) : bool :=
  match required with
  | [] => false
  | requiredGroups :: rest =>
      if String.eqb g requiredGroups then
        (* someone from a required group has approved *)
        true
      else requiredLoop g rest
  end.

Fixpoint groupsLoop (groups required : list string) : bool :=
  match groups with
  | [] => false
  | g :: rest => if requiredLoop g required then true else groupsLoop rest required
  end.

Fixpoint approvalsLoop (approvals : list ApprovalInput) (required : list string) : bool :=
  match approvals with
  | [] => false
  | approval :: rest =>
      if groupsLoop (InputGroups approval) required then true
      else approvalsLoop rest required
  end.

(** [Complete] returns true if an Approval step in a workflow is
    complete.  [Decode] is [mapstructure.Decode] into an [Input]. *)
Definition Complete (Decode : any -> error + Input) (a : Approval) (input : any)
  : error + bool :=
  match Decode input with
  | inl err => inl err
  | inr i => inr (approvalsLoop (Approvals i) (Groups a))
  end.

(** The action value of an approval: it implements [Completer]. *)
Definition approval (Decode : any -> error + Input) (a : Approval) : actionValue :=
  action (Some (fun input => Complete Decode a (anyMap input))).

End cf.

(** ** Package s: helpers that build steps *)
Module s.
Import step.

Definition Ref (name : string) : Step :=
  mkStep [] "" (step.Ref (node.mkNode node.Unknown name "" 0)) [] None "".

Definition Start (name : string) : Step :=
  mkStep [] "" (step.Ref (node.mkNode node.Start name "" 0)) [] None "".

Definition Outcome (name : string) : Step :=
  mkStep [] "" (step.Ref (node.mkNode node.Outcome name "" 0)) [] None "".

Definition Boolean (op : Operation) (children : list Step) : Step :=
  mkStep [] "" (step.Boolean op) children None "".

Definition Check (expression : string) : Step :=
  mkStep [] "" (step.Check expression) [] None "".

Definition Action (name : string) (a : actionValue) : Step :=
  mkStep [] "" (step.Action name a) [] None "".

(** [Named(name).Priority(priority).Outcome(id)]. *)
Definition NamedOutcome (name : string) (priority : Z) (id : string) : Step :=
  mkStep [] name (step.Ref (node.mkNode node.Outcome id name priority)) [] None "".

End s.

(** ** Concrete programs, used to run the definitions *)
Module examples.
Import step glide.

(** An environment for the two literal expressions of the tests of the
    repository: [true] and [false] are boolean constants; every other
    expression has issues. *)
Definition constProgram (b : bool) : cel.Program :=
  cel.mkProgram (fun _ => inr (cel.valBool b)).

Definition testEnv : cel.Env :=
  cel.mkEnv (fun expr =>
    if String.eqb expr "true" then
      inr (cel.mkAst jsoncel.decls.Bool (inr (constProgram true)))
    else if String.eqb expr "false" then
      inr (cel.mkAst jsoncel.decls.Bool (inr (constProgram false)))
    else inl "undeclared reference").

Definition NewEnv (p : jsoncel.Provider) : error + cel.Env := inr testEnv.

Definition emptyRegistry (name : string) : option jsoncel.decls.Type_ := None.

Definition compile (p : Program) : error + Graph :=
  Compile NewEnv emptyRegistry (mkCompiler p None 0).

(** The graph of a program that compiles. *)
Definition graphOf (r : error + Graph) : Graph :=
  match r with
  | inr g => g
  | inl _ => NewGraph
  end.

(** The result of an execution that returns one. *)
Definition resultOf (g : Graph) (start : string) (input : list (string * any))
  : Result :=
  match Execute g start input with
  | Some (inr res) => res
  | _ => mkResult (graph.New Hash) ∅ ""
  end.

(** Scenario S1 of the spec, with the outcome at priority 1. *)
Definition simplePass : Program :=
  SimpleProgram [s.Start "request"; s.Check "true"; s.NamedOutcome "" 1 "approved"].

(** The same path with the Outcome node of the step builders, which
    has priority 0. *)
Definition unvalidated : Program :=
  SimpleProgram [s.Start "request"; s.Check "true"; s.Outcome "approved"].

(** Scenario S2 of the spec (a test of the repository): a boolean And
    with one false child. *)
Definition andOneFalse : Program :=
  SimpleProgram
    [ s.Start "request";
      s.Boolean And [s.Check "true"; s.Check "false"];
      s.NamedOutcome "" 1 "approved" ].

(** Two paths from one start to two outcomes. *)
Definition twoOutcomes : Program :=
  Pass (Pass NewProgram "first"
          [s.Start "request"; s.Check "true"; s.NamedOutcome "" 1 "approved"])
       "second"
       [s.Start "request"; s.Check "true"; s.NamedOutcome "" 2 "escalated"].

(** Two paths from two starts to one outcome. *)
Definition twoStarts : Program :=
  Pass (Pass NewProgram "first"
          [s.Start "request"; s.Check "true"; s.NamedOutcome "" 1 "approved"])
       "second"
       [s.Start "renewal"; s.Check "false"; s.NamedOutcome "" 1 "approved"].

(** A boolean And with a nested boolean as its second child; every
    check is true. *)
Definition nestedBoolean : Program :=
  SimpleProgram
    [ s.Start "request";
      s.Boolean And
        [ s.Check "true";
          s.Boolean Or [ s.Boolean And [ s.Check "true" ] ] ];
      s.NamedOutcome "" 1 "approved" ].

(** A boolean And whose second child is a boolean: the first child and
    the child of the nested boolean are both one edge away from the
    start. *)
Definition unevenAnd : Program :=
  SimpleProgram
    [ s.Start "request";
      s.Boolean And [ s.Check "true"; s.Boolean And [ s.Check "true" ] ];
      s.NamedOutcome "" 1 "approved" ].

(** Two checks nested three deep. *)
Definition deepSiblings : Program :=
  SimpleProgram
    [ s.Start "request";
      s.Boolean And
        [ s.Boolean Or [ s.Boolean And [ s.Check "true"; s.Check "true" ] ] ];
      s.NamedOutcome "" 1 "approved" ].

(** The same graph with its edges in the opposite order: another order
    in which Go may iterate the maps of the edges. *)
Definition reordered (g : Graph) : Graph :=
  mkGraph (graph.mkGraph (graph.hash (G g)) (graph.vertices (G g))
                         (reverse (graph.edges (G g))))
          (programs g).

(** The dialect of package cf. *)
Definition cfDialect : dialect.Dialect :=
  dialect.mkDialect
    (Some (<["request" := node.mkNode node.Start "" "Request" 0]>
             (<["approved" := node.mkNode node.Outcome "" "Approved" 1]> ∅)))
    (Some {["approval" := action None]}).

(** A dialect without nodes, as the tests of the decoder build it
    ([dialect.Dialect{Actions: ...}]): its map of nodes is nil. *)
Definition noNodes : dialect.Dialect :=
  dialect.mkDialect None (Some {["approval" := action None]}).

(** The step [- start: approved] of the path [default], before it is
    decoded, and the map of its keys. *)
Definition undecoded : Step :=
  mkStep [] "" NoBody [] (Some (ast.mkNode "$.workflow.default.steps[0]" None)) "default".

Definition startApproved : gmap string ast.Node :=
  {["start" := ast.mkNode "$.workflow.default.steps[0].start" (Some "approved")]}.

(** A path whose second step is a boolean with a misplaced reference
    as its child; each step has a source location. *)
Definition at_ (path : string) (st : Step) : Step :=
  mkStep (Position st) (Name st) (body st) (Children st)
         (Some (ast.mkNode path None)) (step.Pass st).

Definition rootLocation : ast.Node := ast.mkNode "$.workflow.default.steps[1]" None.
Definition childLocation : ast.Node :=
  ast.mkNode "$.workflow.default.steps[1].and[0]" None.

Definition misplacedChild : list Step :=
  [ at_ "$.workflow.default.steps[0]" (s.Start "request");
    mkStep [] "" (Boolean And)
           [ at_ "$.workflow.default.steps[1].and[0]" (s.Ref "B") ]
           (Some rootLocation) "";
    at_ "$.workflow.default.steps[2]" (s.Outcome "approved") ].

(** The location that a caller reads from an error with [errors.As]. *)
Definition locationOf (r : error + Graph) : option (option ast.Node) :=
  match r with
  | inl err => fst <$> errors.As err
  | inr _ => None
  end.

(** Two paths with the same start and the same outcome; the name of
    the second one extends the name of the first one with a position. *)
Definition dottedPasses : Program :=
  Pass (Pass NewProgram "a"
          [ s.Start "request";
            s.Boolean And [s.Action "x" nilAction; s.Action "y" nilAction];
            s.Outcome "approved" ])
       "a.1"
       [ s.Start "request";
         s.Boolean Or [s.Action "z" nilAction];
         s.Action "w" nilAction;
         s.Outcome "approved" ].

(** The second child of the boolean of path [a], and the boolean of
    path [a.1], as the compiler visits them. *)
Definition childOfA : Step :=
  mkStep [1; 1] "" (Action "y" nilAction) [] None "a".
Definition booleanOfA1 : Step :=
  mkStep [1] "" (Boolean Or) [setPass (s.Action "z" nilAction) "a.1"] None "a.1".

(** The schema of the test of the provider, with an object that allows
    additional properties. *)
Definition testSchema : jsoncel.Schema :=
  jsoncel.mkSchema jsoncel.Unspecified
    [ ("name", jsoncel.mkSchema jsoncel.String [] jsoncel.NoSchema);
      ("group", jsoncel.mkSchema jsoncel.Object
                  [("id", jsoncel.mkSchema jsoncel.String [] jsoncel.NoSchema)]
                  jsoncel.NoSchema);
      ("tags", jsoncel.mkSchema jsoncel.Object [] jsoncel.TrueSchema) ]
    jsoncel.NoSchema.

Definition testProvider : jsoncel.Provider :=
  jsoncel.NewProvider emptyRegistry "input" (Some testSchema).

(** The input of the test of the approval, and the decoding of inputs
    of this shape into [cf.Input]: a key that is missing leaves the
    zero value. *)
Definition approvedInput : list (string * any) :=
  [ ("approvals",
     anyList [ anyMap [ ("user", anyString "chris@commonfate.io");
                        ("groups", anyList [anyString "admins"]) ] ]) ].

Definition noApprovals : list (string * any) := [("approvals", anyList [])].

Fixpoint decodeStrings (l : list any) : error + list string :=
  match l with
  | [] => inr []
  | anyString g :: rest =>
      match decodeStrings rest with
      | inl err => inl err
      | inr gs => inr (g :: gs)
      end
  | _ => inl (errors.errorString "expected type 'string'")
  end.

Definition decodeApproval (v : any) : error + cf.ApprovalInput :=
  match v with
  | anyMap m =>
      let user := match index m "user" with
                  | Some (anyString u) => inr u
                  | None => inr ""
                  | Some _ => inl (errors.errorString "'user' expected type 'string'")
                  end in
      let groups := match index m "groups" with
                    | Some (anyList l) => decodeStrings l
                    | None => inr []
                    | Some _ => inl (errors.errorString "'groups': source data must be an array or slice")
                    end in
      match user, groups with
      | inr u, inr gs => inr (cf.mkApprovalInput u gs)
      | inl err, _ => inl err
      | _, inl err => inl err
      end
  | _ => inl (errors.errorString "expected a map")
  end.

Fixpoint decodeApprovals (l : list any) : error + list cf.ApprovalInput :=
  match l with
  | [] => inr []
  | v :: rest =>
      match decodeApproval v, decodeApprovals rest with
      | inr a, inr as_ => inr (a :: as_)
      | inl err, _ => inl err
      | _, inl err => inl err
      end
  end.

Definition decodeInput (v : any) : error + cf.Input :=
  match v with
  | anyMap m =>
      match index m "approvals" with
      | Some (anyList l) =>
          match decodeApprovals l with
          | inl err => inl err
          | inr as_ => inr (cf.mkInput as_)
          end
      | None => inr (cf.mkInput [])
      | Some _ => inl (errors.errorString "'approvals': source data must be an array or slice")
      end
  | _ => inl (errors.errorString "expected a map")
  end.

(** The workflow of the overview with one approval step, and the one
    with a boolean Or of two approval steps. *)
Definition adminApproval : Program :=
  SimpleProgram
    [ s.Start "request";
      s.Action "approval" (cf.approval decodeInput (cf.mkApproval ["admins"]));
      s.NamedOutcome "" 1 "approved" ].

Definition eitherApproval : Program :=
  SimpleProgram
    [ s.Start "request";
      s.Boolean Or
        [ s.Action "approval" (cf.approval decodeInput (cf.mkApproval ["admins"]));
          s.Action "approval" (cf.approval decodeInput (cf.mkApproval ["ops"])) ];
      s.NamedOutcome "" 1 "approved" ].

(** An input with a nested map. *)
Definition nestedInput : list (string * any) :=
  [ ("group", anyMap [("id", anyString "admins")]);
    ("verified", anyBool true) ].

End examples.

(** * Properties *)

(** ** Errors and their source locations *)

Lemma Is_above (err : error) (a : nat) :
  (list_max (errors.addrs err) < a)%nat -> errors.Is err a = false.
Proof.
  induction err as [msg|sn|cause IH msg|n e IH|addr]; simpl; intros Hlt; auto.
  apply Nat.eqb_neq. lia.
Qed.

(** A pointer to a new variable is found in no error. *)
Lemma Is_fresh (err : error) : errors.Is err (errors.fresh err) = false.
Proof. apply Is_above. unfold errors.fresh. lia. Qed.

(** [Wrap] puts every error into a new [NodeError]. *)
Lemma Wrap_NodeError (err : error) (n : option ast.Node) :
  noderr.Wrap err n = errors.NodeError n err.
Proof. unfold noderr.Wrap. now rewrite Is_fresh. Qed.

(** The location that [errors.As] reads from a wrapped error is the one
    of the last [Wrap]. *)
Lemma As_Wrap (err : error) (n : option ast.Node) :
  errors.As (noderr.Wrap err n) = Some (n, err).
Proof. now rewrite Wrap_NodeError. Qed.

(** C2, on the code: [Wrap] of an error that is a NodeError already does
    not return it unchanged but wraps it once more, and the error of a
    path whose failing step is the child of a boolean carries the
    location of the boolean, not the one of the child. *)
Theorem Wrap_wraps_NodeError_again :
  let inner := errors.NodeError (Some examples.childLocation)
                 (errors.errorString "invalid node") in
  noderr.Wrap inner (Some examples.rootLocation)
    = errors.NodeError (Some examples.rootLocation) inner
  /\ noderr.Wrap inner (Some examples.rootLocation) <> inner
  /\ examples.locationOf
       (glide.compilePass glide.NewGraph "default" examples.testEnv
                          examples.misplacedChild 10)
     = Some (Some examples.rootLocation).
Proof.
  intros inner. split; [apply Wrap_NodeError|]. split.
  - rewrite Wrap_NodeError. unfold inner. intros H. discriminate H.
  - vm_compute. reflexivity.
Qed.

(** ** References to the nodes of a dialect *)

(** A reference to a node that the dialect declares is never refused:
    the step gets the node of the dialect, with the referenced id, and
    its name. *)
Lemma parseNodeRef_declared (e : step.Step) (b : ast.Node) (d : dialect.Dialect)
      (nodeType : node.Type_) (expr : string) (def : node.Node) :
  ast.scalar b = Some expr ->
  dialect.Nodes d !! expr = Some def ->
  step.parseNodeRef e b d nodeType
  = inr (step.set_Body (step.set_Name e (node.Name def))
           (step.Ref (node.mkNode (node.Type' def) expr (node.Name def)
                                  (node.Priority def)))).
Proof.
  intros Hb Hd. unfold step.parseNodeRef, step.NodeToValue. rewrite Hb, Hd.
  simpl. destruct nodeType; reflexivity.
Qed.

(** A reference to a node that the dialect does not declare gets the
    kind of the step form. *)
Lemma parseNodeRef_undeclared (e : step.Step) (b : ast.Node) (d : dialect.Dialect)
      (nodeType : node.Type_) (expr : string) :
  ast.scalar b = Some expr ->
  dialect.Nodes d !! expr = None ->
  step.parseNodeRef e b d nodeType
  = inr (step.set_Body e (step.Ref (node.mkNode nodeType expr "" 0))).
Proof.
  intros Hb Hd. unfold step.parseNodeRef, step.NodeToValue. now rewrite Hb, Hd.
Qed.

(** C1, on the code: with the dialect of package cf, which is valid and
    declares [approved] as an Outcome, the step [start: approved] is
    decoded without an error into a reference to the Outcome node. *)
Theorem start_step_accepts_outcome_node :
  dialect.Validate examples.cfDialect = None
  /\ dialect.Nodes examples.cfDialect !! "approved"
     = Some (node.mkNode node.Outcome "" "Approved" 1)
  /\ step.UnmarshalYAML_ref examples.undecoded examples.startApproved examples.cfDialect
     = Some (inr (step.mkStep [] "Approved"
                    (step.Ref (node.mkNode node.Outcome "approved" "Approved" 1))
                    [] (Some (ast.mkNode "$.workflow.default.steps[0]" None))
                    "default")).
Proof. repeat split; vm_compute; reflexivity. Qed.

(** ** The hash of a step *)

Lemma Hash_Ref (st : step.Step) (n : node.Node) :
  step.body st = step.Ref n -> step.Hash st = node.ID n.
Proof. unfold step.Hash. now intros ->. Qed.

Lemma Hash_not_Ref (st : step.Step) :
  (forall n, step.body st <> step.Ref n) ->
  step.Hash st
  = step.Pass st +:+ "." +:+ step.Join (map step.Itoa (step.Position st)) ".".
Proof.
  unfold step.Hash. intros Hb. destruct (step.body st); try reflexivity.
  now destruct (Hb Node).
Qed.

(** A pass name without a dot is the part of the hash before the first
    dot: the steps of two such passes that are not references have
    different hashes. *)
Lemma append_dot_inj (p1 : string) : forall p2 r1 r2 : string,
  (forall a b, p1 <> a +:+ "." +:+ b) ->
  (forall a b, p2 <> a +:+ "." +:+ b) ->
  p1 +:+ "." +:+ r1 = p2 +:+ "." +:+ r2 -> p1 = p2.
Proof.
  induction p1 as [|c p1 IH]; intros [|d p2] r1 r2 H1 H2 Heq; simpl in Heq.
  - reflexivity.
  - injection Heq as <- _. now destruct (H2 "" p2).
  - injection Heq as -> _. now destruct (H1 "" p1).
  - injection Heq as -> Heq. f_equal. apply (IH p2 r1 r2); [| |assumption].
    + intros a b ->. now apply (H1 (String d a) b).
    + intros a b ->. now apply (H2 (String d a) b).
Qed.

Lemma Hash_dot_free_passes (s1 s2 : step.Step) :
  (forall n, step.body s1 <> step.Ref n) ->
  (forall n, step.body s2 <> step.Ref n) ->
  (forall a b, step.Pass s1 <> a +:+ "." +:+ b) ->
  (forall a b, step.Pass s2 <> a +:+ "." +:+ b) ->
  step.Pass s1 <> step.Pass s2 ->
  step.Hash s1 <> step.Hash s2.
Proof.
  intros Hb1 Hb2 Hd1 Hd2 Hne Heq.
  rewrite !Hash_not_Ref in Heq by assumption.
  now apply append_dot_inj in Heq.
Qed.

(** C7, on the code: the hash of a step that is not a reference is made
    of the pass and the position, and two steps of different passes have
    the same hash when the name of one pass extends the name of the
    other with a position.  The program [dottedPasses] compiles, and its
    graph has seven vertices for eight steps: the vertex [a.1.1] is the
    second child of the boolean of path [a], and the child of the boolean
    of path [a.1] is linked into it. *)
Theorem steps_of_two_passes_share_a_vertex :
  step.Hash examples.childOfA = "a.1.1"
  /\ step.Hash examples.booleanOfA1 = "a.1.1"
  /\ step.Pass examples.childOfA <> step.Pass examples.booleanOfA1
  /\ exists g, examples.compile examples.dottedPasses = inr g
       /\ size (graph.vertices (glide.G g)) = 7%nat
       /\ graph.vertices (glide.G g) !! "a.1.1" = Some examples.childOfA
       /\ ("a.1.1", "a.1") ∈ graph.edges (glide.G g)
       /\ ("a.1.1.0", "a.1.1") ∈ graph.edges (glide.G g)
       /\ ("a.1.1", "a.1.2") ∈ graph.edges (glide.G g).
Proof.
  split; [reflexivity|]. split; [reflexivity|]. split; [discriminate|].
  eexists. split; [vm_compute; reflexivity|].
  split; [vm_compute; reflexivity|].
  split; [vm_compute; reflexivity|].
  cbn [glide.G graph.edges].
  repeat split; apply list_elem_of_In; simpl; tauto.
Qed.

(** ** The type provider *)

Lemma string_app_assoc (a b c : string) : (a +:+ b) +:+ c = a +:+ b +:+ c.
Proof.
  induction a as [|x a IH]; [reflexivity|].
  change (String x ((a +:+ b) +:+ c) = String x (a +:+ b +:+ c)). now f_equal.
Qed.

Lemma string_app_nil_r (a : string) : a +:+ "" = a.
Proof.
  induction a as [|x a IH]; [reflexivity|].
  change (String x (a +:+ "") = String x a). now f_equal.
Qed.

(** [mapSchema] writes only names that extend its key. *)
Lemma mapSchema_other : forall (s : jsoncel.Schema) (key : string)
    (tm : gmap string jsoncel.Schema) (k' : string),
  (forall suffix, k' <> key +:+ suffix) ->
  jsoncel.mapSchema key s tm !! k' = tm !! k'.
Proof.
  fix IH 1. intros [t props ap] key tm k' Hk. simpl.
  rewrite <- (lookup_insert_ne tm key k' (jsoncel.mkSchema t props ap))
    by (intros ->; apply (Hk ""); now rewrite string_app_nil_r).
  generalize (<[key := jsoncel.mkSchema t props ap]> tm).
  induction props as [|[ck c] ps IHps]; intros tm0; [reflexivity|].
  rewrite IHps. apply IH. intros suffix ->.
  apply (Hk ("." +:+ ck +:+ suffix)). now rewrite !string_app_assoc.
Qed.

(** The flattened map registers the root schema under the name of the
    provider. *)
Lemma mapSchema_root (s : jsoncel.Schema) (key : string)
      (tm : gmap string jsoncel.Schema) :
  jsoncel.mapSchema key s tm !! key = Some s.
Proof.
  destruct s as [t props ap]. simpl.
  set (v := jsoncel.mkSchema t props ap). clearbody v.
  assert (H0 : <[key := v]> tm !! key = Some v) by apply lookup_insert_eq.
  revert H0. generalize (<[key := v]> tm).
  induction props as [|[ck c] ps IHps]; intros tm0 H0; [exact H0|].
  apply IHps. rewrite mapSchema_other; [exact H0|].
  intros suffix Heq. rewrite string_app_assoc in Heq.
  rewrite <- (string_app_nil_r key) in Heq at 1.
  apply String.app_inj in Heq. discriminate Heq.
Qed.

Lemma NewProvider_root (registry : string -> option jsoncel.decls.Type_)
      (name : string) (root : jsoncel.Schema) :
  jsoncel.typeMap (jsoncel.NewProvider registry name (Some root)) !! name = Some root.
Proof. apply mapSchema_root. Qed.

(** C8: for a name that the flattened map of the provider registers,
    [FindType] gives the type of the expression language that belongs
    to the type of the schema node under this name: any for an object
    with additionalProperties true, the object type of this name for
    another object, list of string for an array, double for a number,
    int for an integer, and string, bool and null for a string, a
    boolean and a null. *)
Theorem FindType_registered (registry : string -> option jsoncel.decls.Type_)
        (name : string) (root : option jsoncel.Schema)
        (typeName : string) (f : jsoncel.Schema) :
  let p := jsoncel.NewProvider registry name root in
  jsoncel.typeMap p !! typeName = Some f ->
  (jsoncel.Type' f = jsoncel.Object ->
   jsoncel.AdditionalProperties f = jsoncel.TrueSchema ->
   jsoncel.FindType p typeName = Some jsoncel.decls.Any)
  /\ (jsoncel.Type' f = jsoncel.Object ->
      jsoncel.AdditionalProperties f <> jsoncel.TrueSchema ->
      jsoncel.FindType p typeName = Some (jsoncel.decls.NewObjectType typeName))
  /\ (jsoncel.Type' f = jsoncel.Array ->
      jsoncel.FindType p typeName
      = Some (jsoncel.decls.NewListType jsoncel.decls.String))
  /\ (jsoncel.Type' f = jsoncel.Number ->
      jsoncel.FindType p typeName = Some jsoncel.decls.Double)
  /\ (jsoncel.Type' f = jsoncel.Integer ->
      jsoncel.FindType p typeName = Some jsoncel.decls.Int)
  /\ (jsoncel.Type' f = jsoncel.String ->
      jsoncel.FindType p typeName = Some jsoncel.decls.String)
  /\ (jsoncel.Type' f = jsoncel.Boolean ->
      jsoncel.FindType p typeName = Some jsoncel.decls.Bool)
  /\ (jsoncel.Type' f = jsoncel.Null ->
      jsoncel.FindType p typeName = Some jsoncel.decls.Null).
Proof.
  intros p Hf. unfold jsoncel.FindType. rewrite Hf.
  repeat split; intros Ht; rewrite Ht; try reflexivity.
  - intros ->. reflexivity.
  - intros Hap. destruct (jsoncel.AdditionalProperties f); try reflexivity.
    now destruct Hap.
Qed.

Lemma FindType_registered_witness :
  jsoncel.FindType examples.testProvider "input.tags" = Some jsoncel.decls.Any
  /\ jsoncel.FindType examples.testProvider "input.group"
     = Some (jsoncel.decls.NewObjectType "input.group")
  /\ jsoncel.FindType examples.testProvider "input.group.id"
     = Some jsoncel.decls.String.
Proof.
  split; [|split].
  - apply (FindType_registered examples.emptyRegistry "input"
             (Some examples.testSchema) "input.tags"
             (jsoncel.mkSchema jsoncel.Object [] jsoncel.TrueSchema));
      reflexivity.
  - apply (FindType_registered examples.emptyRegistry "input"
             (Some examples.testSchema) "input.group"
             (jsoncel.mkSchema jsoncel.Object
                [("id", jsoncel.mkSchema jsoncel.String [] jsoncel.NoSchema)]
                jsoncel.NoSchema));
      [reflexivity | reflexivity | discriminate].
  - apply (FindType_registered examples.emptyRegistry "input"
             (Some examples.testSchema) "input.group.id"
             (jsoncel.mkSchema jsoncel.String [] jsoncel.NoSchema));
      reflexivity.
Defined.

(** ** The graph library: edges and the traversal *)
Section graph_facts.
Context {T : Type}.
Implicit Types (g : graph.Graph T) (q queue : list string) (vis : gset string).

Lemma elem_of_AdjacencyMap g k y :
  y ∈ graph.AdjacencyMap g k <-> graph.edge g k y.
Proof.
  unfold graph.AdjacencyMap, graph.edge.
  rewrite elem_of_remove_dups, list_elem_of_fmap. split.
  - intros [[a b] [-> Hin]]. apply list_elem_of_filter in Hin as [Ha Hin].
    simpl in *. now subst.
  - intros Hin. exists (k, y). split; [reflexivity|].
    apply list_elem_of_filter. now split.
Qed.

Lemma elem_of_PredecessorMap g k p :
  p ∈ graph.PredecessorMap g k <-> graph.edge g p k.
Proof.
  unfold graph.PredecessorMap, graph.edge.
  rewrite elem_of_remove_dups, list_elem_of_fmap. split.
  - intros [[a b] [-> Hin]]. apply list_elem_of_filter in Hin as [Ha Hin].
    simpl in *. now subst.
  - intros Hin. exists (p, k). split; [reflexivity|].
    apply list_elem_of_filter. now split.
Qed.


Lemma edge_target g x y : graph.edge g x y -> y ∈ graph.targets g.
Proof.
  unfold graph.edge, graph.targets. intros Hin.
  apply elem_of_list_to_set, list_elem_of_fmap. now exists (x, y).
Qed.

(** What the inner loop of the traversal adds to the queue. *)
Lemma enqueue_spec adj : forall vis q vis' q',
  graph.enqueue adj vis q = (vis', q') ->
  exists new, q' = q ++ new /\ vis' = list_to_set new ∪ vis /\ NoDup new
    /\ (forall x, x ∈ new -> x ∈ adj /\ x ∉ vis)
    /\ (forall x, x ∈ adj -> x ∈ vis').
Proof.
  induction adj as [|a adj IH]; simpl; intros vis q vis' q' Heq.
  - inversion Heq; subst. exists []. rewrite app_nil_r.
    repeat split; try set_solver. constructor.
  - case_bool_decide as Ha.
    + apply IH in Heq as (new & -> & -> & Hnd & Hnew & Hadj).
      exists new. repeat split; auto.
      * apply Hnew in H as [? ?]. set_solver.
      * now apply Hnew in H.
      * intros x Hx. apply elem_of_cons in Hx as [->|Hx]; [set_solver|auto].
    + apply IH in Heq as (new & -> & -> & Hnd & Hnew & Hadj).
      exists (a :: new). repeat split.
      * now rewrite <- app_assoc.
      * set_solver.
      * constructor; [|assumption]. intros Hin. apply Hnew in Hin. set_solver.
      * apply elem_of_cons in H as [->|H]; [set_solver|].
        apply Hnew in H. set_solver.
      * apply elem_of_cons in H as [->|H]; [assumption|].
        apply Hnew in H. set_solver.
      * intros x Hx. apply elem_of_cons in Hx as [->|Hx]; [set_solver|auto].
Qed.

(** Termination: each round of the loop takes one vertex from the
    queue and adds vertices that were not marked, all of them targets
    of an edge. *)
Lemma enqueue_measure g adj : forall vis q vis' q',
  (forall x, x ∈ adj -> x ∈ graph.targets g) ->
  graph.enqueue adj vis q = (vis', q') ->
  (length q' + size (graph.targets g ∖ vis') = length q + size (graph.targets g ∖ vis))%nat.
Proof.
  induction adj as [|a adj IH]; simpl; intros vis q vis' q' Hsub Heq.
  - now inversion Heq.
  - case_bool_decide as Ha.
    + apply IH in Heq; [assumption|]. intros x Hx. apply Hsub. set_solver.
    + apply IH in Heq; [|intros x Hx; apply Hsub; set_solver].
      rewrite Heq, length_app. simpl.
      assert (Hsplit : graph.targets g ∖ vis
                       = {[a]} ∪ graph.targets g ∖ ({[a]} ∪ vis)).
      { apply set_eq. intros x. specialize (Hsub a).
        destruct (decide (x = a)) as [->|Hne]; set_solver. }
      assert (Hdisj : ({[a]} : gset string) ## graph.targets g ∖ ({[a]} ∪ vis))
        by set_solver.
      rewrite Hsplit.
      rewrite (size_union (C := gset string) {[a]} (graph.targets g ∖ ({[a]} ∪ vis)) Hdisj).
      rewrite size_singleton. lia.
Qed.

Lemma BFS_order_is_Some g fuel : forall q vis,
  (length q + size (graph.targets g ∖ vis) <= fuel)%nat ->
  is_Some (graph.BFS_order fuel g q vis).
Proof.
  induction fuel as [|fuel IH]; intros q vis Hle.
  - destruct q; [now eexists|simpl in Hle; lia].
  - destruct q as [|k q]; [now eexists|]. simpl.
    destruct (graph.enqueue (graph.AdjacencyMap g k) vis q) as [vis' q'] eqn:Heq.
    apply enqueue_measure with (g := g) in Heq.
    + destruct (IH q' vis') as [ks Hks]; [simpl in Hle; lia|].
      rewrite Hks. now eexists.
    + intros x Hx. apply elem_of_AdjacencyMap in Hx. eapply edge_target, Hx.
Qed.

Lemma size_targets g : (size (graph.targets g) <= length (graph.edges g))%nat.
Proof.
  unfold graph.targets. rewrite <- (length_fmap snd (graph.edges g)).
  generalize (snd <$> graph.edges g). intros l.
  induction l as [|x l IH].
  - rewrite list_to_set_nil. now rewrite (size_empty (C := gset string)).
  - rewrite list_to_set_cons.
    rewrite (size_union_alt (C := gset string) {[x]} (list_to_set l)).
    rewrite (size_singleton (C := gset string)).
    pose proof (subseteq_size (C := gset string)
                  (list_to_set l ∖ {[x]}) (list_to_set l)) as Hle.
    assert ((list_to_set l ∖ {[x]} : gset string) ⊆ list_to_set l) by set_solver.
    simpl. specialize (Hle H). lia.
Qed.

(** The traversal has an order for every graph and every start. *)
Lemma order_is_Some g start : is_Some (graph.order g start).
Proof.
  apply BFS_order_is_Some. simpl.
  pose proof (size_targets g) as Hsize.
  assert (Hsub : graph.targets g ∖ {[start]} ⊆ graph.targets g) by set_solver.
  apply (subseteq_size (C := gset string)) in Hsub. lia.
Qed.

(** The loop of [BFS] runs the visitor over this order. *)
Lemma BFS_loop_visits {S : Type} g (visit : string -> S -> S * bool) fuel :
  forall q vis ks s,
    graph.BFS_order fuel g q vis = Some ks ->
    graph.BFS_loop fuel g visit q vis s = Some (graph.visits visit ks s).
Proof.
  induction fuel as [|fuel IH]; intros q vis ks s Hks.
  - destruct q; [|discriminate]. now inversion Hks.
  - destruct q as [|k q]; [now inversion Hks|]. simpl in *.
    destruct (graph.enqueue (graph.AdjacencyMap g k) vis q) as [vis' q'].
    destruct (graph.BFS_order fuel g q' vis') as [ks'|] eqn:Hks'; [|discriminate].
    inversion Hks; subst. simpl.
    destruct (visit k s) as [s' [|]]; [reflexivity|]. now apply IH.
Qed.

Lemma BFS_visits {S : Type} g start (visit : string -> S -> S * bool) s v :
  graph.vertices g !! start = Some v ->
  exists ks, graph.order g start = Some ks
    /\ graph.BFS g start visit s = Some (None, graph.visits visit ks s).
Proof.
  intros Hv. destruct (order_is_Some g start) as [ks Hks]. exists ks.
  split; [assumption|]. unfold graph.BFS. rewrite Hv.
  unfold graph.order in Hks. now rewrite (BFS_loop_visits _ _ _ _ _ _ _ Hks).
Qed.

Lemma ordered_app g start l1 : forall seen l2,
  graph.ordered g start seen (l1 ++ l2)
  <-> graph.ordered g start seen l1 /\ graph.ordered g start (seen ++ l1) l2.
Proof.
  induction l1 as [|k l1 IH]; intros seen l2; simpl.
  - rewrite app_nil_r. tauto.
  - rewrite IH, <- app_assoc. simpl. tauto.
Qed.

(** The invariant of the loop: [done] are the vertices taken from the
    queue so far. *)
Lemma BFS_order_inv g start fuel : forall done q vis ks,
  vis = list_to_set (done ++ q) ->
  NoDup (done ++ q) ->
  (forall x y, x ∈ done -> graph.edge g x y -> y ∈ vis) ->
  (forall x, x ∈ done ++ q -> graph.reachable g start x) ->
  (forall x, x ∈ q -> x = start \/ exists p, p ∈ done /\ graph.edge g p x) ->
  graph.BFS_order fuel g q vis = Some ks ->
  NoDup (done ++ ks)
  /\ (forall x y, x ∈ done ++ ks -> graph.edge g x y -> y ∈ done ++ ks)
  /\ (forall x, x ∈ done ++ ks -> graph.reachable g start x)
  /\ graph.ordered g start done ks
  /\ (forall x, x ∈ q -> x ∈ ks).
Proof.
  induction fuel as [|fuel IH]; intros done q vis ks Hvis Hnd Hcl Hre Hq Hks.
  - destruct q; [|discriminate]. inversion Hks; subst. simpl.
    rewrite app_nil_r in *. repeat split; auto.
    intros x y Hx Hxy. specialize (Hcl x y Hx Hxy). set_solver.
  - destruct q as [|k q].
    { inversion Hks; subst. simpl. rewrite app_nil_r in *. repeat split; auto.
      intros x y Hx Hxy. specialize (Hcl x y Hx Hxy). set_solver. }
    simpl in Hks.
    destruct (graph.enqueue (graph.AdjacencyMap g k) vis q) as [vis' q'] eqn:Heq.
    destruct (graph.BFS_order fuel g q' vis') as [ks'|] eqn:Hks'; [|discriminate].
    inversion Hks; subst ks. clear Hks.
    apply enqueue_spec in Heq as (new & -> & -> & Hndnew & Hnew & Hadj).
    assert (Hnewvis : forall x, x ∈ new -> x ∉ done ++ k :: q).
    { intros x Hx Hin. apply Hnew in Hx as [_ Hx]. apply Hx. subst vis.
      now apply elem_of_list_to_set. }
    destruct (IH (done ++ [k]) (q ++ new) (list_to_set new ∪ vis) ks')
      as (Hnd' & Hcl' & Hre' & Hord' & Hq'); auto.
    + subst vis. rewrite <- app_assoc. simpl.
      rewrite !list_to_set_app_L, !list_to_set_cons, !list_to_set_app_L.
      set_solver.
    + rewrite app_assoc.
      replace ((done ++ [k]) ++ q) with (done ++ k :: q)
        by (now rewrite <- app_assoc).
      apply NoDup_app. split; [assumption|]. split; [|assumption].
      intros x Hx Hx'. exact (Hnewvis x Hx' Hx).
    + intros x y Hx Hxy. apply elem_of_app in Hx as [Hx|Hx].
      * specialize (Hcl x y Hx Hxy). set_solver.
      * apply list_elem_of_singleton in Hx as ->. apply Hadj.
        now apply elem_of_AdjacencyMap.
    + intros x Hx. rewrite app_assoc in Hx.
      replace ((done ++ [k]) ++ q) with (done ++ k :: q) in Hx
        by (now rewrite <- app_assoc).
      apply elem_of_app in Hx as [Hx|Hx]; [auto|].
      apply Hnew in Hx as [Hx _]. apply elem_of_AdjacencyMap in Hx.
      eapply graph.reachable_step; [|exact Hx].
      apply Hre. set_solver.
    + intros x Hx. apply elem_of_app in Hx as [Hx|Hx].
      * destruct (Hq x) as [->|(p & Hp & Hpx)]; [set_solver|now left|].
        right. exists p. split; [set_solver|assumption].
      * right. exists k. split; [set_solver|].
        apply Hnew in Hx as [Hx _]. now apply elem_of_AdjacencyMap.
    + rewrite <- app_assoc in Hnd', Hcl', Hre'. simpl in *.
      repeat split; auto.
      * apply Hq. set_solver.
      * intros x Hx. apply elem_of_cons in Hx as [->|Hx]; [set_solver|].
        apply elem_of_cons. right. apply Hq'. set_solver.
Qed.

(** The order of the traversal from [start]: it begins with [start],
    has no vertex twice, holds exactly the vertices that a directed
    path reaches from [start], and each of its vertices other than
    [start] has an edge from an earlier one. *)
Lemma order_spec g start ks :
  graph.order g start = Some ks ->
  (exists ks', ks = start :: ks')
  /\ NoDup ks
  /\ (forall x, x ∈ ks <-> graph.reachable g start x)
  /\ graph.ordered g start [] ks.
Proof.
  intros Hks. pose proof Hks as Hhd. unfold graph.order in Hks.
  apply (BFS_order_inv g start _ [] [start] {[start]} ks) in Hks
    as (Hnd & Hcl & Hre & Hord & Hq); simpl.
  - simpl in *. repeat split; auto.
    + unfold graph.order in Hhd. simpl in Hhd.
      destruct (graph.enqueue _ _ _) as [vis' q'].
      destruct (graph.BFS_order _ _ _ _) as [ks'|]; [|discriminate].
      inversion Hhd. now exists ks'.
    + intros Hx. induction Hx as [|y z Hy IHy Hyz].
      * apply Hq. set_solver.
      * eapply Hcl; eauto.
  - set_solver.
  - apply NoDup_singleton.
  - intros x y Hx. inversion Hx.
  - intros x Hx. apply list_elem_of_singleton in Hx as ->. constructor.
  - intros x Hx. apply list_elem_of_singleton in Hx as ->. now left.
Qed.

(** A vertex of the order other than [start] has an edge from a vertex
    that comes before it. *)
Lemma ordered_before g start pre k post :
  graph.ordered g start [] (pre ++ k :: post) ->
  k = start \/ exists p, p ∈ pre /\ graph.edge g p k.
Proof.
  intros Hord. apply ordered_app in Hord as [_ Hord]. simpl in Hord.
  tauto.
Qed.
End graph_facts.

(** ** The executor, one visit at a time *)
Section visit_facts.
Variables (g : glide.Graph) (start : string) (input : list (string * any)).

Let inputMap := glide.NewInputMap "input" input.
Let visit := glide.visit g start input inputMap.

(** The state map after the first two assignments of the visitor. *)
Let state0 (k : string) (st : glide.Exec) : gmap string glide.State :=
  if decide (k = start)
  then <[k := glide.Complete]> (<[k := glide.Inactive]> (glide.state st))
  else <[k := glide.Inactive]> (glide.state st).

Lemma completedLoop_count predecessors state k : forall cg n cc cg',
  glide.completedLoop predecessors state cg k n = inr (cc, cg') ->
  cc = (n + glide.completed state predecessors)%nat.
Proof.
  unfold glide.completed.
  induction predecessors as [|p ps IH]; simpl; intros cg n cc cg' Heq.
  - inversion Heq. lia.
  - destruct (state !! p) as [[| |]|] eqn:Hp.
    + apply IH in Heq. rewrite filter_cons_False by (rewrite Hp; discriminate).
      exact Heq.
    + destruct (graph.AddEdge cg p k) as [err|cg1]; [discriminate|].
      apply IH in Heq. rewrite filter_cons_True by exact Hp. simpl. lia.
    + apply IH in Heq. rewrite filter_cons_False by (rewrite Hp; discriminate).
      exact Heq.
    + apply IH in Heq. rewrite filter_cons_False by (rewrite Hp; discriminate).
      exact Heq.
Qed.

(** A visit that stops the traversal records an error. *)
Lemma visit_stop k st st' :
  visit k st = (st', true) -> glide.verr st' <> None.
Proof.
  unfold visit, glide.visit, glide.visitBody.
  repeat (match goal with
          | |- context [match ?x with _ => _ end] => destruct x eqn:?
          | |- context [if ?x then _ else _] => destruct x eqn:?
          end; simpl);
    intros Heq; inversion Heq; subst; simpl; discriminate.
Qed.

(** What a visit that lets the traversal go on does to the state map
    and to the running outcome. *)
Lemma visit_spec k st st' :
  visit k st = (st', false) ->
  exists v, graph.vertices (glide.G g) !! k = Some v
    /\ glide.verr st' = glide.verr st
    /\ let preds := graph.PredecessorMap (glide.G g) k in
       let cc := glide.completed (state0 k st) preds in
       match step.body v with
       | step.NoBody =>
           glide.state st' = state0 k st /\ glide.outcome st' = glide.outcome st
       | step.Check _ =>
           glide.outcome st' = glide.outcome st
           /\ (glide.state st' = state0 k st
               \/ (0 < cc)%nat /\ glide.state st' = <[k := glide.Complete]> (state0 k st))
       | step.Boolean step.And =>
           glide.outcome st' = glide.outcome st
           /\ glide.state st'
              = if (cc =? length preds)%nat
                then <[k := glide.Complete]> (state0 k st) else state0 k st
       | step.Boolean step.Or =>
           glide.outcome st' = glide.outcome st
           /\ glide.state st'
              = if (0 <? cc)%nat
                then <[k := glide.Complete]> (state0 k st) else state0 k st
       | step.Action _ _ =>
           glide.outcome st' = glide.outcome st
           /\ (cc = 0%nat /\ glide.state st' = state0 k st
               \/ (0 < cc)%nat
                  /\ (glide.state st' = <[k := glide.Active]> (state0 k st)
                      \/ glide.state st'
                         = <[k := glide.Complete]> (<[k := glide.Active]> (state0 k st))))
       | step.Ref n =>
           glide.state st'
           = (if (0 <? cc)%nat
              then <[k := glide.Complete]> (state0 k st) else state0 k st)
           /\ glide.outcome st'
              = if (0 <? cc)%nat && node.Type_eqb (node.Type' n) node.Outcome
                   && (node.Priority (glide.outcome st) <? node.Priority n)%Z
                then n else glide.outcome st
       end.
Proof.
  unfold visit, glide.visit, graph.Vertex. fold (state0 k st).
  destruct (graph.vertices (glide.G g) !! k) as [v|] eqn:Hv; [|discriminate].
  destruct (graph.AddVertex (glide.cg st) v) as [err|cg1]; [discriminate|].
  destruct (glide.completedLoop _ _ _ _ _) as [err|[cc cg2]] eqn:Hloop;
    [discriminate|].
  apply completedLoop_count in Hloop. simpl in Hloop. subst cc.
  intros Heq. exists v. split; [reflexivity|].
  unfold glide.visitBody in Heq.
  set (cc := glide.completed (state0 k st) (graph.PredecessorMap (glide.G g) k)) in *.
  destruct (step.body v) as [|expr|[|]|n|name a]; simpl.
  - inversion Heq; subst; simpl. auto.
  - destruct (cc =? 0)%nat eqn:Hcc.
    + inversion Heq; subst; simpl. auto.
    + apply Nat.eqb_neq in Hcc.
      destruct (glide.programs g !! k) as [prg|]; [|discriminate].
      destruct (cel.Eval prg inputMap) as [err|[[|]|s]]; try discriminate;
        inversion Heq; subst; simpl; split; auto; split; auto.
      right. split; [lia|reflexivity].
  - inversion Heq; subst; simpl. auto.
  - inversion Heq; subst; simpl. auto.
  - inversion Heq; subst; simpl. auto.
  - destruct (0 <? cc)%nat eqn:Hcc.
    + apply Nat.ltb_lt in Hcc.
      destruct a as [|[Complete_|]].
      * inversion Heq; subst; simpl. split; auto.
      * destruct (Complete_ input) as [err|[|]]; try discriminate;
          inversion Heq; subst; simpl; split; auto.
      * inversion Heq; subst; simpl. split; auto.
    + apply Nat.ltb_ge in Hcc.
      destruct a as [|[Complete_|]]; inversion Heq; subst; simpl;
        split; auto; split; auto; left; split; auto; lia.
Qed.

Lemma state0_other k st k' :
  k' <> k -> state0 k st !! k' = glide.state st !! k'.
Proof.
  intros Hne. unfold state0. case_decide; now rewrite !lookup_insert_ne by auto.
Qed.

Lemma state0_dom k st : dom (state0 k st) = {[k]} ∪ dom (glide.state st).
Proof.
  unfold state0. case_decide; rewrite !dom_insert_L; set_solver.
Qed.

Lemma state0_same k st :
  state0 k st !! k = Some (if decide (k = start) then glide.Complete else glide.Inactive).
Proof.
  unfold state0. case_decide; now rewrite !lookup_insert_eq.
Qed.

(** A visit writes the entry of the visited vertex only. *)
Lemma visit_other k st st' k' :
  visit k st = (st', false) -> k' <> k ->
  glide.state st' !! k' = glide.state st !! k'.
Proof.
  intros Hv Hne. apply visit_spec in Hv as (v & _ & _ & Hv). simpl in Hv.
  rewrite <- (state0_other k st k' Hne).
  destruct (step.body v) as [|expr|[|]|n|name a].
  - destruct Hv as [-> _]. reflexivity.
  - destruct Hv as [_ [->|[_ ->]]]; [reflexivity|]. now rewrite lookup_insert_ne.
  - destruct Hv as [_ ->]. destruct (_ =? _)%nat; [|reflexivity].
    now rewrite lookup_insert_ne.
  - destruct Hv as [_ ->]. destruct (_ <? _)%nat; [|reflexivity].
    now rewrite lookup_insert_ne.
  - destruct Hv as [-> _]. destruct (_ <? _)%nat; [|reflexivity].
    now rewrite lookup_insert_ne.
  - destruct Hv as [_ [[_ ->]|[_ [->| ->]]]]; [reflexivity| |];
      now rewrite !lookup_insert_ne.
Qed.

(** A visit gives the visited vertex an entry. *)
Lemma visit_dom k st st' :
  visit k st = (st', false) ->
  dom (glide.state st') = {[k]} ∪ dom (glide.state st).
Proof.
  intros Hv. apply visit_spec in Hv as (v & _ & _ & Hv). simpl in Hv.
  rewrite <- (state0_dom k st).
  destruct (step.body v) as [|expr|[|]|n|name a].
  - destruct Hv as [-> _]. reflexivity.
  - destruct Hv as [_ [->|[_ ->]]]; [reflexivity|].
    rewrite dom_insert_L, state0_dom. set_solver.
  - destruct Hv as [_ ->]. destruct (_ =? _)%nat; [|reflexivity].
    rewrite dom_insert_L, state0_dom. set_solver.
  - destruct Hv as [_ ->]. destruct (_ <? _)%nat; [|reflexivity].
    rewrite dom_insert_L, state0_dom. set_solver.
  - destruct Hv as [-> _]. destruct (_ <? _)%nat; [|reflexivity].
    rewrite dom_insert_L, state0_dom. set_solver.
  - destruct Hv as [_ [[_ ->]|[_ [->| ->]]]]; [reflexivity| |];
      rewrite !dom_insert_L, state0_dom; set_solver.
Qed.

(** *** Runs of the visitor *)

Let after := glide.after g start input.

Lemma after_eq ks : after ks = graph.visits visit ks glide.initial.
Proof. reflexivity. Qed.

Lemma after_app_stop l1 : forall l2 s,
  glide.verr (graph.visits visit l1 s) = None ->
  graph.visits visit (l1 ++ l2) s = graph.visits visit l2 (graph.visits visit l1 s).
Proof.
  induction l1 as [|k l1 IH]; simpl; intros l2 s Hverr; [reflexivity|].
  destruct (visit k s) as [s' [|]] eqn:Hk.
  - now apply visit_stop in Hk.
  - now apply IH.
Qed.

Lemma after_prefix l1 : forall l2 s,
  glide.verr s = None ->
  glide.verr (graph.visits visit (l1 ++ l2) s) = None ->
  glide.verr (graph.visits visit l1 s) = None.
Proof.
  induction l1 as [|k l1 IH]; simpl; intros l2 s Hs Hverr; [assumption|].
  destruct (visit k s) as [s' [|]] eqn:Hk.
  - assumption.
  - apply (IH l2); [|assumption].
    apply visit_spec in Hk as (v & _ & Hk & _). congruence.
Qed.

(** When the run over [pre ++ [k]] has no error, the visit of [k]
    after [pre] let the traversal go on. *)
Lemma after_snoc pre k :
  glide.verr (after (pre ++ [k])) = None ->
  glide.verr (after pre) = None
  /\ visit k (after pre) = (after (pre ++ [k]), false).
Proof.
  intros Hverr. assert (Hpre : glide.verr (after pre) = None).
  { now apply (after_prefix pre [k]). }
  split; [assumption|]. rewrite !after_eq in *.
  rewrite after_app_stop in * by assumption. simpl in *.
  destruct (visit k _) as [s' [|]] eqn:Hk; [|reflexivity].
  now apply visit_stop in Hk.
Qed.

(** Induction over the visits of a run that ends without an error. *)
Lemma after_ind (P : list string -> glide.Exec -> Prop) ks :
  glide.verr (after ks) = None ->
  P [] glide.initial ->
  (forall pre k post,
      ks = pre ++ k :: post ->
      P pre (after pre) ->
      visit k (after pre) = (after (pre ++ [k]), false) ->
      P (pre ++ [k]) (after (pre ++ [k]))) ->
  P ks (after ks).
Proof.
  intros Hverr H0 Hstep.
  assert (H : forall pre post, ks = pre ++ post -> P pre (after pre)).
  { induction pre as [|k pre IH] using rev_ind; intros post Heq; [exact H0|].
    rewrite <- app_assoc in Heq. simpl in Heq.
    apply (Hstep pre k post Heq); [now apply (IH (k :: post))|].
    apply after_snoc. apply (after_prefix (pre ++ [k]) post); [reflexivity|].
    rewrite after_eq in Hverr.
    rewrite <- app_assoc. simpl. now rewrite <- Heq. }
  apply (H ks []). now rewrite app_nil_r.
Qed.

(** The entry of a vertex is not written after its visit. *)
Lemma after_stable pre p : forall post,
  glide.verr (after (pre ++ post)) = None ->
  p ∉ post ->
  glide.state (after (pre ++ post)) !! p = glide.state (after pre) !! p.
Proof.
  induction post as [|k post IH] using rev_ind; intros Hverr Hp.
  - now rewrite app_nil_r.
  - rewrite app_assoc in *. apply after_snoc in Hverr as [Hverr Hk].
    rewrite (visit_other _ _ _ p Hk) by set_solver.
    apply IH; [assumption|set_solver].
Qed.

(** The entries of the state map are the visited vertices. *)
Lemma after_dom ks :
  glide.verr (after ks) = None ->
  dom (glide.state (after ks)) = list_to_set ks.
Proof.
  intros Hverr.
  apply (after_ind (fun l st => dom (glide.state st) = list_to_set l) ks Hverr).
  - simpl. set_solver.
  - intros pre k post _ IH Hk. rewrite (visit_dom _ _ _ Hk), IH.
    rewrite list_to_set_app_L. set_solver.
Qed.

Lemma completed_pos (state : gmap string glide.State) (preds : list string) :
  (0 < glide.completed state preds)%nat ->
  exists p, p ∈ preds /\ state !! p = Some glide.Complete.
Proof.
  unfold glide.completed. intros Hpos.
  destruct (filter _ preds) as [|p l] eqn:Hf; [simpl in Hpos; lia|].
  assert (Hin : p ∈ filter (fun p => state !! p = Some glide.Complete) preds)
    by (rewrite Hf; set_solver).
  apply list_elem_of_filter in Hin as [Hc Hin]. eauto.
Qed.

(** A vertex other than the start that a visit leaves Active or
    Complete has a completed predecessor, or is a boolean And whose
    predecessors are all completed. *)
Lemma visit_active k st st' :
  visit k st = (st', false) -> k <> start ->
  glide.state st' !! k = Some glide.Active
  \/ glide.state st' !! k = Some glide.Complete ->
  let preds := graph.PredecessorMap (glide.G g) k in
  (0 < glide.completed (state0 k st) preds)%nat
  \/ glide.completed (state0 k st) preds = length preds.
Proof.
  intros Hv Hne Hk. apply visit_spec in Hv as (v & _ & _ & Hv). simpl in *.
  assert (H0 : state0 k st !! k = Some glide.Inactive).
  { rewrite state0_same. now case_decide. }
  destruct (step.body v) as [|expr|[|]|n|name a].
  - destruct Hv as [Hv _]. rewrite Hv, H0 in Hk. now destruct Hk.
  - destruct Hv as [_ [Hv|[Hcc Hv]]]; [|now left].
    rewrite Hv, H0 in Hk. now destruct Hk.
  - destruct Hv as [_ Hv]. destruct (_ =? _)%nat eqn:Hcc.
    + right. now apply Nat.eqb_eq.
    + rewrite Hv, H0 in Hk. now destruct Hk.
  - destruct Hv as [_ Hv]. destruct (_ <? _)%nat eqn:Hcc.
    + left. now apply Nat.ltb_lt.
    + rewrite Hv, H0 in Hk. now destruct Hk.
  - destruct Hv as [Hv _]. destruct (_ <? _)%nat eqn:Hcc.
    + left. now apply Nat.ltb_lt.
    + rewrite Hv, H0 in Hk. now destruct Hk.
  - destruct Hv as [_ [[_ Hv]|[Hcc _]]]; [|now left].
    rewrite Hv, H0 in Hk. now destruct Hk.
Qed.

(** *** Invariants of a run over the order of the traversal *)

Variable ks : list string.
Hypothesis ks_verr : glide.verr (after ks) = None.

Lemma ks_pre_verr pre post : ks = pre ++ post -> glide.verr (after pre) = None.
Proof.
  intros Heq. apply (after_prefix pre post); [reflexivity|].
  rewrite <- Heq. exact ks_verr.
Qed.

Hypothesis ks_NoDup : NoDup ks.

Lemma ks_fresh pre k post :
  ks = pre ++ k :: post -> glide.state (after pre) !! k = None.
Proof.
  intros Heq. apply not_elem_of_dom.
  rewrite after_dom by (eapply ks_pre_verr; eauto).
  pose proof ks_NoDup as Hnd. rewrite Heq in Hnd.
  apply NoDup_app in Hnd as (_ & Hnd & _). intros Hin.
  apply elem_of_list_to_set in Hin. apply (Hnd k Hin). set_solver.
Qed.

(** The state in which a vertex is visited is the final one for the
    vertices visited before it. *)
Lemma ks_finalized pre post p :
  ks = pre ++ post -> p ∈ pre ->
  glide.state (after ks) !! p = glide.state (after pre) !! p.
Proof.
  intros Heq Hp. rewrite Heq. apply after_stable; [now rewrite <- Heq|].
  pose proof ks_NoDup as Hnd. rewrite Heq in Hnd.
  apply NoDup_app in Hnd as (_ & Hnd & _). now apply Hnd.
Qed.

Lemma ks_final pre k post :
  ks = pre ++ k :: post ->
  glide.state (after ks) !! k = glide.state (after (pre ++ [k])) !! k.
Proof.
  intros Heq. apply (ks_finalized (pre ++ [k]) post).
  - now rewrite <- app_assoc.
  - set_solver.
Qed.

Hypothesis ks_ordered : graph.ordered (glide.G g) start [] ks.

(** A vertex other than the start is visited with a predecessor. *)
Lemma ks_predecessor pre k post :
  ks = pre ++ k :: post -> k <> start ->
  exists p, p ∈ pre /\ p ∈ graph.PredecessorMap (glide.G g) k.
Proof.
  intros Heq Hne. pose proof ks_ordered as Hord. rewrite Heq in Hord.
  apply ordered_before in Hord as [?|(p & Hp & Hpk)]; [done|].
  exists p. split; [assumption|]. now apply elem_of_PredecessorMap.
Qed.

(** Active and Complete vertices have a Complete predecessor. *)
Lemma ks_active v :
  glide.state (after ks) !! v = Some glide.Active
  \/ glide.state (after ks) !! v = Some glide.Complete ->
  v = start
  \/ exists p, p ∈ graph.PredecessorMap (glide.G g) v
       /\ glide.state (after ks) !! p = Some glide.Complete.
Proof.
  revert v.
  apply (after_ind (fun l st => forall v,
    glide.state st !! v = Some glide.Active
    \/ glide.state st !! v = Some glide.Complete ->
    v = start
    \/ exists p, p ∈ graph.PredecessorMap (glide.G g) v
         /\ glide.state st !! p = Some glide.Complete) ks ks_verr).
  - intros v [Hv|Hv]; simpl in Hv; now rewrite lookup_empty in Hv.
  - intros pre k post Heq IH Hk v Hv.
    pose proof (ks_fresh pre k post Heq) as Hfresh.
    destruct (decide (v = start)) as [|Hne]; [now left|]. right.
    destruct (decide (v = k)) as [->|Hvk].
    + assert (Hp : exists p, p ∈ graph.PredecessorMap (glide.G g) k
                    /\ state0 k (after pre) !! p = Some glide.Complete).
      { destruct (visit_active _ _ _ Hk Hne Hv) as [Hpos|Hall].
        - now apply completed_pos.
        - apply completed_pos. rewrite Hall.
          destruct (ks_predecessor pre k post Heq Hne) as (p & _ & Hp).
          destruct (graph.PredecessorMap (glide.G g) k); [inversion Hp|].
          simpl. lia. }
      destruct Hp as (p & Hp & Hc). exists p. split; [assumption|].
      assert (p <> k).
      { intros ->. rewrite state0_same in Hc. now case_decide. }
      rewrite (visit_other _ _ _ p Hk) by assumption.
      now rewrite state0_other in Hc.
    + rewrite (visit_other _ _ _ v Hk) in Hv by assumption.
      destruct (IH v Hv) as [?|(p & Hp & Hc)]; [done|].
      exists p. split; [assumption|].
      rewrite (visit_other _ _ _ p Hk); [assumption|]. congruence.
Qed.

(** The start vertex is a reference to a Start node, as [Execute]
    checks before the traversal. *)
Variables (startVertex : step.Step) (startNode : node.Node).
Hypothesis start_vertex : graph.vertices (glide.G g) !! start = Some startVertex.
Hypothesis start_ref : step.body startVertex = step.Ref startNode.
Hypothesis start_type : node.Type' startNode = node.Start.

(** The start vertex is Complete. *)
Lemma ks_start ks' :
  ks = start :: ks' -> glide.state (after ks) !! start = Some glide.Complete.
Proof.
  clear ks_ordered start_type.
  intros Heq. rewrite (ks_final [] start ks' Heq).
  pose proof (ks_pre_verr ([] ++ [start]) ks' Heq) as Hverr.
  apply (after_snoc [] start) in Hverr as [_ Hk].
  apply visit_spec in Hk as (v & Hv' & _ & Hv).
  rewrite start_vertex in Hv'. inversion Hv'; subst v.
  rewrite start_ref in Hv. cbv zeta in Hv.
  assert (H0 : state0 start (after []) !! start = Some glide.Complete).
  { rewrite state0_same. now case_decide. }
  destruct Hv as [-> _]. destruct (_ <? _)%nat; [apply lookup_insert_eq|exact H0].
Qed.

(** The running outcome is the zero node, or the node of a Complete
    Outcome vertex with a positive priority; no Complete Outcome
    vertex has a higher priority. *)
Lemma ks_outcome :
  (glide.outcome (after ks) = node.zero
   \/ exists k, k ∈ ks
        /\ glide.outcomeVertex g k (glide.outcome (after ks))
        /\ glide.state (after ks) !! k = Some glide.Complete
        /\ (0 < node.Priority (glide.outcome (after ks)))%Z)
  /\ (forall k n, glide.outcomeVertex g k n ->
        glide.state (after ks) !! k = Some glide.Complete ->
        (node.Priority n <= node.Priority (glide.outcome (after ks)))%Z).
Proof.
  clear ks_ordered.
  apply (after_ind (fun l st =>
    (glide.outcome st = node.zero
     \/ exists k, k ∈ l /\ glide.outcomeVertex g k (glide.outcome st)
          /\ glide.state st !! k = Some glide.Complete
          /\ (0 < node.Priority (glide.outcome st))%Z)
    /\ (forall k n, glide.outcomeVertex g k n ->
          glide.state st !! k = Some glide.Complete ->
          (node.Priority n <= node.Priority (glide.outcome st))%Z)) ks ks_verr).
  - split; [now left|]. intros k n _ Hk. simpl in Hk. now rewrite lookup_empty in Hk.
  - intros pre k post Heq [IH1 IH2] Hk.
    pose proof (ks_fresh pre k post Heq) as Hfresh.
    assert (Hnonneg : (0 <= node.Priority (glide.outcome (after pre)))%Z).
    { destruct IH1 as [->|(k0 & _ & _ & _ & Hpos)]; simpl; lia. }
    assert (Hold : forall k0, glide.state (after pre) !! k0 = Some glide.Complete ->
              glide.state (after (pre ++ [k])) !! k0 = Some glide.Complete).
    { intros k0 Hc. rewrite (visit_other _ _ _ k0 Hk); [assumption|]. congruence. }
    pose proof Hk as Hspec.
    apply visit_spec in Hspec as (v & Hv & _ & Hspec). simpl in Hspec.
    assert (Hkeep : glide.outcome (after (pre ++ [k])) = glide.outcome (after pre) ->
              (forall n, glide.outcomeVertex g k n ->
                 glide.state (after (pre ++ [k])) !! k = Some glide.Complete ->
                 (node.Priority n <= node.Priority (glide.outcome (after pre)))%Z) ->
              (glide.outcome (after (pre ++ [k])) = node.zero
               \/ exists k0, k0 ∈ pre ++ [k]
                    /\ glide.outcomeVertex g k0 (glide.outcome (after (pre ++ [k])))
                    /\ glide.state (after (pre ++ [k])) !! k0 = Some glide.Complete
                    /\ (0 < node.Priority (glide.outcome (after (pre ++ [k]))))%Z)
              /\ (forall k0 n, glide.outcomeVertex g k0 n ->
                    glide.state (after (pre ++ [k])) !! k0 = Some glide.Complete ->
                    (node.Priority n
                     <= node.Priority (glide.outcome (after (pre ++ [k]))))%Z)).
    { intros Ho Hnew. rewrite Ho. split.
      - destruct IH1 as [?|(k0 & Hin & Hov & Hc & Hpos)]; [now left|right].
        exists k0. repeat split; auto. set_solver.
      - intros k0 n Hov Hc. destruct (decide (k0 = k)) as [->|Hne]; [now apply Hnew|].
        apply (IH2 k0 n Hov). now rewrite (visit_other _ _ _ k0 Hk) in Hc. }
    assert (Hnot : (forall n, step.body v <> step.Ref n) ->
              forall n, glide.outcomeVertex g k n ->
                glide.state (after (pre ++ [k])) !! k = Some glide.Complete ->
                (node.Priority n <= node.Priority (glide.outcome (after pre)))%Z).
    { intros Hb n (v' & Hv' & Hb' & _). rewrite Hv in Hv'. inversion Hv'; subst v'.
      now destruct (Hb n). }
    destruct (step.body v) as [|expr|[|]|n|name a] eqn:Hbody.
    + destruct Hspec as [_ Ho]. apply Hkeep; [assumption|]. now apply Hnot.
    + destruct Hspec as [Ho _]. apply Hkeep; [assumption|]. now apply Hnot.
    + destruct Hspec as [Ho _]. apply Hkeep; [assumption|]. now apply Hnot.
    + destruct Hspec as [Ho _]. apply Hkeep; [assumption|]. now apply Hnot.
    + destruct Hspec as [Hs Ho].
      assert (Hsame : forall n', glide.outcomeVertex g k n' ->
                n' = n /\ node.Type' n = node.Outcome).
      { intros n' (v' & Hv' & Hb' & Ht). rewrite Hv in Hv'. inversion Hv'; subst v'.
        rewrite Hbody in Hb'. inversion Hb'; subst n'. auto. }
      assert (Hcc : forall n', glide.outcomeVertex g k n' ->
                glide.state (after (pre ++ [k])) !! k = Some glide.Complete ->
                (0 <? glide.completed (state0 k (after pre))
                        (graph.PredecessorMap (glide.G g) k))%nat = true).
      { intros n' Hov Hc. destruct (_ <? _)%nat; [reflexivity|].
        rewrite Hs, state0_same in Hc. case_decide as Hst; [|discriminate].
        subst k. apply Hsame in Hov as [_ Ht].
        rewrite start_vertex in Hv. inversion Hv; subst v.
        rewrite start_ref in Hbody. inversion Hbody; subst n. congruence. }
      destruct ((0 <? _)%nat && node.Type_eqb (node.Type' n) node.Outcome
                && (node.Priority (glide.outcome (after pre)) <? node.Priority n)%Z)
        eqn:Hcond.
      * apply andb_prop in Hcond as [Hcond Hlt].
        apply andb_prop in Hcond as [Hpos Htype].
        apply Z.ltb_lt in Hlt. rewrite Ho. split.
        -- right. exists k. repeat split; [set_solver| |rewrite Hs, Hpos; apply lookup_insert_eq|lia].
           exists v. repeat split; auto. now destruct (node.Type' n).
        -- intros k0 n0 Hov Hc. destruct (decide (k0 = k)) as [->|Hne].
           ++ apply Hsame in Hov as [-> _]. lia.
           ++ rewrite (visit_other _ _ _ k0 Hk) in Hc by assumption.
              specialize (IH2 k0 n0 Hov Hc). lia.
      * apply Hkeep; [assumption|]. intros n' Hov Hc.
        rewrite (Hcc n' Hov Hc) in Hcond. apply Hsame in Hov as [-> Ht].
        rewrite Ht in Hcond. simpl in Hcond. apply Z.ltb_ge in Hcond. lia.
    + destruct Hspec as [Ho _]. apply Hkeep; [assumption|]. now apply Hnot.
Qed.
End visit_facts.

(** ** Executions *)

(** [Execute] returns: the traversal does not run out of fuel. *)
Lemma Execute_returns (g : glide.Graph) (start : string) (input : list (string * any)) :
  is_Some (glide.Execute g start input).
Proof.
  unfold glide.Execute, graph.Vertex.
  destruct (graph.vertices (glide.G g) !! start) as [sv|] eqn:Hsv; [|now eexists].
  destruct (step.body sv); try (now eexists).
  destruct (negb _); [now eexists|].
  destruct (BFS_visits (glide.G g) start
              (glide.visit g start input (glide.NewInputMap "input" input))
              (glide.mkExec ∅ (graph.New step.Hash) node.zero None) sv Hsv)
    as (ks & _ & ->).
  destruct (glide.verr _); now eexists.
Qed.

(** An execution that returns a result is a run of the visitor over the
    order of the traversal that ends without an error. *)
Lemma Execute_inv (g : glide.Graph) (start : string) (input : list (string * any))
      (res : glide.Result) :
  glide.Execute g start input = Some (inr res) ->
  exists ks sv sn,
    graph.order (glide.G g) start = Some ks
    /\ graph.vertices (glide.G g) !! start = Some sv
    /\ step.body sv = step.Ref sn
    /\ node.Type' sn = node.Start
    /\ glide.verr (glide.after g start input ks) = None
    /\ glide.State_ res = glide.state (glide.after g start input ks)
    /\ glide.Outcome res = node.ID (glide.outcome (glide.after g start input ks)).
Proof.
  unfold glide.Execute, graph.Vertex.
  destruct (graph.vertices (glide.G g) !! start) as [sv|] eqn:Hsv; [|discriminate].
  destruct (step.body sv) as [| | |sn|] eqn:Hbody; try discriminate.
  destruct (negb _) eqn:Htype; [discriminate|].
  destruct (BFS_visits (glide.G g) start
              (glide.visit g start input (glide.NewInputMap "input" input))
              (glide.mkExec ∅ (graph.New step.Hash) node.zero None) sv Hsv)
    as (ks & Hks & ->).
  fold glide.initial. fold (glide.after g start input ks).
  destruct (glide.verr (glide.after g start input ks)) eqn:Hverr; [discriminate|].
  intros Heq. inversion Heq; subst res. simpl.
  exists ks, sv, sn. repeat split; auto.
  apply negb_false_iff in Htype. now destruct (node.Type' sn).
Qed.

Lemma completed_ext (s1 s2 : gmap string glide.State) (preds : list string) :
  (forall p, p ∈ preds ->
     (s1 !! p = Some glide.Complete <-> s2 !! p = Some glide.Complete)) ->
  glide.completed s1 preds = glide.completed s2 preds.
Proof.
  unfold glide.completed. induction preds as [|p ps IH]; intros Hext; [reflexivity|].
  assert (Hps : forall q, q ∈ ps ->
            (s1 !! q = Some glide.Complete <-> s2 !! q = Some glide.Complete))
    by (intros q Hq; apply Hext; set_solver).
  specialize (IH Hps). specialize (Hext p ltac:(set_solver)).
  destruct (decide (s1 !! p = Some glide.Complete)) as [H1|H1].
  - rewrite !filter_cons_True by tauto. simpl. now rewrite IH.
  - rewrite !filter_cons_False by tauto. exact IH.
Qed.

(** C10: the state map of a result has an entry exactly for the vertices
    that a directed path reaches from the start vertex. *)
Theorem State_domain_reachable (g : glide.Graph) (start : string)
        (input : list (string * any)) (res : glide.Result) :
  glide.Execute g start input = Some (inr res) ->
  forall k, k ∈ dom (glide.State_ res) <-> graph.reachable (glide.G g) start k.
Proof.
  intros Hex k.
  apply Execute_inv in Hex as (ks & sv & sn & Hks & _ & _ & _ & Hverr & -> & _).
  rewrite (after_dom g start input ks Hverr), elem_of_list_to_set.
  now apply order_spec.
Qed.

(** C6: the start vertex is Complete, and every other vertex that is
    Active or Complete has a predecessor that is Complete. *)
Theorem active_has_complete_predecessor (g : glide.Graph) (start : string)
        (input : list (string * any)) (res : glide.Result) :
  glide.Execute g start input = Some (inr res) ->
  glide.State_ res !! start = Some glide.Complete
  /\ forall v,
       glide.State_ res !! v = Some glide.Active
       \/ glide.State_ res !! v = Some glide.Complete ->
       v <> start ->
       exists p, p ∈ graph.PredecessorMap (glide.G g) v
         /\ glide.State_ res !! p = Some glide.Complete.
Proof.
  intros Hex.
  apply Execute_inv in Hex as (ks & sv & sn & Hks & Hsv & Hsn & Ht & Hverr & -> & _).
  apply order_spec in Hks as ((ks' & Hhd) & Hnd & _ & Hord). split.
  - eapply ks_start; eauto.
  - intros v Hv Hne.
    destruct (ks_active g start input ks Hverr Hnd Hord v Hv) as [?|Hp]; [done|].
    exact Hp.
Qed.

(** C5: a result with an outcome names a Complete Outcome vertex, and no
    Complete Outcome vertex has a higher priority than this one. *)
Theorem Outcome_has_maximal_priority (g : glide.Graph) (start : string)
        (input : list (string * any)) (res : glide.Result) :
  glide.Execute g start input = Some (inr res) ->
  glide.Outcome res <> "" ->
  exists k n,
    glide.State_ res !! k = Some glide.Complete
    /\ glide.outcomeVertex g k n
    /\ node.ID n = glide.Outcome res
    /\ forall k' n',
         glide.outcomeVertex g k' n' ->
         glide.State_ res !! k' = Some glide.Complete ->
         (node.Priority n' <= node.Priority n)%Z.
Proof.
  intros Hex Hout.
  apply Execute_inv in Hex as (ks & sv & sn & Hks & Hsv & Hsn & Ht & Hverr & -> & Ho).
  apply order_spec in Hks as (_ & Hnd & _ & Hord).
  destruct (ks_outcome g start input ks Hverr Hnd sv sn Hsv Hsn Ht) as [H1 H2].
  destruct H1 as [Hz|(k & _ & Hov & Hc & _)].
  - rewrite Ho, Hz in Hout. now destruct Hout.
  - exists k, (glide.outcome (glide.after g start input ks)).
    repeat split; auto.
Qed.

(** C9: the outcome of a result is the node of a Complete Outcome vertex
    with a priority above 0; when no Complete Outcome vertex has a
    priority above 0, the result has no outcome. *)
Theorem Outcome_needs_positive_priority (g : glide.Graph) (start : string)
        (input : list (string * any)) (res : glide.Result) :
  glide.Execute g start input = Some (inr res) ->
  (glide.Outcome res <> "" ->
   exists k n,
     glide.State_ res !! k = Some glide.Complete
     /\ glide.outcomeVertex g k n
     /\ node.ID n = glide.Outcome res
     /\ (0 < node.Priority n)%Z)
  /\ ((forall k n, glide.outcomeVertex g k n ->
         glide.State_ res !! k = Some glide.Complete ->
         (node.Priority n <= 0)%Z) ->
      glide.Outcome res = "").
Proof.
  intros Hex.
  apply Execute_inv in Hex as (ks & sv & sn & Hks & Hsv & Hsn & Ht & Hverr & -> & Ho).
  apply order_spec in Hks as (_ & Hnd & _ & Hord).
  destruct (ks_outcome g start input ks Hverr Hnd sv sn Hsv Hsn Ht) as [H1 _].
  split.
  - intros Hout. destruct H1 as [Hz|(k & _ & Hov & Hc & Hpos)].
    + rewrite Ho, Hz in Hout. now destruct Hout.
    + exists k, (glide.outcome (glide.after g start input ks)). repeat split; auto.
  - intros Hall. destruct H1 as [Hz|(k & _ & Hov & Hc & Hpos)].
    + now rewrite Ho, Hz.
    + specialize (Hall k _ Hov Hc). lia.
Qed.

(** C3: a visited vertex whose body is a boolean And is Complete exactly
    when the number of its predecessors that are Complete when it is
    visited is the number of all its predecessors, and it has a
    predecessor; a boolean And without a predecessor is not visited and
    has no entry. *)
Theorem And_complete_iff (g : glide.Graph) (start : string)
        (input : list (string * any)) (res : glide.Result)
        (k : string) (v : step.Step) :
  glide.Execute g start input = Some (inr res) ->
  graph.vertices (glide.G g) !! k = Some v ->
  step.body v = step.Boolean step.And ->
  (forall ks pre post,
      graph.order (glide.G g) start = Some ks ->
      ks = pre ++ k :: post ->
      let predecessors := graph.PredecessorMap (glide.G g) k in
      let completedCount :=
        glide.completed (glide.state (glide.after g start input pre)) predecessors in
      glide.State_ res !! k = Some glide.Complete
      <-> completedCount = length predecessors /\ (0 < length predecessors)%nat)
  /\ (graph.PredecessorMap (glide.G g) k = [] -> glide.State_ res !! k = None).
Proof.
  intros Hex Hv Hbody.
  apply Execute_inv in Hex as (ks0 & sv & sn & Hks & Hsv & Hsn & Ht & Hverr & -> & _).
  assert (Hne : k <> start).
  { intros ->. rewrite Hsv in Hv. inversion Hv; subst. congruence. }
  pose proof (order_spec _ _ _ Hks) as (_ & Hnd & _ & Hord). split.
  - intros ks pre post Hks' Heq predecessors completedCount.
    rewrite Hks in Hks'. inversion Hks'; subst ks0. clear Hks'.
    rewrite (ks_final g start input ks Hverr Hnd pre k post Heq).
    pose proof (ks_pre_verr g start input ks Hverr (pre ++ [k]) post) as Hpre.
    rewrite <- app_assoc in Hpre. specialize (Hpre Heq).
    apply after_snoc in Hpre as [_ Hk].
    apply visit_spec in Hk as (v' & Hv' & _ & Hspec).
    rewrite Hv in Hv'. inversion Hv'; subst v'. rewrite Hbody in Hspec.
    cbv zeta in Hspec. destruct Hspec as [_ Hs].
    pose proof (ks_fresh g start input ks Hverr Hnd pre k post Heq) as Hfresh.
    assert (Hcc : glide.completed
                    (if decide (k = start)
                     then <[k := glide.Complete]>
                            (<[k := glide.Inactive]> (glide.state (glide.after g start input pre)))
                     else <[k := glide.Inactive]> (glide.state (glide.after g start input pre)))
                    predecessors = completedCount).
    { apply completed_ext. intros p _. case_decide; [done|].
      destruct (decide (p = k)) as [->|Hpk].
      - rewrite lookup_insert_eq, Hfresh. split; discriminate.
      - now rewrite lookup_insert_ne. }
    fold predecessors in Hs. rewrite Hcc in Hs. rewrite Hs.
    destruct (ks_predecessor g start ks Hord pre k post Heq Hne) as (p & _ & Hp).
    fold predecessors in Hp.
    assert (Hlen : (0 < length predecessors)%nat).
    { destruct predecessors; [inversion Hp|simpl; lia]. }
    destruct (completedCount =? length predecessors)%nat eqn:Hc.
    + apply Nat.eqb_eq in Hc. rewrite lookup_insert_eq. tauto.
    + apply Nat.eqb_neq in Hc. case_decide; [done|].
      rewrite lookup_insert_eq. split; [discriminate|tauto].
  - intros Hnil. apply not_elem_of_dom.
    rewrite (after_dom g start input ks0 Hverr), elem_of_list_to_set.
    intros Hin. apply list_elem_of_split in Hin as (pre & post & Heq).
    destruct (ks_predecessor g start ks0 Hord pre k post Heq Hne) as (p & _ & Hp).
    rewrite Hnil in Hp. inversion Hp.
Qed.

(** What the traversal does give: a vertex other than the start is
    visited after one of its predecessors; the entries of the vertices
    visited before it are final, and the vertices visited after it, its
    other predecessors among them, have no entry yet. *)
Lemma visited_after_a_predecessor (g : glide.Graph) (start : string)
        (input : list (string * any)) (res : glide.Result)
        (ks pre post : list string) (k : string) :
  glide.Execute g start input = Some (inr res) ->
  graph.order (glide.G g) start = Some ks ->
  ks = pre ++ k :: post ->
  k <> start ->
  (exists p, p ∈ pre /\ graph.edge (glide.G g) p k)
  /\ (forall p, p ∈ pre ->
        glide.State_ res !! p = glide.state (glide.after g start input pre) !! p)
  /\ (forall p, p ∈ k :: post ->
        glide.state (glide.after g start input pre) !! p = None).
Proof.
  intros Hex Hks Heq Hne.
  apply Execute_inv in Hex as (ks0 & sv & sn & Hks0 & _ & _ & _ & Hverr & -> & _).
  rewrite Hks in Hks0. inversion Hks0; subst ks0. clear Hks0.
  pose proof (order_spec _ _ _ Hks) as (_ & Hnd & _ & Hord). split; [|split].
  - destruct (ks_predecessor g start ks Hord pre k post Heq Hne) as (p & Hp & He).
    exists p. split; [assumption|]. now apply elem_of_PredecessorMap.
  - intros p Hp. now apply (ks_finalized g start input ks Hverr Hnd pre (k :: post)).
  - intros p Hp. apply not_elem_of_dom.
    rewrite (after_dom g start input pre)
      by (eapply ks_pre_verr; eauto).
    rewrite elem_of_list_to_set. intros Hin.
    rewrite Heq in Hnd. apply NoDup_app in Hnd as (_ & Hnd & _). now apply (Hnd p).
Qed.

(** ** The theorems on concrete executions *)

Lemma State_domain_reachable_witness :
  let g := examples.graphOf (examples.compile examples.twoStarts) in
  let res := examples.resultOf g "request" [] in
  ("approved" ∈ dom (glide.State_ res)
   <-> graph.reachable (glide.G g) "request" "approved")
  /\ ("renewal" ∈ dom (glide.State_ res)
      <-> graph.reachable (glide.G g) "request" "renewal").
Proof.
  intros g res.
  split; apply (State_domain_reachable g "request" [] res); vm_compute; reflexivity.
Defined.

(** In this execution the second start and the check after it, which no
    path reaches from the first start, have no entry. *)
Example unreachable_vertices_have_no_entry :
  let g := examples.graphOf (examples.compile examples.twoStarts) in
  let res := examples.resultOf g "request" [] in
  is_Some (graph.vertices (glide.G g) !! "renewal")
  /\ is_Some (graph.vertices (glide.G g) !! "second.1")
  /\ glide.State_ res !! "renewal" = None
  /\ glide.State_ res !! "second.1" = None
  /\ elements (dom (glide.State_ res)) = ["approved"; "first.1"; "request"].
Proof.
  repeat split; try (vm_compute; reflexivity); vm_compute; eexists; reflexivity.
Qed.

Lemma active_has_complete_predecessor_witness :
  let g := examples.graphOf (examples.compile examples.simplePass) in
  let res := examples.resultOf g "request" [] in
  glide.State_ res !! "request" = Some glide.Complete
  /\ forall v,
       glide.State_ res !! v = Some glide.Active
       \/ glide.State_ res !! v = Some glide.Complete ->
       v <> "request" ->
       exists p, p ∈ graph.PredecessorMap (glide.G g) v
         /\ glide.State_ res !! p = Some glide.Complete.
Proof.
  intros g res.
  apply (active_has_complete_predecessor g "request" [] res).
  vm_compute. reflexivity.
Defined.

Lemma Outcome_has_maximal_priority_witness :
  let g := examples.graphOf (examples.compile examples.twoOutcomes) in
  let res := examples.resultOf g "request" [] in
  glide.Outcome res = "escalated"
  /\ exists k n,
      glide.State_ res !! k = Some glide.Complete
      /\ glide.outcomeVertex g k n
      /\ node.ID n = glide.Outcome res
      /\ forall k' n',
           glide.outcomeVertex g k' n' ->
           glide.State_ res !! k' = Some glide.Complete ->
           (node.Priority n' <= node.Priority n)%Z.
Proof.
  intros g res. split; [vm_compute; reflexivity|].
  apply (Outcome_has_maximal_priority g "request" [] res).
  - vm_compute. reflexivity.
  - intros H. vm_compute in H. discriminate H.
Defined.

Lemma Outcome_needs_positive_priority_witness :
  let g := examples.graphOf (examples.compile examples.unvalidated) in
  let res := examples.resultOf g "request" [] in
  (glide.State_ res !! "approved" = Some glide.Complete
   /\ glide.outcomeVertex g "approved" (node.mkNode node.Outcome "approved" "" 0)
   /\ glide.Outcome res = "")
  /\ (glide.Outcome res <> "" ->
      exists k n,
        glide.State_ res !! k = Some glide.Complete
        /\ glide.outcomeVertex g k n
        /\ node.ID n = glide.Outcome res
        /\ (0 < node.Priority n)%Z)
  /\ ((forall k n, glide.outcomeVertex g k n ->
         glide.State_ res !! k = Some glide.Complete ->
         (node.Priority n <= 0)%Z) ->
      glide.Outcome res = "").
Proof.
  intros g res. split.
  - split; [vm_compute; reflexivity|]. split; [|vm_compute; reflexivity].
    eexists. split; [vm_compute; reflexivity|]. split; reflexivity.
  - apply (Outcome_needs_positive_priority g "request" [] res).
    vm_compute. reflexivity.
Defined.

Lemma And_complete_iff_witness :
  let g := examples.graphOf (examples.compile examples.andOneFalse) in
  let res := examples.resultOf g "request" [] in
  let predecessors := graph.PredecessorMap (glide.G g) "default.1" in
  let completedCount :=
    glide.completed
      (glide.state (glide.after g "request" [] ["request"; "default.1.0"; "default.1.1"]))
      predecessors in
  predecessors = ["default.1.0"; "default.1.1"]
  /\ completedCount = 1%nat
  /\ (glide.State_ res !! "default.1" = Some glide.Complete
      <-> completedCount = length predecessors /\ (0 < length predecessors)%nat).
Proof.
  intros g res predecessors completedCount.
  split; [vm_compute; reflexivity|]. split; [vm_compute; reflexivity|].
  assert (Hex : glide.Execute g "request" [] = Some (inr res))
    by (vm_compute; reflexivity).
  eassert (Hv : graph.vertices (glide.G g) !! "default.1" = Some _)
    by (vm_compute; reflexivity).
  apply (proj1 (And_complete_iff g "request" [] res "default.1" _ Hex Hv eq_refl)
           ["request"; "default.1.0"; "default.1.1"; "default.1"; "approved"]
           ["request"; "default.1.0"; "default.1.1"] ["approved"]).
  - vm_compute. reflexivity.
  - reflexivity.
Defined.

Lemma visited_after_a_predecessor_witness :
  let g := examples.graphOf (examples.compile examples.nestedBoolean) in
  let res := examples.resultOf g "request" [] in
  let pre := ["request"; "default.1.0"; "default.1.1.0.0"] in
  let post := ["default.1.1.0"; "approved"; "default.1.1"] in
  (exists p, p ∈ pre /\ graph.edge (glide.G g) p "default.1")
  /\ (forall p, p ∈ pre ->
        glide.State_ res !! p = glide.state (glide.after g "request" [] pre) !! p)
  /\ (forall p, p ∈ "default.1" :: post ->
        glide.state (glide.after g "request" [] pre) !! p = None).
Proof.
  intros g res pre post.
  apply (visited_after_a_predecessor g "request" [] res
           (pre ++ "default.1" :: post) pre post "default.1").
  - vm_compute. reflexivity.
  - vm_compute. reflexivity.
  - reflexivity.
  - discriminate.
Defined.

(** On the graph of [nestedBoolean] the traversal does not visit every
    vertex after its predecessors: the boolean And [default.1] is in the
    second layer of the traversal, and its predecessor, the nested
    boolean [default.1.1], is in the third. *)
Lemma nested_boolean_visited_before_predecessor :
  ~ glide.visitedAfterPredecessors
      (examples.graphOf (examples.compile examples.nestedBoolean)) "request".
Proof.
  intros H.
  destruct (H ["request"; "default.1.0"; "default.1.1.0.0"; "default.1";
               "default.1.1.0"; "approved"; "default.1.1"]
              ltac:(vm_compute; reflexivity)
              "default.1" "default.1.1")
    as (pre & post & Heq & Hp).
  - apply list_elem_of_In. simpl. tauto.
  - unfold graph.edge. apply list_elem_of_In. vm_compute. tauto.
  - do 7 (destruct pre as [|x pre]; simpl in Heq;
          [ try discriminate Heq;
            repeat (apply elem_of_cons in Hp as [Hp|Hp]; [discriminate Hp|]);
            inversion Hp
          | injection Heq as <- Heq ]).
    destruct pre; discriminate Heq.
Qed.

(** C4, on the code: the traversal is breadth first and does not wait
    for the predecessors of a vertex.  On the graph of [nestedBoolean]
    the boolean And [default.1] is visited before its predecessor, the
    nested boolean [default.1.1]: all checks are true and both
    predecessors of the And are Complete in the result, but the And,
    which was visited when the nested boolean had no entry, is Inactive,
    and the result has no outcome.  On the graph of [unevenAnd] the result
    depends on the order in which the edges are iterated: with the same
    vertices and the same edges, one order gives no outcome and the other
    one the outcome [approved]. *)
Theorem And_visited_before_its_predecessor :
  let g := examples.graphOf (examples.compile examples.nestedBoolean) in
  let res := examples.resultOf g "request" [] in
  let h := examples.graphOf (examples.compile examples.unevenAnd) in
  examples.compile examples.nestedBoolean = inr g
  /\ glide.Execute g "request" [] = Some (inr res)
  /\ graph.order (glide.G g) "request"
     = Some ["request"; "default.1.0"; "default.1.1.0.0"; "default.1";
             "default.1.1.0"; "approved"; "default.1.1"]
  /\ graph.PredecessorMap (glide.G g) "default.1" = ["default.1.0"; "default.1.1"]
  /\ glide.State_ res !! "default.1.0" = Some glide.Complete
  /\ glide.State_ res !! "default.1.1" = Some glide.Complete
  /\ glide.State_ res !! "default.1" = Some glide.Inactive
  /\ glide.State_ res !! "approved" = Some glide.Inactive
  /\ glide.Outcome res = ""
  /\ examples.compile examples.unevenAnd = inr h
  /\ graph.vertices (glide.G (examples.reordered h)) = graph.vertices (glide.G h)
  /\ graph.edges (glide.G (examples.reordered h)) ≡ₚ graph.edges (glide.G h)
  /\ glide.Execute h "request" [] = Some (inr (examples.resultOf h "request" []))
  /\ glide.Outcome (examples.resultOf h "request" []) = ""
  /\ glide.Execute (examples.reordered h) "request" []
     = Some (inr (examples.resultOf (examples.reordered h) "request" []))
  /\ glide.Outcome (examples.resultOf (examples.reordered h) "request" []) = "approved".
Proof.
  intros g res h.
  do 10 (split; [vm_compute; reflexivity|]).
  split; [reflexivity|]. split; [apply reverse_Permutation|].
  repeat split; vm_compute; reflexivity.
Qed.

(** * Further properties of the code *)

(** ** Dialects *)

Lemma Validate_loop_None (ns : list (string * node.Node)) : forall seen : gset Z,
  NoDup (ns.*1) ->
  dialect.Validate_loop ns seen = None
  <-> (forall k n, (k, n) ∈ ns -> node.Type' n = node.Outcome ->
         0 < node.Priority n /\ node.Priority n ∉ seen)
      /\ (forall k1 k2 n1 n2, (k1, n1) ∈ ns -> (k2, n2) ∈ ns ->
            node.Type' n1 = node.Outcome -> node.Type' n2 = node.Outcome ->
            node.Priority n1 = node.Priority n2 -> k1 = k2).
Proof.
  induction ns as [|[k n] ns IH]; intros seen Hnd.
  - simpl. split; [|reflexivity]. intros _. split.
    + intros k n Hin. inversion Hin.
    + intros k1 k2 n1 n2 Hin. inversion Hin.
  - rewrite fmap_cons in Hnd. apply NoDup_cons in Hnd as [Hk Hnd]. simpl in Hk.
    assert (Hkey : forall n', (k, n') ∈ ns -> False).
    { intros n' Hin. apply Hk. apply list_elem_of_fmap. now exists (k, n'). }
    simpl. destruct (node.Type_eqb (node.Type' n) node.Outcome) eqn:Ht.
    + assert (Hout : node.Type' n = node.Outcome) by (now destruct (node.Type' n)).
      destruct (node.Priority n <=? 0)%Z eqn:Hle.
      { apply Z.leb_le in Hle. split; [discriminate|].
        intros [H _]. destruct (H k n) as [Hpos _]; [set_solver|assumption|lia]. }
      apply Z.leb_gt in Hle. case_decide as Hseen.
      { split; [discriminate|].
        intros [H _]. destruct (H k n) as [_ Hn]; [set_solver|assumption|done]. }
      rewrite (IH _ Hnd). split.
      * intros [H1 H2]. split.
        -- intros k' n' Hin Ht'. apply elem_of_cons in Hin as [Heq|Hin].
           ++ inversion Heq; subst. split; [lia|assumption].
           ++ destruct (H1 k' n' Hin Ht') as [Hpos Hn]. split; [assumption|set_solver].
        -- intros k1 k2 n1 n2 Hin1 Hin2 Ht1 Ht2 Hp.
           apply elem_of_cons in Hin1 as [Heq1|Hin1];
             apply elem_of_cons in Hin2 as [Heq2|Hin2].
           ++ congruence.
           ++ inversion Heq1; subst. destruct (H1 k2 n2 Hin2 Ht2) as [_ Hn]. set_solver.
           ++ inversion Heq2; subst. destruct (H1 k1 n1 Hin1 Ht1) as [_ Hn]. set_solver.
           ++ eapply H2; eauto.
      * intros [H1 H2]. split.
        -- intros k' n' Hin Ht'. destruct (H1 k' n') as [Hpos Hn]; [set_solver|assumption|].
           split; [assumption|]. intros Hin'. apply elem_of_union in Hin' as [Hin'|Hin']; [|done].
           apply elem_of_singleton in Hin'.
           assert (k' = k) by (apply (H2 k' k n' n); [set_solver|set_solver|assumption..]).
           subst k'. now apply (Hkey n').
        -- intros k1 k2 n1 n2 Hin1 Hin2. apply (H2 k1 k2 n1 n2); set_solver.
    + assert (Hout : node.Type' n <> node.Outcome).
      { intros Heq. rewrite Heq in Ht. discriminate Ht. }
      rewrite (IH _ Hnd). split.
      * intros [H1 H2]. split.
        -- intros k' n' Hin Ht'. apply elem_of_cons in Hin as [Heq|Hin]; [|eauto].
           inversion Heq; subst. done.
        -- intros k1 k2 n1 n2 Hin1 Hin2 Ht1 Ht2 Hp.
           apply elem_of_cons in Hin1 as [Heq1|Hin1]; [inversion Heq1; subst; done|].
           apply elem_of_cons in Hin2 as [Heq2|Hin2]; [inversion Heq2; subst; done|].
           eapply H2; eauto.
      * intros [H1 H2]. split.
        -- intros k' n' Hin. apply (H1 k' n'). set_solver.
        -- intros k1 k2 n1 n2 Hin1 Hin2. apply (H2 k1 k2 n1 n2); set_solver.
Qed.

(** The nodes of a dialect in an iteration order of the map. *)
Lemma iteration_order (d : dialect.Dialect) (ns : list (string * node.Node)) :
  ns ≡ₚ map_to_list (dialect.Nodes d) ->
  NoDup (ns.*1) /\ forall k n, (k, n) ∈ ns <-> dialect.Nodes d !! k = Some n.
Proof.
  intros Hperm. split.
  - rewrite Hperm. apply NoDup_fst_map_to_list.
  - intros k n. rewrite Hperm. apply elem_of_map_to_list.
Qed.

(** X1: in whatever order the nodes of the dialect are visited,
    [Validate] accepts the dialect exactly when every Outcome node has a
    priority above 0 and no two Outcome nodes have the same priority. *)
Theorem Validate_accepts_iff (d : dialect.Dialect) (ns : list (string * node.Node)) :
  ns ≡ₚ map_to_list (dialect.Nodes d) ->
  dialect.Validate_loop ns ∅ = None
  <-> (forall k n, dialect.Nodes d !! k = Some n ->
         node.Type' n = node.Outcome -> 0 < node.Priority n)
      /\ (forall k1 k2 n1 n2,
            dialect.Nodes d !! k1 = Some n1 -> dialect.Nodes d !! k2 = Some n2 ->
            node.Type' n1 = node.Outcome -> node.Type' n2 = node.Outcome ->
            node.Priority n1 = node.Priority n2 -> k1 = k2).
Proof.
  intros Hperm. apply iteration_order in Hperm as [Hnd Hin].
  rewrite (Validate_loop_None ns ∅ Hnd). split.
  - intros [H1 H2]. split.
    + intros k n Hk Ht. apply (H1 k n); [now apply Hin|assumption].
    + intros k1 k2 n1 n2 Hk1 Hk2. apply (H2 k1 k2 n1 n2); now apply Hin.
  - intros [H1 H2]. split.
    + intros k n Hk Ht. split; [|set_solver]. apply (H1 k n); [now apply Hin|assumption].
    + intros k1 k2 n1 n2 Hk1 Hk2. apply (H2 k1 k2 n1 n2); now apply Hin.
Qed.

Lemma Validate_accepts_iff_witness :
  dialect.Validate examples.cfDialect = None
  <-> (forall k n, dialect.Nodes examples.cfDialect !! k = Some n ->
         node.Type' n = node.Outcome -> 0 < node.Priority n)
      /\ (forall k1 k2 n1 n2,
            dialect.Nodes examples.cfDialect !! k1 = Some n1 ->
            dialect.Nodes examples.cfDialect !! k2 = Some n2 ->
            node.Type' n1 = node.Outcome -> node.Type' n2 = node.Outcome ->
            node.Priority n1 = node.Priority n2 -> k1 = k2).
Proof.
  apply (Validate_accepts_iff examples.cfDialect
           (map_to_list (dialect.Nodes examples.cfDialect))).
  reflexivity.
Defined.

(** On a map that is allocated, the loop of [Start] and of [End] does
    not panic; it leaves the other names as they are, and gives each
    name, when no name is repeated, the priority of its index. *)
Lemma setNodes_Some (t : node.Type_) (names : list string) :
  forall (i : Z) (m : gmap string node.Node),
    exists m', dialect.setNodes t names i (Some m) = inr (Some m')
      /\ (forall k, k ∉ names -> m' !! k = m !! k)
      /\ forall (j : nat) (n : string), NoDup names -> names !! j = Some n ->
           m' !! n = Some (node.mkNode t "" "" (i + Z.of_nat j)).
Proof.
  induction names as [|n0 names IH]; intros i m.
  - exists m. split; [reflexivity|]. split; [auto|].
    intros j n _ Hj. now rewrite lookup_nil in Hj.
  - destruct (IH (i + 1) (<[n0 := node.mkNode t "" "" i]> m)) as (m' & Heq & Hout & Hin).
    exists m'. split; [exact Heq|]. split.
    + intros k Hk. rewrite Hout by set_solver. apply lookup_insert_ne. set_solver.
    + intros j n Hnd Hj. apply NoDup_cons in Hnd as [Hn0 Hnd].
      destruct j as [|j]; simpl in Hj.
      * inversion Hj; subst n0. rewrite Hout by assumption.
        rewrite lookup_insert_eq. do 2 f_equal. lia.
      * rewrite (Hin j n Hnd Hj). do 2 f_equal. lia.
Qed.

(** X2: on a dialect whose map of nodes is nil, [End] with a name
    panics.  On any other dialect it gives its first name the priority
    0, so that the dialect it builds is refused by [Validate], in every
    iteration order, when this name is not repeated. *)
Theorem End_is_refused (d : dialect.Dialect) (name : string) (names : list string) :
  name ∉ names ->
  match dialect.NodesMap d with
  | None =>
      dialect.End_ d (name :: names) = inl dialect.AssignmentToEntryInNilMap
  | Some _ =>
      exists d', dialect.End_ d (name :: names) = inr d'
        /\ dialect.Nodes d' !! name = Some (node.mkNode node.Outcome "" "" 0)
        /\ forall ns, ns ≡ₚ map_to_list (dialect.Nodes d') ->
             dialect.Validate_loop ns ∅ <> None
  end.
Proof.
  intros Hname. unfold dialect.End_.
  destruct (dialect.NodesMap d) as [m|]; [|reflexivity].
  cbn [dialect.setNodes].
  destruct (setNodes_Some node.Outcome names (0 + 1)
              (<[name := node.mkNode node.Outcome "" "" 0]> m)) as (m' & -> & Hout & _).
  eexists. split; [reflexivity|].
  assert (Hn : m' !! name = Some (node.mkNode node.Outcome "" "" 0)).
  { rewrite Hout by assumption. apply lookup_insert_eq. }
  split; [exact Hn|]. intros ns Hperm Hval.
  apply iteration_order in Hperm as [Hnd Hin].
  apply (Validate_loop_None ns ∅ Hnd) in Hval as [H1 _].
  destruct (H1 name (node.mkNode node.Outcome "" "" 0)) as [Hpos _];
    [now apply Hin|reflexivity|]. simpl in Hpos. lia.
Qed.

Lemma End_is_refused_witness :
  dialect.End_ examples.noNodes ["denied"; "approved"]
  = inl dialect.AssignmentToEntryInNilMap
  /\ exists d', dialect.End_ dialect.New ["denied"; "approved"] = inr d'
       /\ dialect.Nodes d' !! "denied" = Some (node.mkNode node.Outcome "" "" 0)
       /\ forall ns, ns ≡ₚ map_to_list (dialect.Nodes d') ->
            dialect.Validate_loop ns ∅ <> None.
Proof.
  assert (Hname : "denied" ∉ ["approved"]).
  { intros Hin. apply list_elem_of_singleton in Hin. discriminate Hin. }
  split.
  - exact (End_is_refused examples.noNodes "denied" ["approved"] Hname).
  - exact (End_is_refused dialect.New "denied" ["approved"] Hname).
Defined.

(** X22: on a dialect whose map of nodes is nil, [Start] and [End] with
    a name panic.  On any other dialect they give each name, when no
    name is repeated, a node of their type whose priority is the index
    of the name; the node has no id and no name, and a node that the
    dialect had under this name is replaced. *)
Theorem Start_End_priorities (d : dialect.Dialect) (names : list string)
        (j : nat) (n : string) :
  NoDup names ->
  names !! j = Some n ->
  match dialect.NodesMap d with
  | None =>
      dialect.Start d names = inl dialect.AssignmentToEntryInNilMap
      /\ dialect.End_ d names = inl dialect.AssignmentToEntryInNilMap
  | Some _ =>
      exists ds de,
        dialect.Start d names = inr ds /\ dialect.End_ d names = inr de
        /\ dialect.Nodes ds !! n = Some (node.mkNode node.Start "" "" (Z.of_nat j))
        /\ dialect.Nodes de !! n = Some (node.mkNode node.Outcome "" "" (Z.of_nat j))
  end.
Proof.
  intros Hnd Hj. unfold dialect.Start, dialect.End_.
  destruct (dialect.NodesMap d) as [m|].
  - destruct (setNodes_Some node.Start names 0 m) as (ms & -> & _ & Hs).
    destruct (setNodes_Some node.Outcome names 0 m) as (me & -> & _ & He).
    do 2 eexists. split; [reflexivity|]. split; [reflexivity|].
    split; [exact (Hs j n Hnd Hj)|exact (He j n Hnd Hj)].
  - destruct names as [|n0 names]; [now rewrite lookup_nil in Hj|]. split; reflexivity.
Qed.

Lemma Start_End_priorities_witness :
  (dialect.Start examples.noNodes ["request"; "renewal"]
   = inl dialect.AssignmentToEntryInNilMap
   /\ dialect.End_ examples.noNodes ["request"; "renewal"]
      = inl dialect.AssignmentToEntryInNilMap)
  /\ exists ds de,
       dialect.Start examples.cfDialect ["request"; "renewal"] = inr ds
       /\ dialect.End_ examples.cfDialect ["request"; "renewal"] = inr de
       /\ dialect.Nodes ds !! "renewal" = Some (node.mkNode node.Start "" "" 1)
       /\ dialect.Nodes de !! "renewal" = Some (node.mkNode node.Outcome "" "" 1).
Proof.
  assert (Hnd : NoDup ["request"; "renewal"])
    by (apply (bool_decide_unpack _); vm_compute; reflexivity).
  split.
  - exact (Start_End_priorities examples.noNodes ["request"; "renewal"] 1 "renewal"
             Hnd eq_refl).
  - exact (Start_End_priorities examples.cfDialect ["request"; "renewal"] 1 "renewal"
             Hnd eq_refl).
Defined.

(** ** The hash of a step, within one pass *)

Lemma nodot_nil : forall a b : string, "" <> a +:+ "." +:+ b.
Proof. intros [|c a] b; discriminate. Qed.

Lemma nodot_cons (c : ascii) (s : string) :
  c <> "."%char ->
  (forall a b, s <> a +:+ "." +:+ b) ->
  forall a b, String c s <> a +:+ "." +:+ b.
Proof.
  intros Hc Hs [|d a] b Heq.
  - change (String c s = String "." b) in Heq. congruence.
  - change (String c s = String d (a +:+ "." +:+ b)) in Heq.
    injection Heq as _ Heq. now apply (Hs a b).
Qed.

Lemma pretty_N_char_nodot (x : N) : pretty_N_char x <> "."%char.
Proof. unfold pretty_N_char. repeat case_match; discriminate. Qed.

Lemma pretty_N_go_nodot (x : N) : forall s : string,
  (forall a b, s <> a +:+ "." +:+ b) ->
  forall a b, pretty_N_go x s <> a +:+ "." +:+ b.
Proof.
  induction (N.lt_wf_0 x) as [x _ IH]. intros s Hs.
  destruct (decide (x = 0%N)) as [->|Hx]; [now rewrite pretty_N_go_0|].
  rewrite pretty_N_go_step by lia. apply IH.
  - apply N.div_lt; lia.
  - apply nodot_cons; [apply pretty_N_char_nodot|assumption].
Qed.

Lemma pretty_N_go_nonempty (x : N) : forall s : string,
  s <> "" -> pretty_N_go x s <> "".
Proof.
  induction (N.lt_wf_0 x) as [x _ IH]. intros s Hs.
  destruct (decide (x = 0%N)) as [->|Hx]; [now rewrite pretty_N_go_0|].
  rewrite pretty_N_go_step by lia. apply IH; [apply N.div_lt; lia|discriminate].
Qed.

Lemma pretty_N_nodot (x : N) : forall a b, pretty x <> a +:+ "." +:+ b.
Proof.
  unfold pretty, pretty_N. case_decide.
  - apply nodot_cons; [discriminate|apply nodot_nil].
  - apply pretty_N_go_nodot, nodot_nil.
Qed.

Lemma pretty_N_nonempty (x : N) : pretty x <> "".
Proof.
  unfold pretty, pretty_N. case_decide as Hx; [discriminate|].
  rewrite pretty_N_go_step by lia. apply pretty_N_go_nonempty. discriminate.
Qed.

(** [strconv.Itoa] writes digits and a sign: no dot, and at least one
    character. *)
Lemma Itoa_nodot (p : Z) : forall a b, step.Itoa p <> a +:+ "." +:+ b.
Proof.
  unfold step.Itoa, pretty, pretty_Z. destruct p as [|p|p].
  - apply nodot_cons; [discriminate|apply nodot_nil].
  - apply pretty_N_nodot.
  - apply nodot_cons; [discriminate|apply pretty_N_nodot].
Qed.

Lemma Itoa_nonempty (p : Z) : step.Itoa p <> "".
Proof.
  unfold step.Itoa, pretty, pretty_Z. destruct p as [|p|p]; try discriminate.
  apply pretty_N_nonempty.
Qed.

Lemma Join_cons (x y : string) (rest : list string) :
  step.Join (x :: y :: rest) "." = x +:+ "." +:+ step.Join (y :: rest) ".".
Proof. reflexivity. Qed.

(** Joining with dots loses nothing when no part has a dot or is empty. *)
Lemma Join_inj (xs : list string) : forall ys : list string,
  (forall x, x ∈ xs -> x <> "" /\ forall a b, x <> a +:+ "." +:+ b) ->
  (forall y, y ∈ ys -> y <> "" /\ forall a b, y <> a +:+ "." +:+ b) ->
  step.Join xs "." = step.Join ys "." -> xs = ys.
Proof.
  induction xs as [|x xs IH]; intros ys Hxs Hys Heq.
  - destruct ys as [|y [|y' ys]]; [reflexivity| |].
    + simpl in Heq. destruct (Hys y) as [Hy _]; [set_solver|]. congruence.
    + rewrite Join_cons in Heq. simpl in Heq.
      destruct y; [|discriminate Heq]. destruct (Hys "") as [Hy _]; [set_solver|done].
  - destruct (Hxs x) as [Hx Hxd]; [set_solver|].
    destruct ys as [|y ys].
    { destruct xs as [|x' xs].
      - simpl in Heq. congruence.
      - rewrite Join_cons in Heq. simpl in Heq. destruct x; [done|discriminate Heq]. }
    destruct (Hys y) as [Hy Hyd]; [set_solver|].
    destruct xs as [|x' xs]; destruct ys as [|y' ys].
    + simpl in Heq. congruence.
    + rewrite Join_cons in Heq. simpl in Heq. now destruct (Hxd y (step.Join (y' :: ys) ".")).
    + rewrite Join_cons in Heq. simpl in Heq.
      symmetry in Heq. now destruct (Hyd x (step.Join (x' :: xs) ".")).
    + rewrite !Join_cons in Heq.
      assert (x = y) by (eapply append_dot_inj; eauto). subst y.
      apply String.app_inj in Heq. injection Heq as Heq.
      f_equal. apply IH; [intros z Hz; apply Hxs; set_solver
                         |intros z Hz; apply Hys; set_solver|assumption].
Qed.

(** X3: within one pass, two steps that are not references and have the
    same hash have the same position. *)
Theorem Hash_position_inj (s1 s2 : step.Step) :
  (forall n, step.body s1 <> step.Ref n) ->
  (forall n, step.body s2 <> step.Ref n) ->
  step.Pass s1 = step.Pass s2 ->
  step.Hash s1 = step.Hash s2 ->
  step.Position s1 = step.Position s2.
Proof.
  intros Hb1 Hb2 Hpass Heq. rewrite !Hash_not_Ref in Heq by assumption.
  rewrite Hpass in Heq. apply String.app_inj in Heq. injection Heq as Heq.
  apply Join_inj in Heq.
  - revert Heq. generalize (step.Position s1) (step.Position s2).
    induction l as [|p l IH]; intros [|q l'] Hl; try discriminate; [reflexivity|].
    simpl in Hl. injection Hl as Hp Hl. apply (inj pretty) in Hp. subst q.
    f_equal. now apply IH.
  - intros x Hx. apply list_elem_of_In, in_map_iff in Hx as (p & <- & _).
    split; [apply Itoa_nonempty|apply Itoa_nodot].
  - intros x Hx. apply list_elem_of_In, in_map_iff in Hx as (p & <- & _).
    split; [apply Itoa_nonempty|apply Itoa_nodot].
Qed.

Lemma Hash_position_inj_witness :
  step.Position (step.mkStep [1; 0] "" (step.Check "true") [] None "default")
  = step.Position (step.mkStep [1; 0] "" (step.Boolean step.And) [] None "default").
Proof.
  apply Hash_position_inj; [discriminate|discriminate|reflexivity|reflexivity].
Defined.

(** ** The flattened map of the type provider *)

(** [mapSchema] writes its key and names that extend it with a dot. *)
Lemma mapSchema_keys : forall (s : jsoncel.Schema) (key : string)
    (tm : gmap string jsoncel.Schema) (k' : string),
  k' <> key ->
  (forall suffix, k' <> key +:+ "." +:+ suffix) ->
  jsoncel.mapSchema key s tm !! k' = tm !! k'.
Proof.
  fix IH 1. intros [t props ap] key tm k' Hne Hk. simpl.
  rewrite <- (lookup_insert_ne tm key k' (jsoncel.mkSchema t props ap))
    by (intros ->; now apply Hne).
  generalize (<[key := jsoncel.mkSchema t props ap]> tm).
  induction props as [|[ck c] ps IHps]; intros tm0; [reflexivity|].
  rewrite IHps. apply IH.
  - apply Hk.
  - intros suffix ->. apply (Hk (ck +:+ "." +:+ suffix)).
    now rewrite !string_app_assoc.
Qed.

Lemma dotted_child_ne (key ck k' : string) :
  k' <> ck -> key +:+ "." +:+ ck <> key +:+ "." +:+ k'.
Proof.
  intros Hne Heq. apply String.app_inj in Heq.
  change ("." +:+ ck = "." +:+ k') in Heq.
  apply String.app_inj in Heq. now apply Hne.
Qed.

Lemma dotted_child_nodot (key ck k' suffix : string) :
  (forall a b, ck <> a +:+ "." +:+ b) ->
  key +:+ "." +:+ ck <> (key +:+ "." +:+ k') +:+ "." +:+ suffix.
Proof.
  intros Hck Heq. rewrite string_app_assoc in Heq.
  apply String.app_inj in Heq.
  change ("." +:+ ck = "." +:+ (k' +:+ "." +:+ suffix)) in Heq.
  apply String.app_inj in Heq. now apply (Hck k' suffix).
Qed.

(** A property of a schema whose name has no dot is registered under the
    key of the schema, a dot and its name. *)
Lemma mapSchema_property (key : string) (t : jsoncel.Type_)
      (props : list (string * jsoncel.Schema)) (ap : jsoncel.AdditionalProperties_)
      (tm : gmap string jsoncel.Schema) (ck : string) (c : jsoncel.Schema) :
  NoDup (props.*1) ->
  (ck, c) ∈ props ->
  (forall a b, ck <> a +:+ "." +:+ b) ->
  jsoncel.mapSchema key (jsoncel.mkSchema t props ap) tm !! (key +:+ "." +:+ ck)
  = Some c.
Proof.
  intros Hnd Hin Hck. simpl.
  generalize (<[key := jsoncel.mkSchema t props ap]> tm).
  induction props as [|[k0 c0] ps IHps]; intros tm0; [inversion Hin|].
  rewrite fmap_cons in Hnd. apply NoDup_cons in Hnd as [Hk0 Hnd]. simpl in Hk0.
  apply elem_of_cons in Hin as [Heq|Hin]; [|now apply IHps].
  inversion Heq; subst k0 c0. clear Heq IHps.
  assert (Hhere : jsoncel.mapSchema (key +:+ "." +:+ ck) c tm0 !! (key +:+ "." +:+ ck)
                  = Some c) by apply mapSchema_root.
  revert Hhere. generalize (jsoncel.mapSchema (key +:+ "." +:+ ck) c tm0).
  induction ps as [|[k1 c1] ps IHps]; intros tm1 Hhere; [exact Hhere|].
  rewrite fmap_cons in Hnd. apply NoDup_cons in Hnd as [_ Hnd].
  apply IHps; [set_solver|assumption|].
  rewrite mapSchema_keys; [exact Hhere| |].
  - apply dotted_child_ne. set_solver.
  - intros suffix. now apply dotted_child_nodot.
Qed.

(** X4: the flattened map of a provider holds only the name of the
    provider and names that extend it with a dot; for every other name,
    as the bare name of a field, [FindType] and [FindFieldType] give the
    answer of the fallback provider. *)
Theorem typeMap_names (registry : string -> option jsoncel.decls.Type_)
        (registryField : string -> string -> option jsoncel.decls.Type_)
        (name : string) (root : option jsoncel.Schema)
        (messageType k : string) :
  let p := jsoncel.NewProvider registry name root in
  k <> name ->
  (forall suffix, k <> name +:+ "." +:+ suffix) ->
  jsoncel.typeMap p !! k = None
  /\ jsoncel.FindType p k = registry k
  /\ jsoncel.FindFieldType registryField p messageType k = registryField messageType k.
Proof.
  intros p Hne Hk.
  assert (Hnone : jsoncel.typeMap p !! k = None).
  { unfold p, jsoncel.NewProvider. simpl. now rewrite mapSchema_keys. }
  split; [assumption|].
  unfold jsoncel.FindType, jsoncel.FindFieldType. now rewrite Hnone.
Qed.

Lemma typeMap_names_witness :
  jsoncel.typeMap examples.testProvider !! "group" = None
  /\ jsoncel.FindType examples.testProvider "group" = None
  /\ jsoncel.FindFieldType (fun _ _ => None) examples.testProvider "input" "group" = None.
Proof.
  apply (typeMap_names examples.emptyRegistry (fun _ _ => None) "input"
           (Some examples.testSchema) "input" "group").
  - discriminate.
  - intros suffix. discriminate.
Defined.

(** X5: a property of the root schema whose name has no dot is
    registered in the flattened map under the name of the provider, a
    dot and the name of the property. *)
Theorem typeMap_property (registry : string -> option jsoncel.decls.Type_)
        (name : string) (root : jsoncel.Schema) (ck : string) (c : jsoncel.Schema) :
  NoDup ((jsoncel.Properties root).*1) ->
  (ck, c) ∈ jsoncel.Properties root ->
  (forall a b, ck <> a +:+ "." +:+ b) ->
  jsoncel.typeMap (jsoncel.NewProvider registry name (Some root))
    !! (name +:+ "." +:+ ck) = Some c.
Proof.
  intros Hnd Hin Hck. unfold jsoncel.NewProvider. simpl.
  destruct root as [t props ap]. now apply mapSchema_property.
Qed.

Lemma typeMap_property_witness :
  jsoncel.typeMap examples.testProvider !! "input.tags"
  = Some (jsoncel.mkSchema jsoncel.Object [] jsoncel.TrueSchema).
Proof.
  apply (typeMap_property examples.emptyRegistry "input" examples.testSchema "tags").
  - apply (bool_decide_unpack _). vm_compute. reflexivity.
  - apply list_elem_of_In. simpl. tauto.
  - repeat (apply nodot_cons; [discriminate|]). apply nodot_nil.
Defined.

(** ** The flattened input *)

Lemma nodot_spec (s : string) :
  glide.nodot s = true -> forall a b, s <> a +:+ "." +:+ b.
Proof.
  induction s as [|c s IH]; simpl; intros Hs; [apply nodot_nil|].
  apply andb_prop in Hs as [Hc Hs]. apply nodot_cons; [|now apply IH].
  intros ->. discriminate Hc.
Qed.

Lemma build_cons (key k : string) (v : any) (rest : list (string * any))
      (Data : gmap string any) :
  glide.build key ((k, v) :: rest) Data
  = glide.build key rest
      (glide.build_value (key +:+ "." +:+ k) v (<[key +:+ "." +:+ k := v]> Data)).
Proof. reflexivity. Qed.

(** [build] writes names that extend its key with a dot. *)
Lemma build_value_keys : forall (v : any) (key : string) (Data : gmap string any)
    (k' : string),
  (forall suffix, k' <> key +:+ "." +:+ suffix) ->
  glide.build_value key v Data !! k' = Data !! k'.
Proof.
  fix IH 1. intros [| | | | |m] key Data k' Hk; try reflexivity.
  change (glide.build key m Data !! k' = Data !! k').
  revert Data. induction m as [|[k v] rest IHm]; intros Data; [reflexivity|].
  rewrite build_cons, IHm, IH.
  - apply lookup_insert_ne. intros Heq. now apply (Hk k).
  - intros suffix ->. apply (Hk (k +:+ "." +:+ suffix)).
    now rewrite !string_app_assoc.
Qed.

Lemma build_value_written : forall (v : any) (key : string) (Data : gmap string any)
    (k' : string) (x : any),
  glide.build_value key v Data !! k' = Some x ->
  Data !! k' = Some x \/ exists suffix, k' = key +:+ "." +:+ suffix.
Proof.
  fix IH 1. intros [| | | | |m] key Data k' x; try (now left).
  change (glide.build key m Data !! k' = Some x ->
          Data !! k' = Some x \/ exists suffix, k' = key +:+ "." +:+ suffix).
  revert Data. induction m as [|[k v] rest IHm]; intros Data Hx; [now left|].
  rewrite build_cons in Hx. apply IHm in Hx as [Hx|Hx]; [|now right].
  apply IH in Hx as [Hx|[suffix ->]].
  - destruct (decide (k' = key +:+ "." +:+ k)) as [->|Hne]; [right; eauto|].
    left. now rewrite lookup_insert_ne in Hx.
  - right. exists (k +:+ "." +:+ suffix). now rewrite !string_app_assoc.
Qed.

(** X6: every key of the flattened input is the root name, a dot and
    more; the root name itself is no key of it. *)
Theorem NewInputMap_keys (key : string) (input : list (string * any))
        (k : string) (x : any) :
  glide.NewInputMap key input !! k = Some x ->
  (exists suffix, k = key +:+ "." +:+ suffix) /\ k <> key.
Proof.
  intros Hx. apply build_value_written in Hx as [Hx|[suffix ->]].
  - now rewrite lookup_empty in Hx.
  - split; [eauto|]. intros Heq.
    rewrite <- (string_app_nil_r key) in Heq at 2.
    apply String.app_inj in Heq. discriminate Heq.
Qed.

Lemma NewInputMap_keys_witness :
  (exists suffix, "input.group.id" = "input" +:+ "." +:+ suffix)
  /\ "input.group.id" <> "input".
Proof.
  apply (NewInputMap_keys "input" examples.nestedInput "input.group.id"
           (anyString "admins")).
  vm_compute. reflexivity.
Defined.

Lemma Join_shift (key k : string) (rest : list string) :
  step.Join (key :: k :: rest) "." = step.Join ((key +:+ "." +:+ k) :: rest) ".".
Proof.
  destruct rest as [|r rest]; [reflexivity|].
  now rewrite !Join_cons, !string_app_assoc.
Qed.

Lemma index_None (m : list (string * any)) (k : string) :
  k ∉ m.*1 -> glide.index m k = None.
Proof.
  induction m as [|[k' v] rest IH]; simpl; intros Hk; [reflexivity|].
  destruct (String.eqb_spec k' k) as [->|Hne]; [set_solver|].
  apply IH. set_solver.
Qed.

Lemma wellKeyed_cons (k : string) (v : any) (rest : list (string * any)) :
  glide.wellKeyed (anyMap ((k, v) :: rest)) = true ->
  (k ∉ rest.*1) /\ glide.nodot k = true /\ glide.wellKeyed v = true
  /\ glide.wellKeyed (anyMap rest) = true.
Proof.
  simpl. intros H. apply andb_prop in H as [Hnd H].
  apply andb_prop in H as [H Hrest]. apply andb_prop in H as [Hk Hv].
  apply bool_decide_eq_true in Hnd. apply NoDup_cons in Hnd as [Hnotin Hnd].
  repeat split; try assumption.
  apply andb_true_intro. split; [now apply bool_decide_eq_true|assumption].
Qed.

(** The name of a path under a key is the key or extends it with a dot
    and a part without dot. *)
Lemma Join_path_ne (key k p : string) (rest : list string) :
  glide.nodot k = true -> glide.nodot p = true -> k <> p ->
  step.Join (key :: p :: rest) "." <> key +:+ "." +:+ k
  /\ forall suffix,
       step.Join (key :: p :: rest) "." <> (key +:+ "." +:+ k) +:+ "." +:+ suffix.
Proof.
  intros Hk Hp Hne. rewrite Join_cons.
  pose proof (nodot_spec k Hk) as Hk'. pose proof (nodot_spec p Hp) as Hp'.
  split.
  - intros Heq. apply String.app_inj in Heq.
    change ("." +:+ step.Join (p :: rest) "." = "." +:+ k) in Heq.
    apply String.app_inj in Heq. destruct rest as [|r rest].
    + simpl in Heq. congruence.
    + rewrite Join_cons in Heq. symmetry in Heq. now apply Hk' in Heq.
  - intros suffix Heq. rewrite string_app_assoc in Heq.
    apply String.app_inj in Heq.
    change ("." +:+ step.Join (p :: rest) "." = "." +:+ (k +:+ "." +:+ suffix)) in Heq.
    apply String.app_inj in Heq. destruct rest as [|r rest].
    + simpl in Heq. now apply Hp' in Heq.
    + rewrite Join_cons in Heq. apply append_dot_inj in Heq; congruence.
Qed.

Lemma build_value_at_path : forall v : any,
  glide.wellKeyed v = true ->
  forall (path : list string) (key : string) (Data : gmap string any),
    path <> [] ->
    forallb glide.nodot path = true ->
    glide.build_value key v Data !! step.Join (key :: path) "."
    = match glide.at_path v path with
      | Some x => Some x
      | None => Data !! step.Join (key :: path) "."
      end.
Proof.
  fix IH 1. intros v Hwk [|p rest] key Data Hne Hpath; [done|]. clear Hne.
  simpl in Hpath. apply andb_prop in Hpath as [Hp Hrest].
  destruct v as [| | | | |m]; try reflexivity.
  change (glide.build key m Data !! step.Join (key :: p :: rest) "."
          = match glide.at_path (anyMap m) (p :: rest) with
            | Some x => Some x
            | None => Data !! step.Join (key :: p :: rest) "."
            end).
  revert Data. induction m as [|[k v'] tl IHm]; intros Data; [reflexivity|].
  apply wellKeyed_cons in Hwk as (Hnotin & Hk & Hv' & Htl).
  rewrite build_cons, (IHm Htl). clear IHm.
  change (glide.at_path (anyMap ((k, v') :: tl)) (p :: rest))
    with (match (if String.eqb k p then Some v' else glide.index tl p) with
          | Some v0 => glide.at_path v0 rest
          | None => None
          end).
  change (glide.at_path (anyMap tl) (p :: rest))
    with (match glide.index tl p with
          | Some v0 => glide.at_path v0 rest
          | None => None
          end).
  destruct (String.eqb_spec k p) as [->|Hkp].
  - rewrite (index_None tl p Hnotin). rewrite Join_shift.
    destruct rest as [|r rest'].
    + simpl. rewrite build_value_keys.
      * apply lookup_insert_eq.
      * intros suffix Heq. rewrite <- (string_app_nil_r (key +:+ "." +:+ p)) in Heq at 1.
        apply String.app_inj in Heq. discriminate Heq.
    + rewrite (IH v' Hv' (r :: rest') (key +:+ "." +:+ p)) by (assumption || discriminate).
      destruct (glide.at_path v' (r :: rest')); [reflexivity|].
      apply lookup_insert_ne. rewrite Join_cons. intros Heq.
      rewrite <- (string_app_nil_r (key +:+ "." +:+ p)) in Heq at 1.
      apply String.app_inj in Heq. discriminate Heq.
  - destruct (Join_path_ne key k p rest Hk Hp Hkp) as [Hne1 Hne2].
    rewrite build_value_keys by exact Hne2.
    rewrite lookup_insert_ne by congruence. reflexivity.
Qed.

(** X7: in an input whose maps have keys without dot, the flattened
    input has under the root name and the keys of a path, joined with
    dots, the value that the path leads to in the input, and no entry
    when the path leads to nothing. *)
Theorem NewInputMap_at_path (key : string) (input : list (string * any))
        (path : list string) :
  glide.wellKeyed (anyMap input) = true ->
  path <> [] ->
  forallb glide.nodot path = true ->
  glide.NewInputMap key input !! step.Join (key :: path) "."
  = glide.at_path (anyMap input) path.
Proof.
  intros Hwk Hne Hpath. unfold glide.NewInputMap, glide.build.
  rewrite build_value_at_path by assumption.
  now destruct (glide.at_path (anyMap input) path).
Qed.

Lemma NewInputMap_at_path_witness :
  glide.NewInputMap "input" examples.nestedInput !! "input.group.id"
  = Some (anyString "admins")
  /\ glide.NewInputMap "input" examples.nestedInput !! "input.group.name" = None.
Proof.
  split.
  - apply (NewInputMap_at_path "input" examples.nestedInput ["group"; "id"]);
      [reflexivity|discriminate|reflexivity].
  - apply (NewInputMap_at_path "input" examples.nestedInput ["group"; "name"]);
      [reflexivity|discriminate|reflexivity].
Defined.

(** ** The approval action of the Common Fate dialect *)

Lemma requiredLoop_spec (g : string) (required : list string) :
  cf.requiredLoop g required = true <-> g ∈ required.
Proof.
  induction required as [|r rest IH]; simpl; [split; [discriminate|inversion 1]|].
  destruct (String.eqb_spec g r) as [->|Hne]; [split; [set_solver|reflexivity]|].
  rewrite IH. set_solver.
Qed.

Lemma groupsLoop_spec (groups required : list string) :
  cf.groupsLoop groups required = true
  <-> exists g, g ∈ groups /\ g ∈ required.
Proof.
  induction groups as [|g rest IH]; simpl; [split; [discriminate|intros (g & Hg & _); inversion Hg]|].
  destruct (cf.requiredLoop g required) eqn:Hg.
  - apply requiredLoop_spec in Hg. split; [|reflexivity].
    intros _. exists g. split; [set_solver|assumption].
  - rewrite IH. split; intros (g' & Hin & Hreq).
    + exists g'. split; [set_solver|assumption].
    + exists g'. split; [|assumption].
      apply elem_of_cons in Hin as [->|Hin]; [|assumption].
      apply requiredLoop_spec in Hreq. congruence.
Qed.

Lemma approvalsLoop_spec (approvals : list cf.ApprovalInput) (required : list string) :
  cf.approvalsLoop approvals required = true
  <-> exists approval g,
        approval ∈ approvals /\ g ∈ cf.InputGroups approval /\ g ∈ required.
Proof.
  induction approvals as [|a rest IH]; simpl;
    [split; [discriminate|intros (a & g & Ha & _); inversion Ha]|].
  destruct (cf.groupsLoop (cf.InputGroups a) required) eqn:Ha.
  - apply groupsLoop_spec in Ha as (g & Hg & Hreq). split; [|reflexivity].
    intros _. exists a, g. split; [set_solver|auto].
  - rewrite IH. split; intros (a' & g & Hin & Hg & Hreq).
    + exists a', g. split; [set_solver|auto].
    + exists a', g. split; [|auto].
      apply elem_of_cons in Hin as [->|Hin]; [|assumption].
      assert (cf.groupsLoop (cf.InputGroups a) required = true)
        by (apply groupsLoop_spec; eauto).
      congruence.
Qed.

(** X8: for an input that decodes, [Complete] returns no error, and it
    returns true exactly when a group of an approval of the input is one
    of the groups of the step; the user of the approval is not read. *)
Theorem Complete_iff (Decode : any -> error + cf.Input) (a : cf.Approval)
        (input : any) (i : cf.Input) :
  Decode input = inr i ->
  (exists complete, cf.Complete Decode a input = inr complete)
  /\ (cf.Complete Decode a input = inr true
      <-> exists approval g,
            approval ∈ cf.Approvals i /\ g ∈ cf.InputGroups approval
            /\ g ∈ cf.Groups a).
Proof.
  intros Hi. unfold cf.Complete. rewrite Hi. split; [eauto|].
  rewrite <- approvalsLoop_spec. split; [now intros [= ->]|now intros ->].
Qed.

Lemma Complete_iff_witness :
  let a := cf.mkApproval ["admins"] in
  let input := anyMap examples.approvedInput in
  let i := cf.mkInput [cf.mkApprovalInput "chris@commonfate.io" ["admins"]] in
  (exists complete, cf.Complete examples.decodeInput a input = inr complete)
  /\ (cf.Complete examples.decodeInput a input = inr true
      <-> exists approval g,
            approval ∈ cf.Approvals i /\ g ∈ cf.InputGroups approval
            /\ g ∈ cf.Groups a).
Proof.
  intros a input i. apply (Complete_iff examples.decodeInput a input i).
  reflexivity.
Defined.

(** ** The visitor, kind by kind *)

Lemma completed_pos_intro (state : gmap string glide.State) (preds : list string)
      (p : string) :
  p ∈ preds -> state !! p = Some glide.Complete ->
  (0 < glide.completed state preds)%nat.
Proof.
  intros Hp Hc. unfold glide.completed.
  assert (Hin : p ∈ filter (fun p => state !! p = Some glide.Complete) preds)
    by (apply list_elem_of_filter; auto).
  destruct (filter _ preds); [inversion Hin|simpl; lia].
Qed.

Section visit_bodies.
Variables (g : glide.Graph) (start : string) (input : list (string * any)).
Variables (k : string) (v : step.Step) (st st' : glide.Exec).
Hypothesis visit_k :
  glide.visit g start input (glide.NewInputMap "input" input) k st = (st', false).
Hypothesis vertex_k : graph.vertices (glide.G g) !! k = Some v.
Hypothesis not_start : k <> start.

(** The number of completed predecessors that the visit of [k] counts. *)
Let cc : nat :=
  glide.completed (<[k := glide.Inactive]> (glide.state st))
                  (graph.PredecessorMap (glide.G g) k).

Lemma visit_Check (expr : string) :
  step.body v = step.Check expr ->
  (glide.state st' !! k = Some glide.Complete
   <-> (0 < cc)%nat
       /\ exists prg, glide.programs g !! k = Some prg
            /\ cel.Eval prg (glide.NewInputMap "input" input)
               = inr (cel.valBool true))
  /\ (glide.state st' !! k = Some glide.Complete
      \/ glide.state st' !! k = Some glide.Inactive).
Proof.
  intros Hbody. pose proof visit_k as Hk.
  unfold glide.visit, graph.Vertex in Hk. rewrite vertex_k in Hk.
  rewrite decide_False in Hk by exact not_start.
  destruct (graph.AddVertex (glide.cg st) v) as [err|cg1]; [discriminate|].
  destruct (glide.completedLoop _ _ _ _ _) as [err|[n cg2]] eqn:Hloop;
    [discriminate|].
  apply completedLoop_count in Hloop. simpl in Hloop. fold cc in Hloop. subst n.
  unfold glide.visitBody in Hk. rewrite Hbody in Hk.
  destruct (cc =? 0)%nat eqn:Hcc.
  - apply Nat.eqb_eq in Hcc. inversion Hk; subst st'; simpl.
    rewrite lookup_insert_eq. split; [|now right].
    split; [discriminate|]. intros [Hpos _]. lia.
  - apply Nat.eqb_neq in Hcc.
    destruct (glide.programs g !! k) as [prg|]; [|discriminate].
    destruct (cel.Eval prg _) as [err|[[|]|s]] eqn:Heval; try discriminate;
      inversion Hk; subst st'; simpl; rewrite ?lookup_insert_eq.
    + split; [|now left]. split; [|reflexivity].
      intros _. split; [lia|]. eauto.
    + split; [|now right]. split; [discriminate|].
      intros [_ (prg' & [= <-] & Heval')]. congruence.
Qed.

Lemma visit_Or_Ref :
  step.body v = step.Boolean step.Or \/ (exists n, step.body v = step.Ref n) ->
  (glide.state st' !! k = Some glide.Complete <-> (0 < cc)%nat)
  /\ (glide.state st' !! k = Some glide.Complete
      \/ glide.state st' !! k = Some glide.Inactive).
Proof.
  intros Hbody. pose proof visit_k as Hk.
  unfold glide.visit, graph.Vertex in Hk. rewrite vertex_k in Hk.
  rewrite decide_False in Hk by exact not_start.
  destruct (graph.AddVertex (glide.cg st) v) as [err|cg1]; [discriminate|].
  destruct (glide.completedLoop _ _ _ _ _) as [err|[n cg2]] eqn:Hloop;
    [discriminate|].
  apply completedLoop_count in Hloop. simpl in Hloop. fold cc in Hloop. subst n.
  unfold glide.visitBody in Hk.
  destruct Hbody as [Hbody|[n Hbody]]; rewrite Hbody in Hk;
    inversion Hk; subst st'; simpl;
    destruct (0 <? cc)%nat eqn:Hcc;
    rewrite ?lookup_insert_eq;
    (apply Nat.ltb_lt in Hcc || apply Nat.ltb_ge in Hcc);
    (split; [split; [try discriminate; try lia; auto|auto; try lia]|auto]).
Qed.

Lemma visit_Action (name : string) (a : actionValue) :
  step.body v = step.Action name a ->
  (glide.state st' !! k = Some glide.Complete
   <-> (0 < cc)%nat /\ exists Complete_, a = action (Some Complete_)
                        /\ Complete_ input = inr true)
  /\ (glide.state st' !! k = Some glide.Active
      <-> (0 < cc)%nat /\ forall Complete_, a = action (Some Complete_) ->
                             Complete_ input = inr false)
  /\ (glide.state st' !! k = Some glide.Inactive <-> cc = 0%nat).
Proof.
  intros Hbody. pose proof visit_k as Hk.
  unfold glide.visit, graph.Vertex in Hk. rewrite vertex_k in Hk.
  rewrite decide_False in Hk by exact not_start.
  destruct (graph.AddVertex (glide.cg st) v) as [err|cg1]; [discriminate|].
  destruct (glide.completedLoop _ _ _ _ _) as [err|[n cg2]] eqn:Hloop;
    [discriminate|].
  apply completedLoop_count in Hloop. simpl in Hloop. fold cc in Hloop. subst n.
  unfold glide.visitBody in Hk. rewrite Hbody in Hk.
  destruct (0 <? cc)%nat eqn:Hcc;
    [apply Nat.ltb_lt in Hcc|apply Nat.ltb_ge in Hcc].
  - destruct a as [|[Complete_|]].
    + inversion Hk; subst st'; simpl. rewrite lookup_insert_eq.
      split; [|split].
      * split; [discriminate|]. now intros [_ (C & [=] & _)].
      * split; [|reflexivity]. intros _. split; [assumption|]. now intros C [=].
      * split; [discriminate|lia].
    + destruct (Complete_ input) as [err|[|]] eqn:HC; [discriminate| |];
        inversion Hk; subst st'; simpl; rewrite lookup_insert_eq.
      * split; [|split].
        -- split; [|reflexivity]. intros _. split; [assumption|]. eauto.
        -- split; [discriminate|]. intros [_ HF].
           specialize (HF Complete_ eq_refl). congruence.
        -- split; [discriminate|lia].
      * split; [|split].
        -- split; [discriminate|]. intros [_ (C & [= <-] & HC')]. congruence.
        -- split; [|reflexivity]. intros _. split; [assumption|].
           now intros C [= <-].
        -- split; [discriminate|lia].
    + inversion Hk; subst st'; simpl. rewrite lookup_insert_eq.
      split; [|split].
      * split; [discriminate|]. now intros [_ (C & [=] & _)].
      * split; [|reflexivity]. intros _. split; [assumption|]. now intros C [=].
      * split; [discriminate|lia].
  - assert (Hst : glide.state st' = <[k := glide.Inactive]> (glide.state st))
      by (destruct a as [|[Complete_|]]; inversion Hk; subst st'; reflexivity).
    rewrite Hst, lookup_insert_eq. split; [|split].
    + split; [discriminate|]. intros [Hpos _]. lia.
    + split; [discriminate|]. intros [Hpos _]. lia.
    + split; [lia|reflexivity].
Qed.

End visit_bodies.

(** ** The state of a vertex in a result, kind by kind *)

(** The visit of a vertex in an execution that returns a result: the
    entry of the vertex is the one that its visit leaves, and the visit
    counts a completed predecessor exactly when a vertex visited before
    it has an edge to it and is Complete in the result. *)
Lemma Execute_visit (g : glide.Graph) (start : string) (input : list (string * any))
      (res : glide.Result) (ks pre post : list string) (k : string) :
  glide.Execute g start input = Some (inr res) ->
  graph.order (glide.G g) start = Some ks ->
  ks = pre ++ k :: post ->
  glide.visit g start input (glide.NewInputMap "input" input) k
              (glide.after g start input pre)
  = (glide.after g start input (pre ++ [k]), false)
  /\ glide.State_ res !! k = glide.state (glide.after g start input (pre ++ [k])) !! k
  /\ (exists sv sn, graph.vertices (glide.G g) !! start = Some sv
        /\ step.body sv = step.Ref sn)
  /\ ((0 < glide.completed (<[k := glide.Inactive]>
                              (glide.state (glide.after g start input pre)))
                           (graph.PredecessorMap (glide.G g) k))%nat
      <-> exists p, p ∈ pre /\ graph.edge (glide.G g) p k
            /\ glide.State_ res !! p = Some glide.Complete).
Proof.
  intros Hex Hks Heq.
  apply Execute_inv in Hex as (ks0 & sv & sn & Hks0 & Hsv & Hsn & _ & Hverr & -> & _).
  rewrite Hks in Hks0. inversion Hks0; subst ks0. clear Hks0.
  pose proof (order_spec _ _ _ Hks) as (_ & Hnd & _ & _).
  pose proof (ks_pre_verr g start input ks Hverr (pre ++ [k]) post) as Hpre.
  rewrite <- app_assoc in Hpre. specialize (Hpre Heq).
  pose proof Hpre as Hpre'. apply after_snoc in Hpre' as [Hverr_pre Hk].
  split; [exact Hk|]. split; [now apply (ks_final g start input ks Hverr Hnd pre k post)|].
  split; [eauto|].
  assert (Hkpre : k ∉ pre).
  { rewrite Heq in Hnd. apply NoDup_app in Hnd as (_ & Hnd & _).
    intros Hin. apply (Hnd k Hin). set_solver. }
  split.
  - intros Hpos. apply (completed_pos g start input) in Hpos as (p & Hp & Hc).
    assert (Hpk : p <> k) by (intros ->; now rewrite lookup_insert_eq in Hc).
    rewrite lookup_insert_ne in Hc by congruence.
    assert (Hin : p ∈ pre).
    { apply (elem_of_list_to_set (C := gset string)).
      rewrite <- (after_dom g start input pre Hverr_pre). apply elem_of_dom. eauto. }
    exists p. split; [assumption|]. split; [now apply elem_of_PredecessorMap|].
    now rewrite (ks_finalized g start input ks Hverr Hnd pre (k :: post) p Heq Hin).
  - intros (p & Hin & He & Hc).
    rewrite (ks_finalized g start input ks Hverr Hnd pre (k :: post) p Heq Hin) in Hc.
    apply (completed_pos_intro _ _ p); [now apply elem_of_PredecessorMap|].
    rewrite lookup_insert_ne; [assumption|]. intros ->. contradiction.
Qed.

(** X9: a check vertex is Complete in a result exactly when a vertex
    visited before it has an edge to it and is Complete, and its program
    gives true on the flattened input; otherwise it is Inactive. *)
Theorem Check_complete_iff (g : glide.Graph) (start : string)
        (input : list (string * any)) (res : glide.Result)
        (ks pre post : list string) (k : string) (v : step.Step) (expr : string) :
  glide.Execute g start input = Some (inr res) ->
  graph.order (glide.G g) start = Some ks ->
  ks = pre ++ k :: post ->
  graph.vertices (glide.G g) !! k = Some v ->
  step.body v = step.Check expr ->
  (glide.State_ res !! k = Some glide.Complete
   <-> (exists p, p ∈ pre /\ graph.edge (glide.G g) p k
          /\ glide.State_ res !! p = Some glide.Complete)
       /\ exists prg, glide.programs g !! k = Some prg
            /\ cel.Eval prg (glide.NewInputMap "input" input)
               = inr (cel.valBool true))
  /\ (glide.State_ res !! k = Some glide.Complete
      \/ glide.State_ res !! k = Some glide.Inactive).
Proof.
  intros Hex Hks Heq Hv Hbody.
  destruct (Execute_visit g start input res ks pre post k Hex Hks Heq)
    as (Hk & -> & (sv & sn & Hsv & Hsn) & <-).
  assert (Hne : k <> start) by (intros ->; congruence).
  exact (visit_Check g start input k v _ _ Hk Hv Hne expr Hbody).
Qed.

Lemma Check_complete_iff_witness :
  let g := examples.graphOf (examples.compile examples.simplePass) in
  let res := examples.resultOf g "request" [] in
  (glide.State_ res !! "default.1" = Some glide.Complete
   <-> (exists p, p ∈ ["request"] /\ graph.edge (glide.G g) p "default.1"
          /\ glide.State_ res !! p = Some glide.Complete)
       /\ exists prg, glide.programs g !! "default.1" = Some prg
            /\ cel.Eval prg (glide.NewInputMap "input" [])
               = inr (cel.valBool true))
  /\ (glide.State_ res !! "default.1" = Some glide.Complete
      \/ glide.State_ res !! "default.1" = Some glide.Inactive).
Proof.
  intros g res.
  eapply (Check_complete_iff g "request" [] res
            ["request"; "default.1"; "approved"] ["request"] ["approved"]
            "default.1" _ "true");
    vm_compute; reflexivity.
Defined.

(** X10: a vertex other than the start whose body is a boolean Or or a
    reference to a node is Complete in a result exactly when a vertex
    visited before it has an edge to it and is Complete; otherwise it is
    Inactive. *)
Theorem Or_Ref_complete_iff (g : glide.Graph) (start : string)
        (input : list (string * any)) (res : glide.Result)
        (ks pre post : list string) (k : string) (v : step.Step) :
  glide.Execute g start input = Some (inr res) ->
  graph.order (glide.G g) start = Some ks ->
  ks = pre ++ k :: post ->
  graph.vertices (glide.G g) !! k = Some v ->
  step.body v = step.Boolean step.Or \/ (exists n, step.body v = step.Ref n) ->
  k <> start ->
  (glide.State_ res !! k = Some glide.Complete
   <-> exists p, p ∈ pre /\ graph.edge (glide.G g) p k
         /\ glide.State_ res !! p = Some glide.Complete)
  /\ (glide.State_ res !! k = Some glide.Complete
      \/ glide.State_ res !! k = Some glide.Inactive).
Proof.
  intros Hex Hks Heq Hv Hbody Hne.
  destruct (Execute_visit g start input res ks pre post k Hex Hks Heq)
    as (Hk & -> & _ & <-).
  exact (visit_Or_Ref g start input k v _ _ Hk Hv Hne Hbody).
Qed.

Lemma Or_Ref_complete_iff_witness :
  let g := examples.graphOf (examples.compile examples.eitherApproval) in
  let res := examples.resultOf g "request" examples.approvedInput in
  let pre := ["request"; "default.1.0"; "default.1.1"] in
  (glide.State_ res !! "default.1" = Some glide.Complete
   <-> exists p, p ∈ pre /\ graph.edge (glide.G g) p "default.1"
         /\ glide.State_ res !! p = Some glide.Complete)
  /\ (glide.State_ res !! "default.1" = Some glide.Complete
      \/ glide.State_ res !! "default.1" = Some glide.Inactive).
Proof.
  intros g res pre.
  eapply (Or_Ref_complete_iff g "request" examples.approvedInput res
            (pre ++ ["default.1"; "approved"]) pre ["approved"] "default.1").
  - vm_compute. reflexivity.
  - vm_compute. reflexivity.
  - reflexivity.
  - vm_compute. reflexivity.
  - left. reflexivity.
  - discriminate.
Defined.

(** X11: an action vertex is Inactive in a result when no vertex
    visited before it has an edge to it and is Complete.  When there is
    one, the vertex is Complete if its action has a method [Complete]
    that returns true on the input, and Active if its action has no such
    method or the method returns false. *)
Theorem Action_state (g : glide.Graph) (start : string)
        (input : list (string * any)) (res : glide.Result)
        (ks pre post : list string) (k : string) (v : step.Step)
        (name : string) (a : actionValue) :
  glide.Execute g start input = Some (inr res) ->
  graph.order (glide.G g) start = Some ks ->
  ks = pre ++ k :: post ->
  graph.vertices (glide.G g) !! k = Some v ->
  step.body v = step.Action name a ->
  let activated :=
    exists p, p ∈ pre /\ graph.edge (glide.G g) p k
      /\ glide.State_ res !! p = Some glide.Complete in
  (glide.State_ res !! k = Some glide.Complete
   <-> activated /\ exists Complete_, a = action (Some Complete_)
                      /\ Complete_ input = inr true)
  /\ (glide.State_ res !! k = Some glide.Active
      <-> activated /\ forall Complete_, a = action (Some Complete_) ->
                         Complete_ input = inr false)
  /\ (glide.State_ res !! k = Some glide.Inactive <-> ~ activated).
Proof.
  intros Hex Hks Heq Hv Hbody activated.
  destruct (Execute_visit g start input res ks pre post k Hex Hks Heq)
    as (Hk & -> & (sv & sn & Hsv & Hsn) & Hact).
  fold activated in Hact.
  assert (Hne : k <> start) by (intros ->; congruence).
  pose proof (visit_Action g start input k v _ _ Hk Hv Hne name a Hbody)
    as (HC & HA & HI). cbv zeta in HC, HA, HI.
  rewrite <- Hact. split; [exact HC|]. split; [exact HA|].
  rewrite HI. lia.
Qed.

Lemma Action_state_witness :
  let g := examples.graphOf (examples.compile examples.adminApproval) in
  let a := cf.approval examples.decodeInput (cf.mkApproval ["admins"]) in
  let waiting := examples.resultOf g "request" examples.noApprovals in
  let approved := examples.resultOf g "request" examples.approvedInput in
  glide.State_ waiting !! "default.1" = Some glide.Active
  /\ glide.State_ approved !! "default.1" = Some glide.Complete.
Proof.
  intros g a waiting approved. split.
  - eapply (Action_state g "request" examples.noApprovals waiting
              ["request"; "default.1"; "approved"] ["request"] ["approved"]
              "default.1" _ "approval" a);
      try (vm_compute; reflexivity).
    split.
    + exists "request". split; [set_solver|].
      split; [|vm_compute; reflexivity].
      unfold graph.edge. apply list_elem_of_In. vm_compute. tauto.
    + intros Complete_ [= <-]. vm_compute. reflexivity.
  - eapply (Action_state g "request" examples.approvedInput approved
              ["request"; "default.1"; "approved"] ["request"] ["approved"]
              "default.1" _ "approval" a);
      try (vm_compute; reflexivity).
    split.
    + exists "request". split; [set_solver|].
      split; [|vm_compute; reflexivity].
      unfold graph.edge. apply list_elem_of_In. vm_compute. tauto.
    + eexists. split; [reflexivity|]. vm_compute. reflexivity.
Defined.

(** ** The completion graph *)

Lemma AddEdge_inr {T : Type} (g g' : graph.Graph T) (s t : string) :
  graph.AddEdge g s t = inr g' ->
  graph.hash g' = graph.hash g
  /\ graph.vertices g' = graph.vertices g
  /\ graph.edges g' = graph.edges g ++ [(s, t)]
  /\ is_Some (graph.vertices g !! s) /\ is_Some (graph.vertices g !! t)
  /\ s <> t /\ (s, t) ∉ graph.edges g.
Proof.
  unfold graph.AddEdge, graph.CreatesCycle.
  destruct (graph.vertices g !! s) as [vs|]; [|discriminate].
  destruct (graph.vertices g !! t) as [vt|]; [|discriminate].
  case_bool_decide as Hin; [discriminate|].
  destruct (decide (s = t)) as [|Hne]; [discriminate|].
  case_bool_decide; [discriminate|].
  intros [= <-]. simpl. repeat split; eauto.
Qed.

Lemma AddVertex_inr {T : Type} (g g' : graph.Graph T) (v : T) :
  graph.AddVertex g v = inr g' ->
  graph.hash g' = graph.hash g
  /\ graph.vertices g' = <[graph.hash g v := v]> (graph.vertices g)
  /\ graph.edges g' = graph.edges g
  /\ graph.vertices g !! graph.hash g v = None.
Proof.
  unfold graph.AddVertex.
  destruct (graph.vertices g !! graph.hash g v) eqn:Hv; [discriminate|].
  intros [= <-]. simpl. auto.
Qed.

(** The loop over the predecessors adds the edges from the completed
    ones, and nothing else. *)
Lemma completedLoop_cg predecessors state k : forall cg n cc cg',
  glide.completedLoop predecessors state cg k n = inr (cc, cg') ->
  graph.hash cg' = graph.hash cg
  /\ graph.vertices cg' = graph.vertices cg
  /\ graph.edges cg'
     = graph.edges cg
       ++ ((fun p => (p, k))
             <$> filter (fun p => state !! p = Some glide.Complete) predecessors)
  /\ (forall p, p ∈ predecessors -> state !! p = Some glide.Complete -> p <> k).
Proof.
  induction predecessors as [|p ps IH]; simpl; intros cg n cc cg' Heq.
  - inversion Heq; subst. rewrite app_nil_r. repeat split; auto; intros p Hp; inversion Hp.
  - destruct (decide (state !! p = Some glide.Complete)) as [Hp|Hp].
    + rewrite Hp in Heq. rewrite filter_cons_True by exact Hp.
      destruct (graph.AddEdge cg p k) as [err|cg1] eqn:Hadd; [discriminate|].
      apply AddEdge_inr in Hadd as (Hh & Hv & He & _ & _ & Hne & _).
      apply IH in Heq as (Hh' & Hv' & He' & Hne').
      rewrite Hh', Hv', He', Hh, Hv, He, <- app_assoc. repeat split; auto.
      intros q Hq Hc. apply elem_of_cons in Hq as [->|Hq]; auto.
    + rewrite filter_cons_False by exact Hp.
      assert (Heq' : glide.completedLoop ps state cg k n = inr (cc, cg')).
      { destruct (state !! p) as [[| |]|]; try exact Heq. now destruct Hp. }
      apply IH in Heq' as (Hh' & Hv' & He' & Hne'). repeat split; auto.
      intros q Hq Hc. apply elem_of_cons in Hq as [->|Hq]; [contradiction|auto].
Qed.

(** What a visit does to the completion graph. *)
Lemma visit_cg (g : glide.Graph) (start : string) (input : list (string * any))
      (k : string) (st st' : glide.Exec) :
  glide.visit g start input (glide.NewInputMap "input" input) k st = (st', false) ->
  exists v,
    graph.vertices (glide.G g) !! k = Some v
    /\ graph.hash (glide.cg st') = graph.hash (glide.cg st)
    /\ graph.vertices (glide.cg st')
       = <[graph.hash (glide.cg st) v := v]> (graph.vertices (glide.cg st))
    /\ forall p k',
         (p, k') ∈ graph.edges (glide.cg st')
         <-> (p, k') ∈ graph.edges (glide.cg st)
             \/ (k' = k /\ p <> k /\ p ∈ graph.PredecessorMap (glide.G g) k
                 /\ glide.state st !! p = Some glide.Complete).
Proof.
  unfold glide.visit, graph.Vertex.
  destruct (graph.vertices (glide.G g) !! k) as [v|] eqn:Hv; [|discriminate].
  destruct (graph.AddVertex (glide.cg st) v) as [err|cg1] eqn:Hadd; [discriminate|].
  apply AddVertex_inr in Hadd as (Hh1 & Hv1 & He1 & _).
  destruct (glide.completedLoop _ _ _ _ _) as [err|[cc cg2]] eqn:Hloop;
    [discriminate|].
  apply completedLoop_cg in Hloop as (Hh2 & Hv2 & He2 & Hne).
  intros Hk. assert (Hcg : glide.cg st' = cg2).
  { unfold glide.visitBody in Hk.
    repeat (match type of Hk with
            | context [match ?x with _ => _ end] => destruct x
            | context [if ?x then _ else _] => destruct x
            end; simpl in Hk);
      inversion Hk; subst; reflexivity. }
  exists v. rewrite Hcg, Hh2, Hv2, He2, Hh1, Hv1, He1.
  split; [reflexivity|]. split; [reflexivity|]. split; [reflexivity|].
  intros p k'. rewrite elem_of_app, list_elem_of_fmap.
  split; (intros [Hin|Hnew]; [now left|right]).
  - destruct Hnew as (q & [= -> ->] & Hq).
    apply list_elem_of_filter in Hq as [Hc Hq].
    specialize (Hne q Hq Hc). repeat split; auto.
    revert Hc. case_decide; rewrite !lookup_insert_ne by congruence; auto.
  - destruct Hnew as (-> & Hpk & Hp & Hc). exists p. split; [reflexivity|].
    apply list_elem_of_filter. split; [|assumption].
    case_decide; rewrite !lookup_insert_ne by congruence; auto.
Qed.

Lemma Execute_CG (g : glide.Graph) (start : string) (input : list (string * any))
      (res : glide.Result) (ks : list string) :
  glide.Execute g start input = Some (inr res) ->
  graph.order (glide.G g) start = Some ks ->
  glide.verr (glide.after g start input ks) = None
  /\ NoDup ks
  /\ glide.CG res = glide.cg (glide.after g start input ks)
  /\ glide.State_ res = glide.state (glide.after g start input ks).
Proof.
  intros Hex Hks. pose proof (order_spec _ _ _ Hks) as (_ & Hnd & _ & _).
  revert Hex. unfold glide.Execute, graph.Vertex.
  destruct (graph.vertices (glide.G g) !! start) as [sv|] eqn:Hsv; [|discriminate].
  destruct (step.body sv) as [| | |sn|] eqn:Hbody; try discriminate.
  destruct (negb _) eqn:Htype; [discriminate|].
  destruct (BFS_visits (glide.G g) start
              (glide.visit g start input (glide.NewInputMap "input" input))
              (glide.mkExec ∅ (graph.New step.Hash) node.zero None) sv Hsv)
    as (ks0 & Hks0 & ->).
  rewrite Hks in Hks0. inversion Hks0; subst ks0. clear Hks0.
  fold glide.initial. fold (glide.after g start input ks).
  destruct (glide.verr (glide.after g start input ks)) eqn:Hverr; [discriminate|].
  intros Heq. inversion Heq; subst res. simpl. auto.
Qed.

Lemma before_snoc (pre : list string) (k0 p k : string) :
  k0 ∉ pre ->
  glide.before (pre ++ [k0]) p k
  <-> glide.before pre p k \/ (k = k0 /\ p ∈ pre).
Proof.
  intros Hk0. unfold glide.before. split.
  - intros (a & b & Heq & Hp).
    destruct b as [|x b _] using rev_ind.
    + apply app_inj_tail in Heq as [-> ->]. now right.
    + left. rewrite app_comm_cons, app_assoc in Heq.
      apply app_inj_tail in Heq as [-> ->]. eauto.
  - intros [(a & b & -> & Hp)|[-> Hp]].
    + exists a, (b ++ [k0]). split; [|assumption].
      now rewrite <- app_assoc.
    + exists pre, []. auto.
Qed.

Lemma before_elem_of (ks : list string) (p k : string) :
  glide.before ks p k -> p ∈ ks /\ k ∈ ks.
Proof. intros (a & b & -> & Hp). set_solver. Qed.

(** X12: the completion graph of a result has an edge exactly from each
    vertex that is Complete to each vertex that it has an edge to in the
    graph and that was visited after it. *)
Theorem CG_edges (g : glide.Graph) (start : string) (input : list (string * any))
        (res : glide.Result) (ks : list string) :
  glide.Execute g start input = Some (inr res) ->
  graph.order (glide.G g) start = Some ks ->
  forall p k,
    (p, k) ∈ graph.edges (glide.CG res)
    <-> graph.edge (glide.G g) p k /\ glide.before ks p k
        /\ glide.State_ res !! p = Some glide.Complete.
Proof.
  intros Hex Hks.
  destruct (Execute_CG g start input res ks Hex Hks) as (Hverr & Hnd & -> & ->).
  apply (after_ind g start input (fun l st => forall p k,
    (p, k) ∈ graph.edges (glide.cg st)
    <-> graph.edge (glide.G g) p k /\ glide.before l p k
        /\ glide.state st !! p = Some glide.Complete) ks Hverr).
  - intros p k. simpl. split; [inversion 1|].
    intros (_ & (a & b & Heq & _) & _). now destruct a.
  - intros pre k0 post Heq IH Hk p k.
    assert (Hk0 : k0 ∉ pre).
    { rewrite Heq in Hnd. apply NoDup_app in Hnd as (_ & Hnd & _).
      intros Hin. apply (Hnd k0 Hin). set_solver. }
    assert (Hpre : glide.verr (glide.after g start input pre) = None)
      by (apply (ks_pre_verr g start input ks Hverr pre (k0 :: post) Heq)).
    assert (Hdom : forall q, glide.state (glide.after g start input pre) !! q
                             = Some glide.Complete -> q ∈ pre).
    { intros q Hq. apply (elem_of_list_to_set (C := gset string)).
      rewrite <- (after_dom g start input pre Hpre). apply elem_of_dom. eauto. }
    assert (Hsame : forall q, q ∈ pre ->
              glide.state (glide.after g start input (pre ++ [k0])) !! q
              = glide.state (glide.after g start input pre) !! q).
    { intros q Hq. apply (visit_other g start input k0 _ _ q Hk). congruence. }
    destruct (visit_cg g start input k0 _ _ Hk) as (v & _ & _ & _ & Hedges).
    rewrite Hedges, IH, (before_snoc pre k0 p k Hk0). split.
    + intros [(He & Hb & Hc)|(-> & Hne & Hp & Hc)].
      * pose proof (before_elem_of _ _ _ Hb) as [Hin _].
        rewrite (Hsame p Hin). auto.
      * pose proof (Hdom p Hc) as Hin. rewrite (Hsame p Hin).
        split; [now apply elem_of_PredecessorMap|]. auto.
    + intros (He & [Hb|[-> Hin]] & Hc).
      * pose proof (before_elem_of _ _ _ Hb) as [Hin _].
        rewrite (Hsame p Hin) in Hc. auto.
      * rewrite (Hsame p Hin) in Hc. right.
        repeat split; auto; [congruence|now apply elem_of_PredecessorMap].
Qed.

Lemma CG_edges_witness :
  let g := examples.graphOf (examples.compile examples.andOneFalse) in
  let res := examples.resultOf g "request" [] in
  let ks := ["request"; "default.1.0"; "default.1.1"; "default.1"; "approved"] in
  (("default.1.0", "default.1") ∈ graph.edges (glide.CG res)
   <-> graph.edge (glide.G g) "default.1.0" "default.1"
       /\ glide.before ks "default.1.0" "default.1"
       /\ glide.State_ res !! "default.1.0" = Some glide.Complete)
  /\ (("default.1.1", "default.1") ∈ graph.edges (glide.CG res)
      <-> graph.edge (glide.G g) "default.1.1" "default.1"
          /\ glide.before ks "default.1.1" "default.1"
          /\ glide.State_ res !! "default.1.1" = Some glide.Complete).
Proof.
  intros g res ks.
  split; apply (CG_edges g "request" [] res ks); vm_compute; reflexivity.
Defined.

(** X13: when every vertex of the graph is stored under its hash, as
    in a graph that the compiler builds, the completion graph of a
    result has the vertices that the traversal visited, which are the
    ones with an entry in the state map, and no other vertex of the
    graph. *)
Theorem CG_vertices (g : glide.Graph) (start : string) (input : list (string * any))
        (res : glide.Result) :
  glide.Execute g start input = Some (inr res) ->
  map_Forall (fun k v => step.Hash v = k) (graph.vertices (glide.G g)) ->
  forall k,
    graph.vertices (glide.CG res) !! k
    = match glide.State_ res !! k with
      | Some _ => graph.vertices (glide.G g) !! k
      | None => None
      end.
Proof.
  intros Hex Hhash.
  destruct (order_is_Some (glide.G g) start) as [ks Hks].
  destruct (Execute_CG g start input res ks Hex Hks) as (Hverr & Hnd & -> & ->).
  apply (after_ind g start input (fun l st =>
    graph.hash (glide.cg st) = step.Hash
    /\ forall k,
         graph.vertices (glide.cg st) !! k
         = match glide.state st !! k with
           | Some _ => graph.vertices (glide.G g) !! k
           | None => None
           end) ks Hverr).
  - split; [reflexivity|]. intros k. simpl. now rewrite !lookup_empty.
  - intros pre k0 post Heq [IHh IH] Hk.
    destruct (visit_cg g start input k0 _ _ Hk) as (v & Hv & Hh & Hvs & _).
    split; [congruence|]. intros k. rewrite Hvs, IHh, (Hhash k0 v Hv).
    destruct (decide (k = k0)) as [->|Hne].
    + rewrite lookup_insert_eq.
      assert (Hin : k0 ∈ dom (glide.state (glide.after g start input (pre ++ [k0])))).
      { rewrite (visit_dom g start input k0 _ _ Hk). set_solver. }
      apply elem_of_dom in Hin as [s ->]. now rewrite Hv.
    + rewrite lookup_insert_ne by congruence.
      now rewrite (visit_other g start input k0 _ _ k Hk), IH.
Qed.

Lemma CG_vertices_witness :
  let g := examples.graphOf (examples.compile examples.twoStarts) in
  let res := examples.resultOf g "request" [] in
  graph.vertices (glide.CG res) !! "first.1" = graph.vertices (glide.G g) !! "first.1"
  /\ graph.vertices (glide.CG res) !! "second.1" = None.
Proof.
  intros g res.
  assert (Hex : glide.Execute g "request" [] = Some (inr res))
    by (vm_compute; reflexivity).
  assert (Hhash : map_Forall (fun k v => step.Hash v = k) (graph.vertices (glide.G g)))
    by (apply (bool_decide_unpack _); vm_compute; reflexivity).
  split.
  - exact (CG_vertices g "request" [] res Hex Hhash "first.1").
  - exact (CG_vertices g "request" [] res Hex Hhash "second.1").
Defined.

(** ** The compiler *)

(** Induction over the tree of a step. *)
Lemma Step_children_ind (P : step.Step -> Prop) :
  (forall s, Forall P (step.Children s) -> P s) -> forall s, P s.
Proof.
  intros H. fix IH 1. intros [pos name body children node pass]. apply H. simpl.
  induction children as [|c cs IHcs]; constructor; [apply IH|exact IHcs].
Qed.

(** [visitStatement], with its parts by their names. *)
Lemma visitStatement_eq (Env : cel.Env) (MaxDepth NumStatements Depth Index : Z)
      (Parent Previous : option step.Step) (Statement : step.Step) (g : glide.Graph) :
  glide.visitStatement Env MaxDepth NumStatements Depth Index Parent Previous Statement g
  = if (MaxDepth <? Depth)%Z then
      inl (errors.errorString "compiler max depth was exceeded")
    else
      match glide.visitSelf Env NumStatements Depth Index Parent Previous Statement g with
      | inl err => inl err
      | inr (e, g1) =>
          glide.visitChildren Env MaxDepth NumStatements Depth e Previous
                              (step.Children Statement) 0 g1
      end.
Proof.
  destruct Statement as [pos name body children node pass].
  cbn [glide.visitStatement]. unfold glide.visitSelf, glide.positioned.
  destruct (MaxDepth <? Depth)%Z; [reflexivity|].
  cbv zeta.
  match goal with
  | |- match ?a with _ => _ end = match match ?b with _ => _ end with _ => _ end =>
      change a with b; destruct b as [err|G1]; [reflexivity|]
  end.
  match goal with
  | |- match ?a with _ => _ end = match match ?b with _ => _ end with _ => _ end =>
      change a with b; destruct b as [err|G2]; [reflexivity|]
  end.
  match goal with
  | |- match ?a with _ => _ end = match match ?b with _ => _ end with _ => _ end =>
      change a with b; destruct b as [err|G3]; [reflexivity|]
  end.
  match goal with
  | |- match ?a with _ => _ end = match match ?b with _ => _ end with _ => _ end =>
      change a with b; destruct b as [err|g1]; [reflexivity|]
  end.
  cbn [step.Children].
  match goal with
  | |- _ = glide.visitChildren _ _ _ _ ?e _ _ _ _ => set (E := e); clearbody E
  end.
  generalize 0%Z. revert g1.
  induction children as [|c cs IH]; intros g1 i; [reflexivity|].
  cbn [glide.visitChildren].
  destruct (glide.visitStatement _ _ _ _ _ _ _ c g1) as [err|g2]; [reflexivity|].
  apply IH.
Qed.

Lemma positioned_body (Parent : option step.Step) (Index : Z) (s : step.Step) :
  step.body (glide.positioned Parent Index s) = step.body s
  /\ step.Children (glide.positioned Parent Index s) = step.Children s
  /\ step.Pass (glide.positioned Parent Index s) = step.Pass s
  /\ step.Node (glide.positioned Parent Index s) = step.Node s.
Proof. unfold glide.positioned. destruct Parent; repeat split. Qed.

Lemma compileBody_inr (Env : cel.Env) (NumStatements Index Depth : Z)
      (e : step.Step) (key : string) (g g1 : glide.Graph) :
  glide.compileBody Env NumStatements Index Depth e key g = inr g1 ->
  glide.G g1 = glide.G g
  /\ (forall k, is_Some (glide.programs g !! k) -> is_Some (glide.programs g1 !! k))
  /\ (forall expr, step.body e = step.Check expr -> is_Some (glide.programs g1 !! key))
  /\ (forall n, step.body e = step.Ref n ->
        Depth = 0%Z
        /\ (node.Type' n = node.Start /\ Index = 0%Z
            \/ node.Type' n = node.Outcome /\ Index = (NumStatements - 1)%Z)).
Proof.
  unfold glide.compileBody. destruct (step.body e) as [|expr|op|n|name a].
  - intros [= <-]. split; [reflexivity|]. split; [auto|]. split; discriminate.
  - destruct (cel.Compile Env expr) as [issues|ast]; [discriminate|].
    destruct (negb _); [discriminate|].
    destruct (cel.program ast) as [err|prg]; [discriminate|].
    intros [= <-]. simpl. split; [reflexivity|]. split; [|split; [|discriminate]].
    + intros k Hk. destruct (decide (k = key)) as [->|Hne].
      * rewrite lookup_insert_eq. eauto.
      * now rewrite lookup_insert_ne.
    + intros _ _. rewrite lookup_insert_eq. eauto.
  - intros [= <-]. split; [reflexivity|]. split; [auto|]. split; discriminate.
  - destruct (node.Type' n) eqn:Ht; simpl; [discriminate| |].
    + destruct (Index =? 0)%Z eqn:Hi; simpl; [|discriminate].
      destruct (Depth =? 0)%Z eqn:Hd; simpl; [|discriminate].
      intros [= <-]. split; [reflexivity|]. split; [auto|]. split; [discriminate|].
      intros n' [= <-]. split; [lia|]. left. split; [assumption|lia].
    + destruct (Index =? NumStatements - 1)%Z eqn:Hi; simpl; [|discriminate].
      destruct (Depth =? 0)%Z eqn:Hd; simpl; [|discriminate].
      intros [= <-]. split; [reflexivity|]. split; [auto|]. split; [discriminate|].
      intros n' [= <-]. split; [lia|]. right. split; [assumption|lia].
  - intros [= <-]. split; [reflexivity|]. split; [auto|]. split; discriminate.
Qed.

(** The graph of the library under the steps of the compiler: vertices
    under their hashes, edges between different vertices. *)
Lemma AddVertex_keeps (G0 G1 : graph.Graph step.Step) (e : step.Step) :
  graph.hash G0 = step.Hash ->
  match graph.AddVertex G0 e with
  | inl err => if errors.is_sentinel err errors.ErrVertexAlreadyExists
               then inr G0 else inl err
  | inr G' => inr G'
  end = inr G1 ->
  graph.hash G1 = step.Hash
  /\ graph.edges G1 = graph.edges G0
  /\ is_Some (graph.vertices G1 !! step.Hash e)
  /\ (forall k v, graph.vertices G1 !! k = Some v ->
        graph.vertices G0 !! k = Some v
        \/ (k = step.Hash e /\ v = e /\ graph.vertices G0 !! k = None))
  /\ (forall k, is_Some (graph.vertices G0 !! k) -> is_Some (graph.vertices G1 !! k)).
Proof.
  intros Hh. unfold graph.AddVertex. rewrite Hh.
  destruct (graph.vertices G0 !! step.Hash e) as [v0|] eqn:Hv0; simpl.
  - intros [= <-]. split; [assumption|]. split; [reflexivity|].
    split; [rewrite Hv0; eauto|]. split; auto.
  - intros [= <-]. simpl. split; [reflexivity|]. split; [reflexivity|].
    split; [|split].
    + rewrite lookup_insert_eq. eauto.
    + intros k v. destruct (decide (k = step.Hash e)) as [->|Hne].
      * rewrite lookup_insert_eq. intros [= <-]. auto.
      * rewrite lookup_insert_ne by congruence. auto.
    + intros k Hk. destruct (decide (k = step.Hash e)) as [->|Hne].
      * rewrite lookup_insert_eq. eauto.
      * now rewrite lookup_insert_ne by congruence.
Qed.

Lemma visitSelf_inr (Env : cel.Env) (NumStatements Depth Index : Z)
      (Parent Previous : option step.Step) (Statement e : step.Step)
      (g g1 : glide.Graph) :
  glide.visitSelf Env NumStatements Depth Index Parent Previous Statement g
  = inr (e, g1) ->
  glide.wellFormed g ->
  e = glide.positioned Parent Index Statement
  /\ glide.wellFormed g1
  /\ (forall k, is_Some (graph.vertices (glide.G g) !! k) ->
        is_Some (graph.vertices (glide.G g1) !! k))
  /\ is_Some (graph.vertices (glide.G g1) !! step.Hash e)
  /\ (forall n, step.body Statement = step.Ref n ->
        Depth = 0%Z
        /\ (node.Type' n = node.Start /\ Index = 0%Z
            \/ node.Type' n = node.Outcome /\ Index = (NumStatements - 1)%Z)).
Proof.
  intros Hself (Hh & Hhash & Hprg & Hedges). unfold glide.visitSelf in Hself.
  set (e0 := glide.positioned Parent Index Statement) in *. cbv zeta in Hself.
  destruct (match graph.AddVertex (glide.G g) e0 with
            | inl err => _ | inr G' => _ end) as [err|G1] eqn:Hadd;
    [discriminate|].
  apply (AddVertex_keeps _ _ _ Hh) in Hadd as (Hh1 & He1 & Hkey1 & Hold1 & Hmono1).
  destruct (match Parent with Some parent => _ | None => _ end)
    as [err|G2] eqn:Hpar; [discriminate|].
  assert (H2 : graph.hash G2 = step.Hash
               /\ graph.vertices G2 = graph.vertices G1
               /\ forall x y, graph.edge G2 x y ->
                    is_Some (graph.vertices G1 !! x)
                    /\ is_Some (graph.vertices G1 !! y) /\ x <> y).
  { assert (Hbase : forall x y, graph.edge G1 x y ->
              is_Some (graph.vertices G1 !! x)
              /\ is_Some (graph.vertices G1 !! y) /\ x <> y).
    { intros x y Hxy. unfold graph.edge in Hxy. rewrite He1 in Hxy.
      destruct (Hedges x y Hxy) as (Hx & Hy & Hne). auto. }
    destruct Parent as [parent|].
    - apply AddEdge_inr in Hpar as (Hh2 & Hv2 & He2 & Hs & Ht & Hne & _).
      split; [congruence|]. split; [assumption|].
      intros x y Hxy. unfold graph.edge in Hxy. rewrite He2 in Hxy.
      apply elem_of_app in Hxy as [Hxy|Hxy]; [now apply Hbase|].
      apply list_elem_of_singleton in Hxy as [= -> ->]. auto.
    - inversion Hpar; subst G2. auto. }
  destruct H2 as (Hh2 & Hv2 & Hedges2).
  destruct (match step.Children e0 with [] => _ | _ => _ end)
    as [err|G3] eqn:Hprev; [discriminate|].
  assert (H3 : graph.hash G3 = step.Hash
               /\ graph.vertices G3 = graph.vertices G1
               /\ forall x y, graph.edge G3 x y ->
                    is_Some (graph.vertices G1 !! x)
                    /\ is_Some (graph.vertices G1 !! y) /\ x <> y).
  { destruct (step.Children e0) as [|c cs]; [destruct Previous as [previous|]|].
    - destruct (graph.AddEdge G2 _ _) as [err|G3'] eqn:Hadd3; [discriminate|].
      inversion Hprev; subst G3'.
      apply AddEdge_inr in Hadd3 as (Hh3 & Hv3 & He3 & Hs & Ht & Hne & _).
      rewrite Hv2 in *.
      split; [congruence|]. split; [congruence|].
      intros x y Hxy. unfold graph.edge in Hxy. rewrite He3 in Hxy.
      apply elem_of_app in Hxy as [Hxy|Hxy]; [now apply Hedges2|].
      apply list_elem_of_singleton in Hxy as [= -> ->]. auto.
    - inversion Hprev; subst G3. auto.
    - inversion Hprev; subst G3. auto. }
  destruct H3 as (Hh3 & Hv3 & Hedges3).
  destruct (glide.compileBody _ _ _ _ _ _ _) as [err|g1'] eqn:Hbody; [discriminate|].
  inversion Hself; subst e g1'. clear Hself.
  apply compileBody_inr in Hbody as (HG & Hprg1 & Hcheck & Href).
  simpl in HG, Hprg1.
  destruct (positioned_body Parent Index Statement) as (Hb & _).
  fold e0 in Hb.
  split; [reflexivity|]. split; [|split; [|split]].
  - unfold glide.wellFormed. rewrite HG, Hv3. split; [assumption|]. split; [|split].
    + intros k v Hkv. destruct (Hold1 k v Hkv) as [Hold|(-> & -> & _)]; [|reflexivity].
      now apply (Hhash k v).
    + intros k v expr Hkv Hbv.
      destruct (Hold1 k v Hkv) as [Hold|(-> & -> & _)].
      * apply Hprg1. now apply (Hprg k v expr).
      * now apply (Hcheck expr).
    + intros x y Hxy. apply Hedges3. exact Hxy.
  - intros k Hk. rewrite HG, Hv3. now apply Hmono1.
  - now rewrite HG, Hv3.
  - intros n Hn. apply Href.
    transitivity (step.body Statement);
      [exact (proj1 (positioned_body Parent Index Statement))|exact Hn].
Qed.

(** A visit of a statement that succeeds keeps the graph well formed
    and keeps its vertices. *)
Lemma visitStatement_wellFormed : forall (Statement : step.Step)
    (Env : cel.Env) (MaxDepth NumStatements Depth Index : Z)
    (Parent Previous : option step.Step) (g g' : glide.Graph),
  glide.visitStatement Env MaxDepth NumStatements Depth Index Parent Previous
                       Statement g = inr g' ->
  glide.wellFormed g ->
  glide.wellFormed g'
  /\ (forall k, is_Some (graph.vertices (glide.G g) !! k) ->
        is_Some (graph.vertices (glide.G g') !! k)).
Proof.
  induction Statement as [Statement IH] using Step_children_ind.
  intros Env MaxDepth NumStatements Depth Index Parent Previous g g' Hvisit Hwf.
  rewrite visitStatement_eq in Hvisit.
  destruct (MaxDepth <? Depth)%Z; [discriminate|].
  destruct (glide.visitSelf _ _ _ _ _ _ _ _) as [err|[e g1]] eqn:Hself; [discriminate|].
  apply visitSelf_inr in Hself as (_ & Hwf1 & Hmono1 & _); [|assumption].
  revert Hvisit. generalize 0%Z.
  assert (Hmono : forall k, is_Some (graph.vertices (glide.G g) !! k) ->
                    is_Some (graph.vertices (glide.G g1) !! k)) by exact Hmono1.
  clear Hmono1. revert g1 Hwf1 Hmono.
  induction IH as [|c cs Hc _ IHcs]; intros g1 Hwf1 Hmono i Hvisit.
  - inversion Hvisit; subst g'. auto.
  - cbn [glide.visitChildren] in Hvisit.
    destruct (glide.visitStatement _ _ _ _ _ _ _ c g1) as [err|g2] eqn:Hchild;
      [discriminate|].
    apply Hc in Hchild as [Hwf2 Hmono2]; [|assumption].
    assert (Hm : forall k, is_Some (graph.vertices (glide.G g) !! k) ->
                   is_Some (graph.vertices (glide.G g2) !! k)) by auto.
    exact (IHcs g2 Hwf2 Hm _ Hvisit).
Qed.

Lemma compileStatements_inr (Env : cel.Env) (MaxDepth NumStatements : Z)
      (Statements : list step.Step) : forall (i0 : Z) (prev : option step.Step)
      (g g' : glide.Graph),
  glide.compileStatements Env MaxDepth NumStatements Statements i0 prev g = inr g' ->
  glide.wellFormed g ->
  glide.wellFormed g'
  /\ (forall k, is_Some (graph.vertices (glide.G g) !! k) ->
        is_Some (graph.vertices (glide.G g') !! k))
  /\ forall (j : nat) (s : step.Step), Statements !! j = Some s ->
       exists prev' g1 g2,
         glide.visitStatement Env MaxDepth NumStatements 0 (i0 + Z.of_nat j) None
                              prev' s g1 = inr g2
         /\ glide.wellFormed g1
         /\ forall k, is_Some (graph.vertices (glide.G g2) !! k) ->
              is_Some (graph.vertices (glide.G g') !! k).
Proof.
  induction Statements as [|s0 rest IH]; intros i0 prev g g' Hc Hwf.
  - inversion Hc; subst g'. split; [assumption|]. split; [auto|].
    intros j s Hj. now rewrite lookup_nil in Hj.
  - cbn [glide.compileStatements] in Hc.
    destruct (glide.visitStatement _ _ _ _ _ _ _ s0 g) as [err|g1] eqn:Hvisit;
      [discriminate|].
    destruct (visitStatement_wellFormed _ _ _ _ _ _ _ _ _ _ Hvisit Hwf) as [Hwf1 Hmono1].
    destruct (IH _ _ _ _ Hc Hwf1) as (Hwf' & Hmono' & Hall).
    split; [assumption|]. split; [auto|].
    intros [|j] s Hj.
    + simpl in Hj. inversion Hj; subst s0. exists prev, g, g1.
      replace (i0 + Z.of_nat 0)%Z with i0 by lia. auto.
    + simpl in Hj. destruct (Hall j s Hj) as (prev' & g2 & g3 & Hv & Hwf2 & Hm).
      exists prev', g2, g3.
      replace (i0 + Z.of_nat (S j))%Z with (i0 + 1 + Z.of_nat j)%Z by lia. auto.
Qed.

Lemma assertNode_None (s : step.Step) (wantType : node.Type_) :
  glide.assertNode s wantType = None ->
  exists n, step.body s = step.Ref n /\ node.Type' n = wantType.
Proof.
  unfold glide.assertNode. destruct (step.body s) as [| | |n|]; try discriminate.
  destruct (node.Type_eqb (node.Type' n) wantType) eqn:Ht; [|discriminate].
  intros _. exists n. split; [reflexivity|].
  now destruct (node.Type' n), wantType.
Qed.

Lemma compilePass_inr (g g' : glide.Graph) (PassID : string) (Env : cel.Env)
      (Statements : list step.Step) (MaxDepth : Z) :
  glide.compilePass g PassID Env Statements MaxDepth = inr g' ->
  (2 <= length Statements)%nat
  /\ (exists first n, head Statements = Some first
        /\ step.body first = step.Ref n /\ node.Type' n = node.Start)
  /\ (exists final n, last Statements = Some final
        /\ step.body final = step.Ref n /\ node.Type' n = node.Outcome)
  /\ glide.compileStatements Env MaxDepth (Z.of_nat (length Statements))
                             Statements 0 None g = inr g'.
Proof.
  unfold glide.compilePass.
  destruct (length Statements <? 2)%nat eqn:Hlen; [discriminate|].
  apply Nat.ltb_ge in Hlen.
  destruct (head Statements) as [first|] eqn:Hhead; [|discriminate].
  destruct (glide.assertNode first node.Start) eqn:Hfirst; [discriminate|].
  destruct (last Statements) as [final|] eqn:Hlast; [|discriminate].
  destruct (glide.assertNode final node.Outcome) eqn:Hfinal; [discriminate|].
  apply assertNode_None in Hfirst as (n1 & Hb1 & Ht1).
  apply assertNode_None in Hfinal as (n2 & Hb2 & Ht2).
  intros Hc. split; [assumption|]. split; [eauto|]. split; [eauto|assumption].
Qed.

Lemma compilePasses_inr (Env : cel.Env) (MaxDepth : Z)
      (passes : list (string * glide.Path)) : forall g g' : glide.Graph,
  glide.compilePasses Env MaxDepth passes g = inr g' ->
  glide.wellFormed g ->
  glide.wellFormed g'
  /\ (forall k, is_Some (graph.vertices (glide.G g) !! k) ->
        is_Some (graph.vertices (glide.G g') !! k))
  /\ forall name p, (name, p) ∈ passes ->
       exists g1 g2,
         glide.compilePass g1 name Env (glide.Steps p) MaxDepth = inr g2
         /\ glide.wellFormed g1
         /\ forall k, is_Some (graph.vertices (glide.G g2) !! k) ->
              is_Some (graph.vertices (glide.G g') !! k).
Proof.
  induction passes as [|[passID p0] rest IH]; intros g g' Hc Hwf.
  - inversion Hc; subst g'. split; [assumption|]. split; [auto|].
    intros name p Hin. inversion Hin.
  - cbn [glide.compilePasses] in Hc.
    destruct (glide.compilePass g passID Env (glide.Steps p0) MaxDepth)
      as [err|g1] eqn:Hpass; [discriminate|].
    pose proof (compilePass_inr _ _ _ _ _ _ Hpass) as (_ & _ & _ & Hstmts).
    destruct (compileStatements_inr _ _ _ _ _ _ _ _ Hstmts Hwf) as (Hwf1 & Hmono1 & _).
    destruct (IH _ _ Hc Hwf1) as (Hwf' & Hmono' & Hall).
    split; [assumption|]. split; [auto|].
    intros name p Hin. apply elem_of_cons in Hin as [[= -> ->]|Hin].
    + exists g, g1. auto.
    + apply Hall in Hin as (g2 & g3 & Hp & Hwf2 & Hm). eauto 6.
Qed.

Lemma NewGraph_wellFormed : glide.wellFormed glide.NewGraph.
Proof.
  split; [reflexivity|]. split; [|split].
  - intros k v Hk. simpl in Hk. now rewrite lookup_empty in Hk.
  - intros k v expr Hk. simpl in Hk. now rewrite lookup_empty in Hk.
  - intros x y Hxy. inversion Hxy.
Qed.

(** *** Slices in memory *)










(** *** The stored steps in memory *)












(** The stored steps of the graph that [Compile] returns: the steps
    that the visits added, with the positions that the memory has. *)
Lemma settled_vertices (ps : glide.Positions) (g : glide.Graph) (k : string) :
  graph.vertices (glide.G (glide.settled ps g)) !! k
  = (fun v => match glide.stored ps !! k with
              | Some position =>
                  step.set_Position v (slice.ints (glide.memory ps) position)
              | None => v
              end) <$> graph.vertices (glide.G g) !! k.
Proof.
  unfold glide.settled. cbn [glide.G graph.vertices].
  rewrite map_lookup_imap. now destruct (graph.vertices (glide.G g) !! k).
Qed.

Lemma settled_vertex (ps : glide.Positions) (g : glide.Graph) (k : string)
      (v' : step.Step) :
  graph.vertices (glide.G (glide.settled ps g)) !! k = Some v' ->
  exists v position,
    graph.vertices (glide.G g) !! k = Some v /\ v' = step.set_Position v position.
Proof.
  rewrite settled_vertices.
  destruct (graph.vertices (glide.G g) !! k) as [v|]; [|discriminate].
  intros [= <-]. exists v. destruct (glide.stored ps !! k) as [position|]; [eauto|].
  exists (step.Position v). split; [reflexivity|]. now destruct v.
Qed.

Lemma settled_is_Some (ps : glide.Positions) (g : glide.Graph) (k : string) :
  is_Some (graph.vertices (glide.G (glide.settled ps g)) !! k)
  <-> is_Some (graph.vertices (glide.G g) !! k).
Proof.
  rewrite settled_vertices. apply fmap_is_Some.
Qed.

(** The passes of a compilation that succeeds: the graph that is
    returned is the graph of the visits, read from memory. *)
Lemma Compile_inr (NewEnv : jsoncel.Provider -> error + cel.Env)
      (registry : string -> option jsoncel.decls.Type_)
      (c : glide.Compiler) (g : glide.Graph) :
  glide.Compile NewEnv registry c = inr g ->
  exists g0 ps,
    g = glide.settled ps g0
    /\ glide.wellFormed g0
    /\ exists env,
         glide.compilePasses env
           (if (glide.MaxDepth c =? 0)%Z then glide.DefaultMaxDepth
            else glide.MaxDepth c)
           (glide.Workflow (glide.Program_ c)) glide.NewGraph = inr g0
         /\ forall name p, (name, p) ∈ glide.Workflow (glide.Program_ c) ->
              exists g1 g2,
                glide.compilePass g1 name env (glide.Steps p)
                  (if (glide.MaxDepth c =? 0)%Z then glide.DefaultMaxDepth
                   else glide.MaxDepth c) = inr g2
                /\ glide.wellFormed g1
                /\ forall k, is_Some (graph.vertices (glide.G g2) !! k) ->
                     is_Some (graph.vertices (glide.G g0) !! k).
Proof.
  unfold glide.Compile. cbv zeta.
  destruct (NewEnv _) as [err|env]; [discriminate|].
  destruct (glide.compilePasses _ _ _ _) as [err|g0] eqn:Hc; [discriminate|].
  intros [= <-]. exists g0. eexists. split; [reflexivity|].
  pose proof Hc as Hc'.
  apply compilePasses_inr in Hc' as (Hwf & _ & Hall); [|exact NewGraph_wellFormed].
  split; [assumption|]. exists env. split; [exact Hc|exact Hall].
Qed.





(** The two checks of [deepSiblings] are nested three deep.  Their
    positions are slices of one array, with room for four indices, that
    the position of their parent has: the second check writes its index
    where the first has written its own, and the step that is stored
    under the key of the first check has the position, and so the hash,
    of the second.  The program compiles; no execution of its graph
    returns a result, in either order of the two edges that leave the
    start. *)
Example deep_siblings_share_a_position :
  let g := examples.graphOf (examples.compile examples.deepSiblings) in
  let ps := glide.placePasses (glide.Workflow examples.deepSiblings)
                              (glide.mkPositions ∅ ∅) in
  examples.compile examples.deepSiblings = inr g
  /\ glide.stored ps !! "default.1.0.0.0" = Some (slice.mkSlice 4 4)
  /\ glide.stored ps !! "default.1.0.0.1" = Some (slice.mkSlice 4 4)
  /\ glide.memory ps !! 4%nat = Some [1; 0; 0; 1]%Z
  /\ step.Position <$> graph.vertices (glide.G g) !! "default.1.0.0.0"
     = Some [1; 0; 0; 1]%Z
  /\ step.Hash <$> graph.vertices (glide.G g) !! "default.1.0.0.0"
     = Some "default.1.0.0.1"
  /\ glide.Execute g "request" []
     = Some (inl (errors.withMessage
                    (errors.withMessage
                       (errors.sentinel errors.ErrVertexNotFound)
                       "could not find target vertex with hash default.1.0.0.0")
                    "adding edge to complete graph"))
  /\ glide.Execute (examples.reordered g) "request" []
     = Some (inl (errors.sentinel errors.ErrVertexAlreadyExists)).
Proof.
  intros g ps. repeat split; vm_compute; reflexivity.
Qed.

(** X15: in the graph of a program that compiles, every check vertex
    has a program. *)
Theorem Compile_programs (NewEnv : jsoncel.Provider -> error + cel.Env)
        (registry : string -> option jsoncel.decls.Type_)
        (c : glide.Compiler) (g : glide.Graph) (k : string) (v : step.Step)
        (expr : string) :
  glide.Compile NewEnv registry c = inr g ->
  graph.vertices (glide.G g) !! k = Some v ->
  step.body v = step.Check expr ->
  is_Some (glide.programs g !! k).
Proof.
  intros Hc Hv Hbody.
  apply Compile_inr in Hc as (g0 & ps & -> & (_ & _ & Hprg & _) & _).
  apply settled_vertex in Hv as (v0 & position & Hv0 & ->).
  exact (Hprg k v0 expr Hv0 Hbody).
Qed.

Lemma Compile_programs_witness :
  is_Some (glide.programs (examples.graphOf (examples.compile examples.andOneFalse))
             !! "default.1.1").
Proof.
  eapply (Compile_programs examples.NewEnv examples.emptyRegistry
            (glide.mkCompiler examples.andOneFalse None 0) _ "default.1.1" _ "false");
    vm_compute; reflexivity.
Defined.

(** *** The shape of a program that compiles *)

Lemma visitSelf_body (Env : cel.Env) (NumStatements Depth Index : Z)
      (Parent Previous : option step.Step) (Statement e : step.Step)
      (g g1 : glide.Graph) :
  glide.visitSelf Env NumStatements Depth Index Parent Previous Statement g
  = inr (e, g1) ->
  forall n, step.body Statement = step.Ref n ->
    Depth = 0%Z
    /\ (node.Type' n = node.Start /\ Index = 0%Z
        \/ node.Type' n = node.Outcome /\ Index = (NumStatements - 1)%Z).
Proof.
  unfold glide.visitSelf. cbv zeta.
  destruct (match graph.AddVertex (glide.G g) _ with
            | inl err => _ | inr G' => _ end) as [err|G1]; [discriminate|].
  destruct (match Parent with Some parent => _ | None => _ end)
    as [err|G2]; [discriminate|].
  destruct (match step.Children _ with [] => _ | _ => _ end)
    as [err|G3]; [discriminate|].
  destruct (glide.compileBody _ _ _ _ _ _ _) as [err|g1'] eqn:Hbody; [discriminate|].
  intros _ n Hn. apply compileBody_inr in Hbody as (_ & _ & _ & Href).
  apply Href. transitivity (step.body Statement);
    [exact (proj1 (positioned_body Parent Index Statement))|exact Hn].
Qed.

Lemma nesting_le (s : step.Step) (b : Z) :
  (0 <= b)%Z ->
  Forall (fun c => (1 + glide.nesting c <= b)%Z) (step.Children s) ->
  (glide.nesting s <= b)%Z.
Proof.
  intros Hb. destruct s as [pos name body children node pass].
  cbn [glide.nesting step.Children].
  induction 1 as [|c cs Hc _ IH]; [exact Hb|]. lia.
Qed.

Lemma refFree_intro (s : step.Step) :
  (forall n, step.body s <> step.Ref n) ->
  Forall (fun c => glide.refFree c = true) (step.Children s) ->
  glide.refFree s = true.
Proof.
  intros Hb. destruct s as [pos name body children node pass].
  cbn [glide.refFree step.Children step.body] in *.
  intros Hcs.
  assert (Hloop : (fix children (cs : list step.Step) : bool :=
                     match cs with
                     | [] => true
                     | c :: cs' => glide.refFree c && children cs'
                     end) children = true).
  { induction Hcs as [|c cs Hc _ IH]; [reflexivity|]. now rewrite Hc, IH. }
  destruct body as [|expr|op|n|nm a]; try exact Hloop. now destruct (Hb n).
Qed.

(** A visit of a statement that succeeds: the statement is nested within
    the maximum depth, a reference to a node is at depth 0, first when
    the node is a Start node and last when it is an Outcome node. *)
Lemma visitStatement_shape : forall (Statement : step.Step)
    (Env : cel.Env) (MaxDepth NumStatements Depth Index : Z)
    (Parent Previous : option step.Step) (g g' : glide.Graph),
  glide.visitStatement Env MaxDepth NumStatements Depth Index Parent Previous
                       Statement g = inr g' ->
  (0 <= Depth)%Z ->
  (Depth + glide.nesting Statement <= MaxDepth)%Z
  /\ (Depth <> 0%Z -> glide.refFree Statement = true)
  /\ Forall (fun c => glide.refFree c = true) (step.Children Statement)
  /\ (forall n, step.body Statement = step.Ref n ->
        node.Type' n = node.Start /\ Index = 0%Z
        \/ node.Type' n = node.Outcome /\ Index = (NumStatements - 1)%Z).
Proof.
  induction Statement as [Statement IH] using Step_children_ind.
  intros Env MaxDepth NumStatements Depth Index Parent Previous g g' Hvisit Hdepth.
  rewrite visitStatement_eq in Hvisit.
  destruct (MaxDepth <? Depth)%Z eqn:Hmax; [discriminate|].
  apply Z.ltb_ge in Hmax.
  destruct (glide.visitSelf _ _ _ _ _ _ _ _) as [err|[e g1]] eqn:Hself; [discriminate|].
  pose proof (visitSelf_body _ _ _ _ _ _ _ _ _ _ Hself) as Href. clear Hself.
  assert (Hchildren : Forall (fun c => (Depth + 1 + glide.nesting c <= MaxDepth)%Z
                                       /\ glide.refFree c = true)
                             (step.Children Statement)).
  { revert Hvisit. generalize 0%Z. revert g1.
    induction IH as [|c cs Hc _ IHcs]; intros g1 i Hvisit; [constructor|].
    cbn [glide.visitChildren] in Hvisit.
    destruct (glide.visitStatement _ _ _ _ _ _ _ c g1) as [err|g2] eqn:Hchild;
      [discriminate|].
    constructor; [|now apply (IHcs g2 (i + 1)%Z)].
    apply Hc in Hchild as (Hn & Hr & _); [|lia]. split; [assumption|].
    apply Hr. lia. }
  assert (Hrefs : Forall (fun c => glide.refFree c = true) (step.Children Statement)).
  { eapply Forall_impl; [exact Hchildren|]. now intros c [_ Hc]. }
  split; [|split; [|split]].
  - assert (glide.nesting Statement <= MaxDepth - Depth)%Z; [|lia].
    apply nesting_le; [lia|].
    eapply Forall_impl; [exact Hchildren|]. intros c [Hc _]. simpl. lia.
  - intros Hne. apply refFree_intro; [|assumption].
    intros n Hn. destruct (Href n Hn) as [Hd _]. contradiction.
  - assumption.
  - intros n Hn. now destruct (Href n Hn).
Qed.

(** The root statements of a path of a program that compiles. *)
Lemma Compile_statement (NewEnv : jsoncel.Provider -> error + cel.Env)
      (registry : string -> option jsoncel.decls.Type_)
      (c : glide.Compiler) (g : glide.Graph) (name : string) (p : glide.Path)
      (i : nat) (s : step.Step) :
  glide.Compile NewEnv registry c = inr g ->
  (name, p) ∈ glide.Workflow (glide.Program_ c) ->
  glide.Steps p !! i = Some s ->
  exists env prev g1 g2,
    glide.visitStatement env
      (if (glide.MaxDepth c =? 0)%Z then glide.DefaultMaxDepth else glide.MaxDepth c)
      (Z.of_nat (length (glide.Steps p))) 0 (Z.of_nat i) None prev s g1 = inr g2
    /\ glide.wellFormed g1
    /\ forall k, is_Some (graph.vertices (glide.G g2) !! k) ->
         is_Some (graph.vertices (glide.G g) !! k).
Proof.
  intros Hc Hin Hi.
  apply Compile_inr in Hc as (g0 & ps & -> & _ & env & _ & Hall).
  destruct (Hall name p Hin) as (g1 & g2 & Hpass & Hwf1 & Hmono2).
  apply compilePass_inr in Hpass as (_ & _ & _ & Hstmts).
  destruct (compileStatements_inr _ _ _ _ _ _ _ _ Hstmts Hwf1) as (_ & _ & Hvisits).
  destruct (Hvisits i s Hi) as (prev & g3 & g4 & Hvisit & Hwf3 & Hmono4).
  exists env, prev, g3, g4. split; [exact Hvisit|]. split; [assumption|].
  intros k Hk. apply settled_is_Some. auto.
Qed.

(** X16: every path of a program that compiles has at least two
    statements; the first one is a reference to a Start node and the
    last one a reference to an Outcome node. *)
Theorem Compile_path_ends (NewEnv : jsoncel.Provider -> error + cel.Env)
        (registry : string -> option jsoncel.decls.Type_)
        (c : glide.Compiler) (g : glide.Graph) (name : string) (p : glide.Path) :
  glide.Compile NewEnv registry c = inr g ->
  (name, p) ∈ glide.Workflow (glide.Program_ c) ->
  (2 <= length (glide.Steps p))%nat
  /\ (exists first n, head (glide.Steps p) = Some first
        /\ step.body first = step.Ref n /\ node.Type' n = node.Start)
  /\ (exists final n, last (glide.Steps p) = Some final
        /\ step.body final = step.Ref n /\ node.Type' n = node.Outcome).
Proof.
  intros Hc Hin. apply Compile_inr in Hc as (g0 & ps & _ & _ & env & _ & Hall).
  destruct (Hall name p Hin) as (g1 & g2 & Hpass & _).
  apply compilePass_inr in Hpass as (Hlen & Hfirst & Hfinal & _). auto.
Qed.

Lemma Compile_path_ends_witness :
  let p := glide.mkPath "default"
             (map (fun s => glide.setPass s "default")
                  [ s.Start "request"; s.Check "true";
                    s.NamedOutcome "" 1 "approved" ]) in
  (2 <= length (glide.Steps p))%nat
  /\ (exists first n, head (glide.Steps p) = Some first
        /\ step.body first = step.Ref n /\ node.Type' n = node.Start)
  /\ (exists final n, last (glide.Steps p) = Some final
        /\ step.body final = step.Ref n /\ node.Type' n = node.Outcome).
Proof.
  intros p.
  eapply (Compile_path_ends examples.NewEnv examples.emptyRegistry
            (glide.mkCompiler examples.simplePass None 0) _ "default" p).
  - vm_compute. reflexivity.
  - apply list_elem_of_In. simpl. tauto.
Defined.

(** X17: in a program that compiles, a statement that is a reference
    to a node is the first statement of its path when the node is a
    Start node, and the last one when it is an Outcome node; no step
    below a statement is a reference to a node. *)
Theorem Compile_refs (NewEnv : jsoncel.Provider -> error + cel.Env)
        (registry : string -> option jsoncel.decls.Type_)
        (c : glide.Compiler) (g : glide.Graph) (name : string) (p : glide.Path)
        (i : nat) (s : step.Step) :
  glide.Compile NewEnv registry c = inr g ->
  (name, p) ∈ glide.Workflow (glide.Program_ c) ->
  glide.Steps p !! i = Some s ->
  Forall (fun c => glide.refFree c = true) (step.Children s)
  /\ forall n, step.body s = step.Ref n ->
       node.Type' n = node.Start /\ i = 0%nat
       \/ node.Type' n = node.Outcome /\ S i = length (glide.Steps p).
Proof.
  intros Hc Hin Hi.
  destruct (Compile_statement _ _ _ _ _ _ _ _ Hc Hin Hi)
    as (env & prev & g1 & g2 & Hvisit & _).
  apply visitStatement_shape in Hvisit as (_ & _ & Hrefs & Href); [|lia].
  split; [assumption|]. intros n Hn.
  destruct (Href n Hn) as [[Ht Hi0]|[Ht Hi1]]; [left|right]; split; auto; lia.
Qed.

Lemma Compile_refs_witness :
  let p := glide.mkPath "default"
             (map (fun s => glide.setPass s "default")
                  [ s.Start "request";
                    s.Boolean step.And [s.Check "true"; s.Check "false"];
                    s.NamedOutcome "" 1 "approved" ]) in
  let i := 2%nat in
  let s := glide.setPass (s.NamedOutcome "" 1 "approved") "default" in
  Forall (fun c => glide.refFree c = true) (step.Children s)
  /\ forall n, step.body s = step.Ref n ->
       node.Type' n = node.Start /\ i = 0%nat
       \/ node.Type' n = node.Outcome /\ S i = length (glide.Steps p).
Proof.
  intros p i s.
  eapply (Compile_refs examples.NewEnv examples.emptyRegistry
            (glide.mkCompiler examples.andOneFalse None 0) _ "default" p i s).
  - vm_compute. reflexivity.
  - apply list_elem_of_In. simpl. tauto.
  - reflexivity.
Defined.

(** X18: in a program that compiles, the steps below a statement are
    nested at most as deep as the maximum depth of the compiler, which is
    10 when the compiler has none. *)
Theorem Compile_depth (NewEnv : jsoncel.Provider -> error + cel.Env)
        (registry : string -> option jsoncel.decls.Type_)
        (c : glide.Compiler) (g : glide.Graph) (name : string) (p : glide.Path)
        (i : nat) (s : step.Step) :
  glide.Compile NewEnv registry c = inr g ->
  (name, p) ∈ glide.Workflow (glide.Program_ c) ->
  glide.Steps p !! i = Some s ->
  (glide.nesting s
   <= if (glide.MaxDepth c =? 0)%Z then 10 else glide.MaxDepth c)%Z.
Proof.
  intros Hc Hin Hi.
  destruct (Compile_statement _ _ _ _ _ _ _ _ Hc Hin Hi)
    as (env & prev & g1 & g2 & Hvisit & _).
  apply visitStatement_shape in Hvisit as (Hn & _); [|lia].
  unfold glide.DefaultMaxDepth in Hn. lia.
Qed.

Lemma Compile_depth_witness :
  (glide.nesting
     (glide.setPass
        (s.Boolean step.And
           [ s.Check "true";
             s.Boolean step.Or [ s.Boolean step.And [ s.Check "true" ] ] ])
        "default")
   <= 10)%Z.
Proof.
  eapply (Compile_depth examples.NewEnv examples.emptyRegistry
            (glide.mkCompiler examples.nestedBoolean None 0) _ "default"
            (glide.mkPath "default"
               (map (fun s => glide.setPass s "default")
                    [ s.Start "request";
                      s.Boolean step.And
                        [ s.Check "true";
                          s.Boolean step.Or [ s.Boolean step.And [ s.Check "true" ] ] ];
                      s.NamedOutcome "" 1 "approved" ])) 1).
  - vm_compute. reflexivity.
  - apply list_elem_of_In. simpl. tauto.
  - reflexivity.
Defined.

(** *** The vertices of the steps *)

Lemma Hash_positioned (Parent : option step.Step) (Index : Z) (s : step.Step) :
  step.Hash (step.set_Position s (step.Position (glide.positioned Parent Index s)))
  = step.Hash (glide.positioned Parent Index s).
Proof. unfold glide.positioned. now destruct Parent. Qed.

Lemma elem_of_hashes (s : step.Step) (position : list Z) (h : string) :
  h ∈ glide.hashes position s
  <-> h = step.Hash (step.set_Position s position)
      \/ exists (j : nat) (c : step.Step),
           step.Children s !! j = Some c
           /\ h ∈ glide.hashes (position ++ [Z.of_nat j]) c.
Proof.
  destruct s as [pos name body children node pass].
  cbn [glide.hashes step.Children]. rewrite elem_of_cons.
  apply or_iff_compat_l.
  assert (Hloop : forall (cs : list step.Step) (i0 : Z),
    h ∈ (fix children (cs : list step.Step) (i : Z) : list string :=
           match cs with
           | [] => []
           | c :: cs' => glide.hashes (position ++ [i]) c ++ children cs' (i + 1)%Z
           end) cs i0
    <-> exists (j : nat) (c : step.Step),
          cs !! j = Some c /\ h ∈ glide.hashes (position ++ [(i0 + Z.of_nat j)%Z]) c).
  { induction cs as [|c cs IH]; intros i0.
    - split; [inversion 1|]. intros (j & c & Hj & _). now rewrite lookup_nil in Hj.
    - rewrite elem_of_app, IH. split.
      + intros [Hh|(j & c' & Hj & Hh)].
        * exists 0%nat, c. split; [reflexivity|].
          now replace (i0 + Z.of_nat 0)%Z with i0 by lia.
        * exists (S j), c'. split; [exact Hj|].
          now replace (i0 + Z.of_nat (S j))%Z with (i0 + 1 + Z.of_nat j)%Z by lia.
      + intros ([|j] & c' & Hj & Hh).
        * left. simpl in Hj. inversion Hj; subst c'.
          now replace (i0 + Z.of_nat 0)%Z with i0 in Hh by lia.
        * right. exists j, c'. split; [exact Hj|].
          now replace (i0 + Z.of_nat (S j))%Z with (i0 + 1 + Z.of_nat j)%Z in Hh by lia. }
  rewrite Hloop. split; intros (j & c & Hj & Hh); exists j, c; split; auto.
Qed.

Lemma visitChildren_inr (Env : cel.Env) (MaxDepth NumStatements Depth : Z)
      (e : step.Step) (Previous : option step.Step) (cs : list step.Step) :
  forall (i0 : Z) (g g' : glide.Graph),
  glide.visitChildren Env MaxDepth NumStatements Depth e Previous cs i0 g = inr g' ->
  glide.wellFormed g ->
  (forall k, is_Some (graph.vertices (glide.G g) !! k) ->
     is_Some (graph.vertices (glide.G g') !! k))
  /\ forall (j : nat) (c : step.Step), cs !! j = Some c ->
       exists g1 g2,
         glide.visitStatement Env MaxDepth NumStatements (Depth + 1)
                              (i0 + Z.of_nat j) (Some e) Previous c g1 = inr g2
         /\ glide.wellFormed g1
         /\ forall k, is_Some (graph.vertices (glide.G g2) !! k) ->
              is_Some (graph.vertices (glide.G g') !! k).
Proof.
  induction cs as [|c0 rest IH]; intros i0 g g' Hc Hwf.
  - inversion Hc; subst g'. split; [auto|].
    intros j c Hj. now rewrite lookup_nil in Hj.
  - cbn [glide.visitChildren] in Hc.
    destruct (glide.visitStatement _ _ _ _ _ _ _ c0 g) as [err|g1] eqn:Hvisit;
      [discriminate|].
    destruct (visitStatement_wellFormed _ _ _ _ _ _ _ _ _ _ Hvisit Hwf) as [Hwf1 Hmono1].
    destruct (IH _ _ _ Hc Hwf1) as (Hmono' & Hall).
    split; [auto|].
    intros [|j] c Hj.
    + simpl in Hj. inversion Hj; subst c0. exists g, g1.
      replace (i0 + Z.of_nat 0)%Z with i0 by lia. auto.
    + simpl in Hj. destruct (Hall j c Hj) as (g2 & g3 & Hv & Hwf2 & Hm).
      exists g2, g3.
      replace (i0 + Z.of_nat (S j))%Z with (i0 + 1 + Z.of_nat j)%Z by lia. auto.
Qed.

(** A visit of a statement that succeeds leaves a vertex under the hash
    of every step of the statement. *)
Lemma visitStatement_vertices : forall (Statement : step.Step)
    (Env : cel.Env) (MaxDepth NumStatements Depth Index : Z)
    (Parent Previous : option step.Step) (g g' : glide.Graph) (h : string),
  glide.visitStatement Env MaxDepth NumStatements Depth Index Parent Previous
                       Statement g = inr g' ->
  glide.wellFormed g ->
  h ∈ glide.hashes (step.Position (glide.positioned Parent Index Statement)) Statement ->
  is_Some (graph.vertices (glide.G g') !! h).
Proof.
  induction Statement as [Statement IH] using Step_children_ind.
  intros Env MaxDepth NumStatements Depth Index Parent Previous g g' h Hvisit Hwf Hh.
  rewrite visitStatement_eq in Hvisit.
  destruct (MaxDepth <? Depth)%Z; [discriminate|].
  destruct (glide.visitSelf _ _ _ _ _ _ _ _) as [err|[e g1]] eqn:Hself; [discriminate|].
  apply visitSelf_inr in Hself as (-> & Hwf1 & _ & Hkey & _); [|assumption].
  destruct (visitChildren_inr _ _ _ _ _ _ _ _ _ _ Hvisit Hwf1) as [Hmono Hall].
  apply elem_of_hashes in Hh as [->|(j & c & Hj & Hh)].
  - rewrite Hash_positioned. now apply Hmono.
  - destruct (Hall j c Hj) as (g2 & g3 & Hchild & Hwf2 & Hmono3).
    apply Hmono3. rewrite Forall_lookup in IH.
    apply (IH j c Hj _ _ _ _ _ _ _ _ _ h Hchild Hwf2).
    replace (0 + Z.of_nat j)%Z with (Z.of_nat j) by lia. exact Hh.
Qed.

(** X19: the graph of a program that compiles has a vertex under the
    hash of every step of the program, where a statement has its own
    position followed by its index in the path, and a step below it the
    position of its parent followed by its index among the children. *)
Theorem Compile_vertices (NewEnv : jsoncel.Provider -> error + cel.Env)
        (registry : string -> option jsoncel.decls.Type_)
        (c : glide.Compiler) (g : glide.Graph) (name : string) (p : glide.Path)
        (i : nat) (s : step.Step) (h : string) :
  glide.Compile NewEnv registry c = inr g ->
  (name, p) ∈ glide.Workflow (glide.Program_ c) ->
  glide.Steps p !! i = Some s ->
  h ∈ glide.hashes (step.Position s ++ [Z.of_nat i]) s ->
  is_Some (graph.vertices (glide.G g) !! h).
Proof.
  intros Hc Hin Hi Hh.
  destruct (Compile_statement _ _ _ _ _ _ _ _ Hc Hin Hi)
    as (env & prev & g1 & g2 & Hvisit & Hwf1 & Hmono).
  apply Hmono. exact (visitStatement_vertices _ _ _ _ _ _ _ _ _ _ h Hvisit Hwf1 Hh).
Qed.

Lemma Compile_vertices_witness :
  let g := examples.graphOf (examples.compile examples.andOneFalse) in
  is_Some (graph.vertices (glide.G g) !! "default.1.1").
Proof.
  intros g.
  eapply (Compile_vertices examples.NewEnv examples.emptyRegistry
            (glide.mkCompiler examples.andOneFalse None 0) g "default"
            (glide.mkPath "default"
               (map (fun s => glide.setPass s "default")
                    [ s.Start "request";
                      s.Boolean step.And [s.Check "true"; s.Check "false"];
                      s.NamedOutcome "" 1 "approved" ])) 1).
  - vm_compute. reflexivity.
  - apply list_elem_of_In. simpl. tauto.
  - reflexivity.
  - apply list_elem_of_In. vm_compute. tauto.
Defined.

(** *** The edges of the steps *)

Lemma or_iff_3 (A1 A2 A3 B1 B2 B3 : Prop) :
  (A1 <-> B1) -> (A2 <-> B2) -> (A3 <-> B3) -> (A1 \/ A2 \/ A3 <-> B1 \/ B2 \/ B3).
Proof. tauto. Qed.

Lemma elem_of_links (s : step.Step) (position : list Z)
      (parent previous : option string) (x : string * string) :
  x ∈ glide.links position parent previous s
  <-> (exists q, parent = Some q
         /\ x = (step.Hash (step.set_Position s position), q))
      \/ (step.Children s = []
          /\ exists p, previous = Some p
               /\ x = (p, step.Hash (step.set_Position s position)))
      \/ exists (j : nat) (c : step.Step),
           step.Children s !! j = Some c
           /\ x ∈ glide.links (position ++ [Z.of_nat j])
                              (Some (step.Hash (step.set_Position s position)))
                              previous c.
Proof.
  destruct s as [pos name body children node pass].
  cbn [glide.links step.Children]. cbv zeta.
  set (key := step.Hash (step.set_Position _ position)).
  rewrite !elem_of_app.
  assert (Hloop : forall (cs : list step.Step) (i0 : Z),
    x ∈ (fix children (cs : list step.Step) (i : Z) : list (string * string) :=
           match cs with
           | [] => []
           | c :: cs' =>
               glide.links (position ++ [i]) (Some key) previous c
               ++ children cs' (i + 1)%Z
           end) cs i0
    <-> exists (j : nat) (c : step.Step),
          cs !! j = Some c
          /\ x ∈ glide.links (position ++ [(i0 + Z.of_nat j)%Z]) (Some key) previous c).
  { induction cs as [|c cs IH]; intros i0.
    - split; [inversion 1|]. intros (j & c & Hj & _). now rewrite lookup_nil in Hj.
    - rewrite elem_of_app, IH. split.
      + intros [Hh|(j & c' & Hj & Hh)].
        * exists 0%nat, c. split; [reflexivity|].
          now replace (i0 + Z.of_nat 0)%Z with i0 by lia.
        * exists (S j), c'. split; [exact Hj|].
          now replace (i0 + Z.of_nat (S j))%Z with (i0 + 1 + Z.of_nat j)%Z by lia.
      + intros ([|j] & c' & Hj & Hh).
        * left. simpl in Hj. inversion Hj; subst c'.
          now replace (i0 + Z.of_nat 0)%Z with i0 in Hh by lia.
        * right. exists j, c'. split; [exact Hj|].
          now replace (i0 + Z.of_nat (S j))%Z with (i0 + 1 + Z.of_nat j)%Z in Hh by lia. }
  rewrite Hloop. clear Hloop.
  apply or_iff_3.
  - destruct parent as [q|].
    + rewrite list_elem_of_singleton. split; [eauto|]. now intros (q' & [= <-] & ->).
    + split; [inversion 1|]. now intros (q & [=] & _).
  - destruct children as [|c cs]; [destruct previous as [p|]|].
    + rewrite list_elem_of_singleton. split; [eauto|]. now intros (_ & p' & [= <-] & ->).
    + split; [inversion 1|]. now intros (_ & p & [=] & _).
    + split; [inversion 1|]. now intros ([=] & _).
  - split; intros (j & c & Hj & Hh); exists j, c; split; auto.
Qed.

Lemma visitSelf_edges (Env : cel.Env) (NumStatements Depth Index : Z)
      (Parent Previous : option step.Step) (Statement e : step.Step)
      (g g1 : glide.Graph) :
  glide.visitSelf Env NumStatements Depth Index Parent Previous Statement g
  = inr (e, g1) ->
  e = glide.positioned Parent Index Statement
  /\ (forall x, x ∈ graph.edges (glide.G g) -> x ∈ graph.edges (glide.G g1))
  /\ (forall parent, Parent = Some parent ->
        (step.Hash e, step.Hash parent) ∈ graph.edges (glide.G g1))
  /\ (step.Children Statement = [] ->
      forall previous, Previous = Some previous ->
        (step.Hash previous, step.Hash e) ∈ graph.edges (glide.G g1)).
Proof.
  intros Hself. unfold glide.visitSelf in Hself.
  set (e0 := glide.positioned Parent Index Statement) in *. cbv zeta in Hself.
  destruct (match graph.AddVertex (glide.G g) e0 with
            | inl err => _ | inr G' => _ end) as [err|G1] eqn:Hadd;
    [discriminate|].
  assert (He1 : graph.edges G1 = graph.edges (glide.G g)).
  { destruct (graph.AddVertex (glide.G g) e0) as [err|G'] eqn:Hadd'.
    - destruct (errors.is_sentinel _ _); [|discriminate]. now inversion Hadd.
    - inversion Hadd; subst G'. now apply AddVertex_inr in Hadd' as (_ & _ & ? & _). }
  destruct (match Parent with Some parent => _ | None => _ end)
    as [err|G2] eqn:Hpar; [discriminate|].
  assert (H2 : (forall x, x ∈ graph.edges G1 -> x ∈ graph.edges G2)
               /\ forall parent, Parent = Some parent ->
                    (step.Hash e0, step.Hash parent) ∈ graph.edges G2).
  { destruct Parent as [parent|].
    - apply AddEdge_inr in Hpar as (_ & _ & He2 & _). rewrite He2.
      split; [set_solver|]. intros parent' [= <-]. set_solver.
    - inversion Hpar; subst G2. split; [auto|]. discriminate. }
  destruct H2 as [Hmono2 Hparent].
  assert (Hc : step.Children e0 = step.Children Statement)
    by apply positioned_body.
  destruct (match step.Children e0 with [] => _ | _ => _ end)
    as [err|G3] eqn:Hprev; [discriminate|].
  assert (H3 : (forall x, x ∈ graph.edges G2 -> x ∈ graph.edges G3)
               /\ (step.Children Statement = [] ->
                   forall previous, Previous = Some previous ->
                     (step.Hash previous, step.Hash e0) ∈ graph.edges G3)).
  { rewrite <- Hc. destruct (step.Children e0) as [|c cs]; [destruct Previous as [previous|]|].
    - destruct (graph.AddEdge G2 _ _) as [err|G3'] eqn:Hadd3; [discriminate|].
      inversion Hprev; subst G3'.
      apply AddEdge_inr in Hadd3 as (_ & _ & He3 & _). rewrite He3.
      split; [set_solver|]. intros _ previous' [= <-]. set_solver.
    - inversion Hprev; subst G3. split; [auto|]. discriminate.
    - inversion Hprev; subst G3. split; [auto|]. discriminate. }
  destruct H3 as [Hmono3 Hprevious].
  destruct (glide.compileBody _ _ _ _ _ _ _) as [err|g1'] eqn:Hbody; [discriminate|].
  inversion Hself; subst e g1'. clear Hself.
  apply compileBody_inr in Hbody as (HG & _). simpl in HG. rewrite HG.
  split; [reflexivity|]. split; [|split]; auto.
  intros x Hx. apply Hmono3, Hmono2. now rewrite He1.
Qed.

(** A visit of a statement that succeeds keeps the edges of the graph
    and leaves the edges of the statement. *)
Lemma visitStatement_edges : forall (Statement : step.Step)
    (Env : cel.Env) (MaxDepth NumStatements Depth Index : Z)
    (Parent Previous : option step.Step) (g g' : glide.Graph),
  glide.visitStatement Env MaxDepth NumStatements Depth Index Parent Previous
                       Statement g = inr g' ->
  (forall x, x ∈ graph.edges (glide.G g) -> x ∈ graph.edges (glide.G g'))
  /\ forall x,
       x ∈ glide.links (step.Position (glide.positioned Parent Index Statement))
                       (step.Hash <$> Parent) (step.Hash <$> Previous) Statement ->
       x ∈ graph.edges (glide.G g').
Proof.
  induction Statement as [Statement IH] using Step_children_ind.
  intros Env MaxDepth NumStatements Depth Index Parent Previous g g' Hvisit.
  rewrite visitStatement_eq in Hvisit.
  destruct (MaxDepth <? Depth)%Z; [discriminate|].
  destruct (glide.visitSelf _ _ _ _ _ _ _ _) as [err|[e g1]] eqn:Hself; [discriminate|].
  apply visitSelf_edges in Hself as (-> & Hmono1 & Hparent & Hprevious).
  set (e := glide.positioned Parent Index Statement) in *.
  assert (Hchildren :
    (forall x, x ∈ graph.edges (glide.G g1) -> x ∈ graph.edges (glide.G g'))
    /\ forall (j : nat) (c : step.Step), step.Children Statement !! j = Some c ->
         forall x, x ∈ glide.links (step.Position e ++ [Z.of_nat j])
                                   (Some (step.Hash e)) (step.Hash <$> Previous) c ->
                   x ∈ graph.edges (glide.G g')).
  { assert (Hgen : forall (cs : list step.Step), Forall
      (fun c => forall Env MaxDepth NumStatements Depth Index Parent Previous g g',
         glide.visitStatement Env MaxDepth NumStatements Depth Index Parent Previous
                              c g = inr g' ->
         (forall x, x ∈ graph.edges (glide.G g) -> x ∈ graph.edges (glide.G g'))
         /\ forall x,
              x ∈ glide.links (step.Position (glide.positioned Parent Index c))
                              (step.Hash <$> Parent) (step.Hash <$> Previous) c ->
              x ∈ graph.edges (glide.G g')) cs ->
      forall (i0 : Z) (g1 : glide.Graph),
        glide.visitChildren Env MaxDepth NumStatements Depth e Previous cs i0 g1
        = inr g' ->
        (forall x, x ∈ graph.edges (glide.G g1) -> x ∈ graph.edges (glide.G g'))
        /\ forall (j : nat) (c : step.Step), cs !! j = Some c ->
             forall x, x ∈ glide.links (step.Position e ++ [(i0 + Z.of_nat j)%Z])
                                       (Some (step.Hash e)) (step.Hash <$> Previous) c ->
                       x ∈ graph.edges (glide.G g')).
    { clear. intros cs Hcs.
      induction Hcs as [|c cs Hc _ IHcs]; intros i0 g1 Hvisit.
      - inversion Hvisit; subst g'. split; [auto|].
        intros j c Hj. now rewrite lookup_nil in Hj.
      - cbn [glide.visitChildren] in Hvisit.
        destruct (glide.visitStatement _ _ _ _ _ _ _ c g1) as [err|g2] eqn:Hchild;
          [discriminate|].
        apply Hc in Hchild as [Hmono2 Hlinks].
        destruct (IHcs _ _ Hvisit) as [Hmono' Hall].
        split; [auto|]. intros [|j] c' Hj x Hx.
        + simpl in Hj. inversion Hj; subst c'. apply Hmono', Hlinks.
          replace (i0 + Z.of_nat 0)%Z with i0 in Hx by lia.
          unfold glide.positioned. exact Hx.
        + simpl in Hj. apply (Hall j c' Hj x).
          now replace (i0 + Z.of_nat (S j))%Z with (i0 + 1 + Z.of_nat j)%Z in Hx by lia. }
    destruct (Hgen _ IH 0%Z g1 Hvisit) as [Hm Hall]. split; [exact Hm|].
    intros j c Hj x Hx. apply (Hall j c Hj x).
    now replace (0 + Z.of_nat j)%Z with (Z.of_nat j) by lia. }
  destruct Hchildren as [Hmono Hall].
  split; [auto|]. intros x Hx.
  apply elem_of_links in Hx as [(q & Hq & ->)|[(Hleaf & p & Hp & ->)|(j & c & Hj & Hx)]].
  - destruct Parent as [parent|]; [|discriminate]. injection Hq as <-.
    unfold e. rewrite Hash_positioned. apply Hmono. now apply Hparent.
  - destruct Previous as [previous|]; [|discriminate]. injection Hp as <-.
    unfold e. rewrite Hash_positioned. apply Hmono. now apply Hprevious.
  - apply (Hall j c Hj). unfold e in *. now rewrite Hash_positioned in Hx.
Qed.

Lemma compileStatements_edges (Env : cel.Env) (MaxDepth NumStatements : Z)
      (Statements : list step.Step) : forall (i0 : Z) (prev : option step.Step)
      (g g' : glide.Graph),
  glide.compileStatements Env MaxDepth NumStatements Statements i0 prev g = inr g' ->
  (forall x, x ∈ graph.edges (glide.G g) -> x ∈ graph.edges (glide.G g'))
  /\ forall (j : nat) (s : step.Step), Statements !! j = Some s ->
       forall x,
         x ∈ glide.links (step.Position s ++ [(i0 + Z.of_nat j)%Z]) None
               (match j with
                | O => step.Hash <$> prev
                | S j' =>
                    (fun s' => step.Hash (glide.visited s' (i0 + Z.of_nat j')))
                      <$> Statements !! j'
                end) s ->
         x ∈ graph.edges (glide.G g').
Proof.
  induction Statements as [|s0 rest IH]; intros i0 prev g g' Hc.
  - inversion Hc; subst g'. split; [auto|].
    intros j s Hj. now rewrite lookup_nil in Hj.
  - cbn [glide.compileStatements] in Hc.
    destruct (glide.visitStatement _ _ _ _ _ _ _ s0 g) as [err|g1] eqn:Hvisit;
      [discriminate|].
    apply visitStatement_edges in Hvisit as [Hmono1 Hlinks].
    destruct (IH _ _ _ _ Hc) as [Hmono' Hall].
    split; [auto|]. intros [|j] s Hj x Hx.
    + simpl in Hj. inversion Hj; subst s0. apply Hmono', Hlinks.
      replace (i0 + Z.of_nat 0)%Z with i0 in Hx by lia. exact Hx.
    + simpl in Hj. apply (Hall j s Hj x).
      replace (i0 + 1 + Z.of_nat j)%Z with (i0 + Z.of_nat (S j))%Z by lia.
      destruct j as [|j'].
      * simpl. replace (i0 + Z.of_nat 0)%Z with i0 in Hx by lia. exact Hx.
      * replace (i0 + 1 + Z.of_nat j')%Z with (i0 + Z.of_nat (S j'))%Z by lia.
        exact Hx.
Qed.

Lemma compilePasses_edges (Env : cel.Env) (MaxDepth : Z)
      (passes : list (string * glide.Path)) : forall g g' : glide.Graph,
  glide.compilePasses Env MaxDepth passes g = inr g' ->
  (forall x, x ∈ graph.edges (glide.G g) -> x ∈ graph.edges (glide.G g'))
  /\ forall name p, (name, p) ∈ passes ->
       exists g1 g2,
         glide.compileStatements Env MaxDepth (Z.of_nat (length (glide.Steps p)))
                                 (glide.Steps p) 0 None g1 = inr g2
         /\ forall x, x ∈ graph.edges (glide.G g2) -> x ∈ graph.edges (glide.G g').
Proof.
  induction passes as [|[passID p0] rest IH]; intros g g' Hc.
  - inversion Hc; subst g'. split; [auto|]. intros name p Hin. inversion Hin.
  - cbn [glide.compilePasses] in Hc.
    destruct (glide.compilePass g passID Env (glide.Steps p0) MaxDepth)
      as [err|g1] eqn:Hpass; [discriminate|].
    pose proof (compilePass_inr _ _ _ _ _ _ Hpass) as (_ & _ & _ & Hstmts).
    destruct (compileStatements_edges _ _ _ _ _ _ _ _ Hstmts) as [Hmono1 _].
    destruct (IH _ _ Hc) as [Hmono' Hall].
    split; [auto|].
    intros name p Hin. apply elem_of_cons in Hin as [[= -> ->]|Hin].
    + exists g, g1. auto.
    + apply Hall in Hin as (g2 & g3 & Hp & Hm). eauto.
Qed.

(** X23: the graph of a program that compiles has the edges of every
    statement: from each step below the statement to its parent, and
    from the statement before to each step of the statement that has no
    children. *)
Theorem Compile_edges (NewEnv : jsoncel.Provider -> error + cel.Env)
        (registry : string -> option jsoncel.decls.Type_)
        (c : glide.Compiler) (g : glide.Graph) (name : string) (p : glide.Path)
        (i : nat) (s : step.Step) (x y : string) :
  glide.Compile NewEnv registry c = inr g ->
  (name, p) ∈ glide.Workflow (glide.Program_ c) ->
  glide.Steps p !! i = Some s ->
  (x, y) ∈ glide.links (step.Position s ++ [Z.of_nat i]) None
             (match i with
              | O => None
              | S i' =>
                  (fun s' => step.Hash (glide.visited s' (Z.of_nat i')))
                    <$> glide.Steps p !! i'
              end) s ->
  graph.edge (glide.G g) x y.
Proof.
  intros Hc Hin Hi Hx.
  apply Compile_inr in Hc as (g0 & ps & -> & _ & env & Hc & _).
  unfold graph.edge, glide.settled. cbn [glide.G graph.edges].
  apply compilePasses_edges in Hc as [_ Hall].
  destruct (Hall name p Hin) as (g1 & g2 & Hstmts & Hmono).
  apply compileStatements_edges in Hstmts as [_ Hlinks].
  apply Hmono, (Hlinks i s Hi).
  replace (0 + Z.of_nat i)%Z with (Z.of_nat i) by lia.
  destruct i as [|i']; [exact Hx|].
  now replace (0 + Z.of_nat i')%Z with (Z.of_nat i') by lia.
Qed.

Lemma Compile_edges_witness :
  let g := examples.graphOf (examples.compile examples.andOneFalse) in
  graph.edge (glide.G g) "default.1.1" "default.1"
  /\ graph.edge (glide.G g) "request" "default.1.1"
  /\ graph.edge (glide.G g) "default.1" "approved".
Proof.
  intros g.
  set (p := glide.mkPath "default"
              (map (fun s => glide.setPass s "default")
                   [ s.Start "request";
                     s.Boolean step.And [s.Check "true"; s.Check "false"];
                     s.NamedOutcome "" 1 "approved" ])).
  assert (Hc : glide.Compile examples.NewEnv examples.emptyRegistry
                 (glide.mkCompiler examples.andOneFalse None 0) = inr g)
    by (vm_compute; reflexivity).
  assert (Hp : ("default", p) ∈ glide.Workflow examples.andOneFalse)
    by (apply list_elem_of_In; simpl; tauto).
  split; [|split].
  - eapply (Compile_edges _ _ _ g "default" p 1 _ _ _ Hc Hp); [reflexivity|].
    apply list_elem_of_In. vm_compute. tauto.
  - eapply (Compile_edges _ _ _ g "default" p 1 _ _ _ Hc Hp); [reflexivity|].
    apply list_elem_of_In. vm_compute. tauto.
  - eapply (Compile_edges _ _ _ g "default" p 2 _ _ _ Hc Hp); [reflexivity|].
    apply list_elem_of_In. vm_compute. tauto.
Defined.

(** ** Executions of a program that compiles *)




Section total.
Variables (g : glide.Graph) (start : string) (input : list (string * any)).
Hypothesis g_wellFormed : glide.wellFormed g.
Hypothesis programs_bool :
  map_Forall (fun _ prg => exists b, cel.Eval prg (glide.NewInputMap "input" input)
                                     = inr (cel.valBool b))
             (glide.programs g).
Hypothesis actions_complete :
  map_Forall (fun _ v => forall name Complete_,
                step.body v = step.Action name (action (Some Complete_)) ->
                exists b, Complete_ input = inr b)
             (graph.vertices (glide.G g)).



Hypothesis start_vertex : is_Some (graph.vertices (glide.G g) !! start).


End total.



(** ** Paths of the completion graph *)

Lemma reachable_mono {T : Type} (g g' : graph.Graph T) (x y : string) :
  (forall a b, (a, b) ∈ graph.edges g -> (a, b) ∈ graph.edges g') ->
  graph.reachable g x y -> graph.reachable g' x y.
Proof.
  intros Hsub. induction 1 as [|y z _ IH Hyz]; [constructor|].
  apply (graph.reachable_step g' x y z IH). now apply Hsub.
Qed.

(** X21: in the completion graph of a result, a directed path leads
    from the start vertex to every vertex that is Active or Complete. *)
Theorem Complete_connected (g : glide.Graph) (start : string)
        (input : list (string * any)) (res : glide.Result) (v : string) :
  glide.Execute g start input = Some (inr res) ->
  glide.State_ res !! v = Some glide.Active
  \/ glide.State_ res !! v = Some glide.Complete ->
  graph.reachable (glide.CG res) start v.
Proof.
  intros Hex. destruct (order_is_Some (glide.G g) start) as [ks Hks].
  destruct (Execute_CG g start input res ks Hex Hks) as (Hverr & Hnd & -> & ->).
  pose proof (order_spec _ _ _ Hks) as (_ & _ & _ & Hord).
  revert v.
  apply (after_ind g start input (fun l st => forall v,
    glide.state st !! v = Some glide.Active
    \/ glide.state st !! v = Some glide.Complete ->
    graph.reachable (glide.cg st) start v) ks Hverr).
  - intros v [Hv|Hv]; simpl in Hv; now rewrite lookup_empty in Hv.
  - intros pre k post Heq IH Hk v Hv.
    destruct (visit_cg g start input k _ _ Hk) as (sv & _ & _ & _ & Hedges).
    assert (Hold : forall x, graph.reachable (glide.cg (glide.after g start input pre)) start x ->
              graph.reachable (glide.cg (glide.after g start input (pre ++ [k]))) start x).
    { intros x. apply reachable_mono. intros a b Hab. apply Hedges. now left. }
    destruct (decide (v = k)) as [->|Hvk].
    + destruct (decide (k = start)) as [->|Hne]; [constructor|].
      pose proof (visit_active g start input k _ _ Hk Hne Hv) as Hcc.
      cbv beta zeta in Hcc. rewrite decide_False in Hcc by exact Hne.
      assert (Hpos : (0 < glide.completed
                           (<[k := glide.Inactive]>
                              (glide.state (glide.after g start input pre)))
                           (graph.PredecessorMap (glide.G g) k))%nat).
      { destruct Hcc as [Hpos|Hall]; [exact Hpos|]. rewrite Hall.
        destruct (ks_predecessor g start ks Hord pre k post Heq Hne) as (p & _ & Hp).
        destruct (graph.PredecessorMap (glide.G g) k); [inversion Hp|simpl; lia]. }
      apply (completed_pos g start input) in Hpos as (p & Hp & Hc).
      assert (Hpk : p <> k) by (intros ->; now rewrite lookup_insert_eq in Hc).
      rewrite lookup_insert_ne in Hc by congruence.
      apply (graph.reachable_step _ start p k); [apply Hold, IH; now right|].
      apply Hedges. right. auto.
    + apply Hold, IH.
      now rewrite (visit_other g start input k _ _ v Hk Hvk) in Hv.
Qed.

Lemma Complete_connected_witness :
  let g := examples.graphOf (examples.compile examples.andOneFalse) in
  let res := examples.resultOf g "request" [] in
  graph.reachable (glide.CG res) "request" "default.1.0".
Proof.
  intros g res.
  apply (Complete_connected g "request" [] res "default.1.0").
  - vm_compute. reflexivity.
  - right. vm_compute. reflexivity.
Defined.
